(** * Vibe language support for VS Code: outline builder and diagnostic locator

    A shallow embedding of the two text scanners of the extension:
    [VibeDocumentSymbolProvider.provideDocumentSymbols] (the outline view) and
    the stderr parser inside [runDiagnostics] (diagnostics on save), together
    with the properties of the specification that concern them; then the
    fallback providers of [src/extension.ts] and the handlers of [activate]
    that keep the diagnostic collection, with further properties of the
    outline and of the diagnostics.

    JavaScript strings are sequences of UTF-16 code units; they are modelled
    as lists of code units, so that the character classes of the regular
    expressions ([\s], [\w], [\d], [.]) are the ones of ECMAScript. *)

From Stdlib Require Import ZArith NArith Ascii String List Bool Lia Permutation.
From stdpp Require Import base list option numbers.
From stdpp Require gmap.
Import ListNotations.

Set Warnings "-register-all".

Local Open Scope Z_scope.

(** ** JavaScript strings *)

Module JS.

(** A UTF-16 code unit. *)
Definition char := N.

Definition jsstring := list char.

Definition code (a : ascii) : char := N_of_ascii a.

(** A string literal of the source, as code units. *)
Definition str (s : string) : jsstring := map code (list_ascii_of_string s).

(** [\s], and the characters removed by [String.prototype.trim]: WhiteSpace
    and LineTerminator of ECMAScript. *)
Definition isWs (c : char) : bool :=
  ((9 <=? c) && (c <=? 13) || (c =? 32) || (c =? 160) || (c =? 5760)
   || (8192 <=? c) && (c <=? 8202) || (c =? 8232) || (c =? 8233)
   || (c =? 8239) || (c =? 8287) || (c =? 12288) || (c =? 65279))%N.

(** The characters that [.] does not match (no [s] flag): LineTerminator. *)
Definition isLineTerminator (c : char) : bool :=
  ((c =? 10) || (c =? 13) || (c =? 8232) || (c =? 8233))%N.

(** [\d] *)
Definition isDigit (c : char) : bool := ((48 <=? c) && (c <=? 57))%N.

(** [[A-Z]] *)
Definition isUpper (c : char) : bool := ((65 <=? c) && (c <=? 90))%N.

(** [[a-z]] *)
Definition isLower (c : char) : bool := ((97 <=? c) && (c <=? 122))%N.

(** [\w] *)
Definition isWord (c : char) : bool :=
  isUpper c || isLower c || isDigit c || (c =? 95)%N.

(** [[a-zA-Z_]] *)
Definition isAlphaUnderscore (c : char) : bool :=
  isLower c || isUpper c || (c =? 95)%N.

(** [[A-Z_]] *)
Definition isUpperUnderscore (c : char) : bool := isUpper c || (c =? 95)%N.

(** A literal character under the [i] flag. Canonicalize maps no code unit
    at or above 128 to one below 128, so an ASCII letter is matched by its
    two cases only. *)
Definition eqCaseInsensitive (lower : char) (c : char) : bool :=
  ((c =? lower) || (c =? lower - 32))%N.

(** The longest prefix whose characters satisfy [p], and what follows it:
    a greedy [p*] at the head of the string. *)
Fixpoint span (p : char -> bool) (s : jsstring) : jsstring * jsstring :=
  match s with
  | [] => ([], [])
  | c :: r => if p c then let '(a, b) := span p r in (c :: a, b) else ([], s)
  end.

Definition takeWhile (p : char -> bool) (s : jsstring) : jsstring := fst (span p s).
Definition dropWhile (p : char -> bool) (s : jsstring) : jsstring := snd (span p s).

(** [s.trim()] *)
Definition trim (s : jsstring) : jsstring :=
  rev (dropWhile isWs (rev (dropWhile isWs s))).

(** [s.split] at the line feed character: never empty; the empty string gives one empty line. *)
Fixpoint split_nl (s : jsstring) : list jsstring :=
  match s with
  | [] => [[]]
  | c :: r =>
      if (c =? 10)%N then [] :: split_nl r
      else match split_nl r with
           | l :: ls => (c :: l) :: ls
           | [] => [[c]]
           end
  end.

(** [s] begins with the literal [p]; the rest of [s] after it. *)
Fixpoint stripPrefix (p s : jsstring) : option jsstring :=
  match p with
  | [] => Some s
  | a :: p' =>
      match s with
      | [] => None
      | c :: s' => if (c =? a)%N then stripPrefix p' s' else None
      end
  end.

Definition startsWith (p s : jsstring) : bool :=
  match stripPrefix p s with Some _ => true | None => false end.

Fixpoint indexOfFrom (p s : jsstring) (i : Z) : Z :=
  if startsWith p s then i
  else match s with
       | [] => -1
       | _ :: r => indexOfFrom p r (i + 1)
       end.

(** [s.indexOf(p)]: the position of the first occurrence of [p] in [s],
    or -1. *)
Definition indexOf (s p : jsstring) : Z := indexOfFrom p s 0.

(** [s.length] *)
Definition strlen (s : jsstring) : Z := Z.of_nat (length s).

Definition digitValue (c : char) : Z := Z.of_N c - 48.

(** [parseInt(s, 10)] on a non-empty string of decimal digits, as the
    mathematical integer. A JavaScript Number holds it exactly up to 2^53;
    the statements that depend on the exact value carry that bound. *)
Definition parseInt (s : jsstring) : Z :=
  fold_left (fun acc c => 10 * acc + digitValue c) s 0.

(** [Number.MAX_SAFE_INTEGER] *)
Definition MAX_SAFE_INTEGER : Z := 2 ^ 53 - 1.

End JS.

Import JS.

(** ** The part of the VS Code API that the scanners use *)

Module Vscode.

(** [vscode.Position]: zero-based line and character offset. *)
Record Position := mkPosition { line : Z; character : Z }.

Definition isBefore (a b : Position) : bool :=
  (line a <? line b) || ((line a =? line b) && (character a <? character b)).

(** [vscode.Range]. *)
Record Range := mkRange { rstart : Position; rend : Position }.

(** [new vscode.Range(start, end)]: the constructor orders its two
    positions, so that the start is never after the end. *)
Definition newRange (a b : Position) : Range :=
  if isBefore a b then mkRange a b else mkRange b a.

(** The members of [vscode.SymbolKind] that the provider uses. *)
Inductive SymbolKind := Function | Class | Struct | Enum | Constant.

(** [vscode.DiagnosticSeverity] *)
Inductive DiagnosticSeverity := Error | Warning | Information | Hint.

(** [vscode.Diagnostic] *)
Record Diagnostic := mkDiagnostic {
  drange : Range;
  message : jsstring;
  severity : DiagnosticSeverity
}.

(** [new vscode.Diagnostic(range, message, severity)]: the constructor
    throws a TypeError ("message must be set") when the message is the empty
    string; [None] is the exception. *)
Definition newDiagnostic (r : Range) (msg : jsstring) (sev : DiagnosticSeverity)
    : option Diagnostic :=
  match msg with
  | [] => None
  | _ :: _ => Some (mkDiagnostic r msg sev)
  end.

(** A [vscode.DocumentSymbol] object in the store. The provider keeps
    references to one symbol object in several places (the result array or the
    parent's [children], and the block stack) and mutates it through them, so
    the objects live in a store and are referred to by their address, which
    is their allocation index. *)
Record DocumentSymbol := mkDocumentSymbol {
  name : jsstring;
  detail : jsstring;
  kind : SymbolKind;
  range : Range;
  selectionRange : Range;
  children : list nat
}.

(** The value that the host receives: the object graph under the returned
    array, as a forest. *)
Inductive SymbolNode :=
  Node (nm : jsstring) (k : SymbolKind) (r sel : Range) (cs : list SymbolNode).

End Vscode.

Import Vscode.

(** ** Document symbol provider (outline view) *)

Module Outline.

(** The shape [^ \s* keyword \s+ ( first \w* )] (the regular expressions
    are written here with spaces between their tokens): leading white space,
    the keyword, at least one white space, then the captured identifier.
    Every quantifier is followed by a character outside its class, so the
    greedy match is the only one. The result is the capture and the text
    after it. *)
Definition matchKeywordIdent (keyword : jsstring) (first : char -> bool)
    (line : jsstring) : option (jsstring * jsstring) :=
  match stripPrefix keyword (dropWhile isWs line) with
  | None => None
  | Some s =>
      match span isWs s with
      | ([], _) => None
      | (_ :: _, c :: r) =>
          if first c then
            let '(w, rest) := span isWord r in Some (c :: w, rest)
          else None
      | (_ :: _, []) => None
      end
  end.

(** [/ ^ \s* def \s+ ( [a-zA-Z_] \w* ) /] *)
Definition reDef (line : jsstring) : option jsstring :=
  fst <$> matchKeywordIdent (str "def") isAlphaUnderscore line.

(** [/ ^ \s* class \s+ ( [A-Z] \w* ) /] *)
Definition reClass (line : jsstring) : option jsstring :=
  fst <$> matchKeywordIdent (str "class") isUpper line.

(** [/ ^ \s* struct \s+ ( [A-Z] \w* ) /] *)
Definition reStruct (line : jsstring) : option jsstring :=
  fst <$> matchKeywordIdent (str "struct") isUpper line.

(** [/ ^ \s* enum \s+ ( [A-Z] \w* ) /] *)
Definition reEnum (line : jsstring) : option jsstring :=
  fst <$> matchKeywordIdent (str "enum") isUpper line.

(** [/ ^ \s* const \s+ ( [A-Z_] \w* ) \s* = /] *)
Definition reConst (line : jsstring) : option jsstring :=
  match matchKeywordIdent (str "const") isUpperUnderscore line with
  | Some (w, rest) =>
      match dropWhile isWs rest with
      | c :: _ => if (c =? code "=")%N then Some w else None
      | [] => None
      end
  | None => None
  end.

(** The [patterns] table: a regular expression with its symbol kind; the
    name is capture group 1 in each. *)
Definition patterns : list ((jsstring -> option jsstring) * SymbolKind) :=
  [ (reDef, Function); (reClass, Class); (reStruct, Struct);
    (reEnum, Enum); (reConst, Constant) ].

(** The inner [for (const pat of patterns)] loop up to its [break]: the
    first pattern that matches the line, with the captured name. *)
Fixpoint firstMatch (pats : list ((jsstring -> option jsstring) * SymbolKind))
    (line : jsstring) : option (SymbolKind * jsstring) :=
  match pats with
  | [] => None
  | (re, k) :: rest =>
      match re line with
      | Some nm => Some (k, nm)
      | None => firstMatch rest line
      end
  end.

(** [\b] after a keyword that ends in a word character: the next character,
    if any, is not a word character. *)
Definition wordBoundary (rest : jsstring) : bool :=
  match rest with
  | [] => true
  | c :: _ => negb (isWord c)
  end.

(** [^ \s* ( k1 | k2 | ... ) \b]: some alternative matches after the
    leading white space and ends at a word boundary. *)
Definition matchKeywords (keywords : list jsstring) (s : jsstring) : bool :=
  existsb (fun kw =>
             match stripPrefix kw (dropWhile isWs s) with
             | Some rest => wordBoundary rest
             | None => false
             end) keywords.

Definition blockOpeners : list jsstring :=
  map str ["def"; "class"; "struct"; "enum"; "if"; "unless"; "until";
           "while"; "for"; "case"; "try"]%string.

(** [/ ^ \s* ( def|class|struct|enum|if|unless|until|while|for|case|try ) \b /]
    tested on the trimmed line. *)
Definition opensBlock (trimmed : jsstring) : bool :=
  matchKeywords blockOpeners trimmed.

(** [/ ^ \s* end \b /] tested on the trimmed line. *)
Definition closesBlock (trimmed : jsstring) : bool :=
  matchKeywords [str "end"] trimmed.

(** An entry of [blockStack]. *)
Record Frame := mkFrame { symbol : nat; fdepth : Z }.

(** The variables of [provideDocumentSymbols] during the scan: the store of
    symbol objects, the result array [symbols], [blockStack] (its last
    element, the top, is the head of the list) and [depth]. *)
Record ScanState := mkScanState {
  store : list DocumentSymbol;
  symbols : list nat;
  blockStack : list Frame;
  depth : Z
}.

Definition initial : ScanState := mkScanState [] [] [] 0.

Definition pushChild (child : nat) (s : DocumentSymbol) : DocumentSymbol :=
  mkDocumentSymbol (name s) (detail s) (kind s) (range s) (selectionRange s)
    (children s ++ [child]).

Definition setRange (r : Range) (s : DocumentSymbol) : DocumentSymbol :=
  mkDocumentSymbol (name s) (detail s) (kind s) r (selectionRange s)
    (children s).

Definition isFunctionOrEnum (k : SymbolKind) : bool :=
  match k with Function | Enum => true | _ => false end.

Definition pushesFrame (k : SymbolKind) : bool :=
  match k with Class | Struct | Enum | Function => true | Constant => false end.

(** "Check for symbol definitions": the new symbol is allocated, linked
    under the symbol of the top frame or appended to the result, and a frame
    is pushed for the kinds that open a block. *)
Definition defineSymbol (i : Z) (line : jsstring) (st : ScanState) : ScanState :=
  match firstMatch patterns line with
  | None => st
  | Some (k, nm) =>
      let startPos := mkPosition i (indexOf line nm) in
      let rg := newRange startPos (mkPosition i (strlen line)) in
      let sym := mkDocumentSymbol nm [] k rg rg [] in
      let id := length (store st) in
      let st1 :=
        match blockStack st with
        | parent :: _ =>
            if isFunctionOrEnum k then
              mkScanState (alter (pushChild id) (symbol parent) (store st ++ [sym]))
                (symbols st) (blockStack st) (depth st)
            else
              mkScanState (store st ++ [sym]) (symbols st ++ [id])
                (blockStack st) (depth st)
        | [] =>
            mkScanState (store st ++ [sym]) (symbols st ++ [id])
              (blockStack st) (depth st)
        end in
      if pushesFrame k then
        mkScanState (store st1) (symbols st1)
          (mkFrame id (depth st1) :: blockStack st1) (depth st1)
      else st1
  end.

(** "Track depth via block-opening keywords". *)
Definition trackOpen (trimmed : jsstring) (st : ScanState) : ScanState :=
  if opensBlock trimmed then
    mkScanState (store st) (symbols st) (blockStack st) (depth st + 1)
  else st.

(** "end keyword closes a block". *)
Definition trackClose (i : Z) (line trimmed : jsstring) (st : ScanState) : ScanState :=
  if closesBlock trimmed then
    let d := depth st - 1 in
    match blockStack st with
    | top :: rest =>
        if d <=? fdepth top then
          mkScanState
            (alter (fun s => setRange
                      (newRange (rstart (range s)) (mkPosition i (strlen line))) s)
               (symbol top) (store st))
            (symbols st) rest d
        else mkScanState (store st) (symbols st) (blockStack st) d
    | [] => mkScanState (store st) (symbols st) [] d
    end
  else st.

(** The body of the loop over the lines, for line number [i]. *)
Definition scanLine (i : Z) (line : jsstring) (st : ScanState) : ScanState :=
  let trimmed := trim line in
  trackClose i line trimmed (trackOpen trimmed (defineSymbol i line st)).

(** [for (let i = 0; i < lines.length; i++)], from line number [i] on. *)
Fixpoint scanFrom (i : Z) (lines : list jsstring) (st : ScanState) : ScanState :=
  match lines with
  | [] => st
  | l :: ls => scanFrom (i + 1) ls (scanLine i l st)
  end.

(** The object graphs of the symbols at addresses [base], [base + 1], ...
    of the store. A symbol is linked under an older one only, at its
    creation, so the children of a symbol are found among the younger
    symbols. *)
Fixpoint graphsFrom (base : nat) (objs : list DocumentSymbol) : list SymbolNode :=
  match objs with
  | [] => []
  | s :: rest =>
      let younger := graphsFrom (S base) rest in
      Node (name s) (kind s) (range s) (selectionRange s)
        (omap (fun c => if decide (base < c)%nat
                        then younger !! (c - S base)%nat else None)
           (children s))
      :: younger
  end.

(** The array [symbols] as the host sees it. *)
Definition forest (st : ScanState) : list SymbolNode :=
  omap (fun id => graphsFrom 0 (store st) !! id) (symbols st).

(** [provideDocumentSymbols(document)], as a function of the text of the
    document: the [build] of the specification. *)
Definition provideDocumentSymbols (text : jsstring) : list SymbolNode :=
  forest (scanFrom 0 (split_nl text) initial).

End Outline.

Import Outline.

(** ** Diagnostics provider (interpreter errors on save) *)

Module Diagnostics.

Definition notLineTerminator (c : char) : bool := negb (isLineTerminator c).

(** [/ \[ (\d+) : (\d+) \] \s* (.* ) /] tried at the head of [s]: the three
    captures. The digits are followed by a character that is no digit and
    the white space by [.*], which matches from any position, so the greedy
    match is the only one. *)
Definition matchBracketAt (s : jsstring) : option (jsstring * jsstring * jsstring) :=
  match s with
  | c :: r =>
      if (c =? code "[")%N then
        match span isDigit r with
        | ((_ :: _) as d1, c1 :: r1) =>
            if (c1 =? code ":")%N then
              match span isDigit r1 with
              | ((_ :: _) as d2, c2 :: r2) =>
                  if (c2 =? code "]")%N then
                    Some (d1, d2, takeWhile notLineTerminator (dropWhile isWs r2))
                  else None
              | _ => None
              end
            else None
        | _ => None
        end
      else None
  | [] => None
  end.

(** [errLine.match] of the bracket expression, which is not anchored: the
    match at the leftmost position that has one. *)
Fixpoint bracketMatch (s : jsstring) : option (jsstring * jsstring * jsstring) :=
  match matchBracketAt s with
  | Some m => Some m
  | None =>
      match s with
      | [] => None
      | _ :: r => bracketMatch r
      end
  end.

(** [/ line \s+ (\d+) /i] tried at the head of [s]: the capture. *)
Definition matchLineAt (s : jsstring) : option jsstring :=
  match s with
  | c1 :: c2 :: c3 :: c4 :: r =>
      if eqCaseInsensitive (code "l") c1 && eqCaseInsensitive (code "i") c2
         && eqCaseInsensitive (code "n") c3 && eqCaseInsensitive (code "e") c4
      then
        match span isWs r with
        | (_ :: _, r1) =>
            match span isDigit r1 with
            | ((_ :: _) as d, _) => Some d
            | ([], _) => None
            end
        | ([], _) => None
        end
      else None
  | _ => None
  end.

(** [errLine.match] of the "line N" expression: leftmost match. *)
Fixpoint lineMatch (s : jsstring) : option jsstring :=
  match matchLineAt s with
  | Some d => Some d
  | None =>
      match s with
      | [] => None
      | _ :: r => lineMatch r
      end
  end.

(** [Math.max(0, parseInt(digits, 10) - 1)] *)
Definition zeroBased (digits : jsstring) : Z := Z.max 0 (parseInt digits - 1).

(** The diagnostic constructed for a line that is not blank; the
    constructor throws when the bracket form has nothing to capture as the
    message. *)
Definition diagnose (errLine : jsstring) : option Diagnostic :=
  let '(ln, col, msg) :=
    match bracketMatch errLine with
    | Some (d1, d2, m) => (zeroBased d1, zeroBased d2, m)
    | None =>
        match lineMatch errLine with
        | Some d => (zeroBased d, 0, trim errLine)
        | None => (0, 0, trim errLine)
        end
    end in
  newDiagnostic
    (newRange (mkPosition ln col) (mkPosition ln MAX_SAFE_INTEGER)) msg Error.

(** [!errLine.trim()] *)
Definition isBlank (errLine : jsstring) : bool :=
  match trim errLine with [] => true | _ :: _ => false end.

(** The loop over the lines of the error text, with its [continue] and
    its [push], from the diagnostics collected so far. An exception of the
    constructor leaves the loop: the result is then [None]. *)
Fixpoint pushDiagnostics (diagnose : jsstring -> option Diagnostic)
    (errorLines : list jsstring) (diagnostics : list Diagnostic)
    : option (list Diagnostic) :=
  match errorLines with
  | [] => Some diagnostics
  | errLine :: rest =>
      if isBlank errLine then pushDiagnostics diagnose rest diagnostics
      else
        match diagnose errLine with
        | Some d => pushDiagnostics diagnose rest (diagnostics ++ [d])
        | None => None
        end
  end.

(** The loop over [stderr.split], started with no diagnostic. *)
Definition parseErrors (diagnose : jsstring -> option Diagnostic)
    (stderr : jsstring) : option (list Diagnostic) :=
  pushDiagnostics diagnose (split_nl stderr) [].

(** The callback of [execFile] up to its last statement: the array that is
    passed to [diagnosticCollection.set], given whether [error] is set and
    the text of [stderr] (the empty string is falsy); [None] when the
    constructor throws in the loop, so that [set] is not reached. *)
Definition onExit (error : bool) (stderr : jsstring)
    : option (list Diagnostic) :=
  match error, stderr with
  | true, _ :: _ => parseErrors diagnose stderr
  | _, _ => Some []
  end.

(** The [locate] of the specification: the diagnostics of a failed run of
    the interpreter, from its error text; [None] when the callback ends
    with the exception and no diagnostic is emitted. *)
Definition locate (errorText : jsstring) : option (list Diagnostic) :=
  onExit true errorText.

(** The [onDidSaveTextDocument] handler of [src/extension.ts] has the same
    loop with the bracket form only. *)
Definition diagnoseOnSave (errLine : jsstring) : option Diagnostic :=
  let '(ln, col, msg) :=
    match bracketMatch errLine with
    | Some (d1, d2, m) => (zeroBased d1, zeroBased d2, m)
    | None => (0, 0, trim errLine)
    end in
  newDiagnostic
    (newRange (mkPosition ln col) (mkPosition ln MAX_SAFE_INTEGER)) msg Error.

Definition locateOnSave (errorText : jsstring) : option (list Diagnostic) :=
  match errorText with
  | _ :: _ => parseErrors diagnoseOnSave errorText
  | [] => Some []
  end.

(** The [line] and [column] of a diagnostic in the specification are the
    start of its range. *)
Definition dline (d : Diagnostic) : Z := line (rstart (drange d)).
Definition dcolumn (d : Diagnostic) : Z := character (rstart (drange d)).

End Diagnostics.

Import Diagnostics.

(** * Vocabulary of the statements *)

(** The line feed, at which the texts are split. *)
Definition LF : char := 10%N.

(** The string does not begin with a character of the class [p]: where a
    greedy [p*] stops. *)
Definition stopsAt (p : char -> bool) (s : jsstring) : bool :=
  match s with
  | [] => true
  | c :: _ => negb (p c)
  end.

(** The line is not skipped by the loop over the error text. *)
Definition nonBlank (l : jsstring) : bool := negb (isBlank l).

(** A non-empty string of decimal digits. *)
Definition isDigits (d : jsstring) : bool :=
  match d with [] => false | _ :: _ => forallb isDigit d end.

(** A line whose prefix, after optional white space, is
    "[<digits>:<digits>]". *)
Definition bracketLine (ws d1 d2 rest : jsstring) : jsstring :=
  ws ++ code "[" :: d1 ++ code ":" :: d2 ++ code "]" :: rest.

(** The diagnostic at the zero-based line [l] and column [c], to the end of
    that line. *)
Definition diagnosticAt (l c : Z) (msg : jsstring) : Diagnostic :=
  mkDiagnostic (mkRange (mkPosition l c) (mkPosition l MAX_SAFE_INTEGER))
    msg Error.

(** The four letters of "line", in either case. *)
Definition isLineWord (kw : jsstring) : bool :=
  match kw with
  | [c1; c2; c3; c4] =>
      eqCaseInsensitive (code "l") c1 && eqCaseInsensitive (code "i") c2
      && eqCaseInsensitive (code "n") c3 && eqCaseInsensitive (code "e") c4
  | _ => false
  end.

(** The "line N" expression matches at none of the first [n] positions of
    [s]. *)
Fixpoint noLineMatchIn (n : nat) (s : jsstring) : bool :=
  match n with
  | O => true
  | S n' =>
      match matchLineAt s with
      | Some _ => false
      | None =>
          match s with
          | [] => true
          | _ :: r => noLineMatchIn n' r
          end
      end
  end.

(** The removal of the trailing white space, the second half of [trim]. *)
Definition trimEnd (s : jsstring) : jsstring := rev (dropWhile isWs (rev s)).

(** No character of the string is white space. *)
Definition solid (kw : jsstring) : bool := forallb (fun c => negb (isWs c)) kw.

(** The range given to a new symbol: from the column found for its name to
    the end of its line. *)
Definition provisional (i : Z) (line nm : jsstring) : Range :=
  newRange (mkPosition i (indexOf line nm)) (mkPosition i (strlen line)).

(** The range of a symbol once its block is closed on line [j]. *)
Definition resolved (i : Z) (line nm : jsstring) (j : Z) (closing : jsstring)
    : Range :=
  mkRange (rstart (provisional i line nm)) (mkPosition j (strlen closing)).

(** The symbol object allocated for a definition on line [i]. *)
Definition newSymbol (i : Z) (line : jsstring) (k : SymbolKind) (nm : jsstring)
    : DocumentSymbol :=
  mkDocumentSymbol nm [] k (provisional i line nm) (provisional i line nm) [].

(** No "end" among the lines closes more blocks than those lines have
    opened: [k] is the number of blocks that the lines so far have opened and
    not closed. *)
Fixpoint staysOpen (k : Z) (lines : list jsstring) : bool :=
  match lines with
  | [] => true
  | l :: ls =>
      let k' := k + (if opensBlock (trim l) then 1 else 0)
                - (if closesBlock (trim l) then 1 else 0) in
      (0 <=? k') && staysOpen k' ls
  end.

(** The symbol is the class [nm] and still has the range [rg] of its
    definition line. *)
Definition isOpenClass (nm : jsstring) (rg : Range) (s : DocumentSymbol) : Prop :=
  name s = nm /\ kind s = Class /\ range s = rg /\ selectionRange s = rg.

(** The frame of the class at address [id], opened at depth [d0], is on the
    stack, below frames of other symbols; its symbol is unchanged and is in
    the result array. *)
Definition openClassInvariant (id : nat) (d0 : Z) (nm : jsstring) (rg : Range)
    (st : ScanState) : Prop :=
  (exists above below,
      blockStack st = above ++ mkFrame id d0 :: below
      /\ Forall (fun f => symbol f <> id) above)
  /\ (exists s, store st !! id = Some s /\ isOpenClass nm rg s)
  /\ In id (symbols st).

(** Every child of a symbol of the store is a younger symbol, at an address
    below [n]. *)
Definition linked (n : nat) (objs : list DocumentSymbol) : Prop :=
  forall (j : nat) (s : DocumentSymbol) (c : nat),
    objs !! j = Some s -> In c (children s) -> (j < c < n)%nat.

(** The links of the store stay inside the store, and so do the frames. *)
Definition wellLinked (st : ScanState) : Prop :=
  linked (length (store st)) (store st)
  /\ Forall (fun f => (symbol f < length (store st))%nat) (blockStack st).

(** * The rest of the extension *)

(** ** The document symbol provider of [src/extension.ts] *)

Module FlatOutline.

(** The fallback provider registered in [registerFallbackProviders]: the
    same table of patterns, every symbol at the top level, with the whole
    line as its range and its selection range. *)
Fixpoint flatSymbolsFrom (i : Z) (lines : list jsstring) : list SymbolNode :=
  match lines with
  | [] => []
  | l :: ls =>
      match firstMatch patterns l with
      | Some (k, nm) =>
          let rg := newRange (mkPosition i 0) (mkPosition i (strlen l)) in
          Node nm k rg rg [] :: flatSymbolsFrom (i + 1) ls
      | None => flatSymbolsFrom (i + 1) ls
      end
  end.

Definition provideDocumentSymbolsFlat (text : jsstring) : list SymbolNode :=
  flatSymbolsFrom 0 (split_nl text).

End FlatOutline.

Import FlatOutline.

(** ** The diagnostics of the open documents *)

Module Session.

Import stdpp.gmap.

(** A [vscode.TextDocument], as far as the extension reads it; [uri] is the
    string of [document.uri], the key of the diagnostic collection. *)
Record TextDocument := mkTextDocument {
  uri : jsstring;
  languageId : jsstring;
  fileName : jsstring
}.

(** The settings of the section "vibe", with the defaults of [config.get]
    applied, as they are when a handler reads them. *)
Record Configuration := mkConfiguration {
  enableDiagnostics : bool;
  executablePath : jsstring
}.

(** A call of [cp.execFile] whose callback has not run yet: the program, its
    arguments and the document of the callback's closure. *)
Record Exec := mkExec {
  file : jsstring;
  args : list jsstring;
  document : TextDocument
}.

(** The variable [diagnosticCollection] and the interpreters that are
    running. *)
Record State := mkState {
  diagnosticCollection : gmap jsstring (list Diagnostic);
  running : list Exec
}.

Definition isVibe (d : TextDocument) : bool :=
  bool_decide (languageId d = str "vibe").

(** [runDiagnostics(document)] up to the call of [execFile]. *)
Definition runDiagnostics (config : Configuration) (d : TextDocument)
    (st : State) : State :=
  if negb (isVibe d) then st
  else if negb (enableDiagnostics config) then
    mkState (delete (uri d) (diagnosticCollection st)) (running st)
  else
    mkState (diagnosticCollection st)
      (running st ++ [mkExec (executablePath config) [fileName d] d]).

(** The callback of [execFile]: [diagnosticCollection.set] with the array
    that the loop built; when the loop throws, [set] is not reached and the
    collection stays as it is. *)
Definition execCallback (d : TextDocument) (error : bool) (stderr : jsstring)
    (st : State) : State :=
  match onExit error stderr with
  | Some diagnostics =>
      mkState (<[uri d := diagnostics]> (diagnosticCollection st)) (running st)
  | None => st
  end.

(** The handlers that [activate] registers. *)
Definition onSave (config : Configuration) (d : TextDocument) (st : State)
    : State :=
  if isVibe d then runDiagnostics config d st else st.

Definition onOpen (config : Configuration) (d : TextDocument) (st : State)
    : State :=
  if isVibe d then runDiagnostics config d st else st.

Definition onClose (d : TextDocument) (st : State) : State :=
  mkState (delete (uri d) (diagnosticCollection st)) (running st).

(** What happens after [activate]: a document is saved, opened or closed,
    with the settings of that moment, or the [n]-th interpreter that is
    running ends and its callback is called. *)
Inductive Event :=
  | DidSave (config : Configuration) (d : TextDocument)
  | DidOpen (config : Configuration) (d : TextDocument)
  | DidClose (d : TextDocument)
  | Exit (n : nat) (error : bool) (stderr : jsstring).

Definition isExit (e : Event) : bool :=
  match e with
  | Exit _ _ _ => true
  | _ => false
  end.

Definition handle (st : State) (e : Event) : State :=
  match e with
  | DidSave config d => onSave config d st
  | DidOpen config d => onOpen config d st
  | DidClose d => onClose d st
  | Exit n error stderr =>
      match running st !! n with
      | Some x =>
          execCallback (document x) error stderr
            (mkState (diagnosticCollection st) (delete n (running st)))
      | None => st
      end
  end.

(** [activate(context)], as far as the diagnostics go: the collection is
    created and the document of the active editor, if there is one, is
    checked. *)
Definition activate (config : Configuration)
    (activeTextEditor : option TextDocument) : State :=
  let st := mkState ∅ [] in
  match activeTextEditor with
  | Some d => runDiagnostics config d st
  | None => st
  end.

(** The state after the events that follow the activation. *)
Definition run (config : Configuration) (activeTextEditor : option TextDocument)
    (events : list Event) : State :=
  fold_left handle events (activate config activeTextEditor).

(** The document was checked: it was in the active editor at the
    activation, or it was saved or opened afterwards. *)
Definition wasChecked (activeTextEditor : option TextDocument)
    (events : list Event) (d : TextDocument) : Prop :=
  activeTextEditor = Some d
  \/ exists config, In (DidSave config d) events \/ In (DidOpen config d) events.

(** What holds after the events: an interpreter that is running checks a
    Vibe document that was checked, and an entry of the collection is what
    the callback of such an interpreter stored. *)
Definition provenance (activeTextEditor : option TextDocument)
    (events : list Event) (st : State) : Prop :=
  Forall (fun x => isVibe (document x) = true
                   /\ wasChecked activeTextEditor events (document x))
    (running st)
  /\ forall u ds,
       diagnosticCollection st !! u = Some ds ->
       exists d error stderr,
         uri d = u /\ isVibe d = true
         /\ wasChecked activeTextEditor events d
         /\ onExit error stderr = Some ds
         /\ exists n, In (Exit n error stderr) events.

End Session.

(** ** Vocabulary of the further statements *)

Definition nodeName (n : SymbolNode) : jsstring := let 'Node nm _ _ _ _ := n in nm.
Definition nodeKind (n : SymbolNode) : SymbolKind := let 'Node _ k _ _ _ := n in k.
Definition nodeRange (n : SymbolNode) : Range := let 'Node _ _ r _ _ := n in r.
Definition nodeSelectionRange (n : SymbolNode) : Range :=
  let 'Node _ _ _ s _ := n in s.
Definition nodeChildren (n : SymbolNode) : list SymbolNode :=
  let 'Node _ _ _ _ cs := n in cs.

(** The line on which the symbol of a node is defined. *)
Definition nodeLine (n : SymbolNode) : Z := line (rstart (nodeSelectionRange n)).

(** A node and all the nodes below it. *)
Fixpoint flatten (n : SymbolNode) : list SymbolNode :=
  match n with
  | Node _ _ _ _ cs => n :: flat_map flatten cs
  end.

(** All the nodes of an outline, the nested ones included. *)
Definition allNodes (outline : list SymbolNode) : list SymbolNode :=
  flat_map flatten outline.

(** The state at the end of the scan of a text, and its store. *)
Definition finalState (text : jsstring) : ScanState :=
  scanFrom 0 (split_nl text) initial.

(** What the lines of the text say of a symbol of the store: the line on
    which a pattern gave its kind and name, its selection range on that
    line, and its range, which begins there and ends there too or at the end
    of a later line that closes a block. *)
Definition origin (lines : list jsstring) (s : DocumentSymbol) : Prop :=
  exists (li : nat) (l : jsstring),
    lines !! li = Some l
    /\ firstMatch patterns l = Some (kind s, name s)
    /\ selectionRange s = provisional (Z.of_nat li) l (name s)
    /\ rstart (range s) = rstart (selectionRange s)
    /\ (range s = selectionRange s
        \/ exists (lj : nat) (lc : jsstring),
             (li < lj)%nat /\ lines !! lj = Some lc
             /\ closesBlock (trim lc) = true
             /\ rend (range s) = mkPosition (Z.of_nat lj) (strlen lc)).

(** The first character that the pattern of a kind accepts. *)
Definition firstOfKind (k : SymbolKind) : char -> bool :=
  match k with
  | Function => isAlphaUnderscore
  | Constant => isUpperUnderscore
  | Class | Struct | Enum => isUpper
  end.

(** A name that the pattern of the kind can capture. *)
Definition validName (k : SymbolKind) (nm : jsstring) : bool :=
  match nm with
  | [] => false
  | c :: w => firstOfKind k c && forallb isWord w
  end.

(** The values of [f] grow strictly along the list. *)
Definition increasing {A : Type} (f : A -> Z) (l : list A) : Prop :=
  forall (a b : nat) (x y : A),
    (a < b)%nat -> l !! a = Some x -> l !! b = Some y -> f x < f y.

(** The line on which a symbol of the store is defined. *)
Definition defLine (s : DocumentSymbol) : Z := line (rstart (selectionRange s)).

(** The symbols are in the store in the order of their lines, which are
    among the first [n] lines; the result array and the children of every
    symbol hold addresses of the store in growing order. *)
Definition inLineOrder (n : nat) (st : ScanState) : Prop :=
  Forall (fun s => defLine s < Z.of_nat n) (store st)
  /\ increasing defLine (store st)
  /\ increasing Z.of_nat (symbols st)
  /\ Forall (fun id => (id < length (store st))%nat) (symbols st)
  /\ Forall (fun s => increasing Z.of_nat (children s)) (store st).

(** Every child of a symbol of the store is a Function or an Enum. *)
Definition childKinds (objs : list DocumentSymbol) : Prop :=
  forall (j : nat) (s : DocumentSymbol) (c : nat),
    objs !! j = Some s -> In c (children s) ->
    exists sc, objs !! c = Some sc /\ isFunctionOrEnum (kind sc) = true.

(** What identifies a symbol in an outline: its kind, its name and the line
    of its definition. *)
Definition nodeKey (n : SymbolNode) : SymbolKind * jsstring * Z :=
  (nodeKind n, nodeName n, nodeLine n).

Definition symbolKey (s : DocumentSymbol) : SymbolKind * jsstring * Z :=
  (kind s, name s, defLine s).

(** Every address of the store is held exactly once, by the result array
    or by the children of a symbol. *)
Definition heldOnce (st : ScanState) : Prop :=
  Permutation (symbols st ++ concat (map children (store st)))
    (seq 0 (length (store st))).

(** The change of the depth over a line. *)
Definition depthChange (l : jsstring) : Z :=
  (if opensBlock (trim l) then 1 else 0)
  - (if closesBlock (trim l) then 1 else 0).

(** The depth after the lines, from the depth [k]. *)
Fixpoint depthAfter (k : Z) (lines : list jsstring) : Z :=
  match lines with
  | [] => k
  | l :: ls => depthAfter (k + depthChange l) ls
  end.

(** The lowest depth reached at the end of a line, from the depth [k]. *)
Fixpoint lowestFrom (k : Z) (lines : list jsstring) : Z :=
  match lines with
  | [] => k
  | l :: ls => Z.min k (lowestFrom (k + depthChange l) ls)
  end.

(** The blocks of the text are balanced: no line closes more blocks than
    are open, and at the end no block is open. *)
Definition balanced (text : jsstring) : bool :=
  (0 <=? lowestFrom 0 (split_nl text)) && (depthAfter 0 (split_nl text) =? 0).

(** The frames of the stack after the lines [pre]: they were opened at
    depths that were reached and are below the present depth, the deeper
    ones on top; and a symbol of a kind that opens a block has its frame on
    the stack or a range that ends after its definition line. *)
Definition openFrames (pre : list jsstring) (st : ScanState) : Prop :=
  depth st = depthAfter 0 pre
  /\ Forall (fun f => lowestFrom 0 pre <= fdepth f < depth st) (blockStack st)
  /\ increasing (fun f => - fdepth f) (blockStack st)
  /\ (forall j s, store st !! j = Some s -> pushesFrame (kind s) = true ->
        (exists d, In (mkFrame j d) (blockStack st))
        \/ defLine s < line (rend (range s))).

(** A symbol that opens no block, in the store: its range is its selection
    range and it has no children. *)
Definition plainLeaf (s : DocumentSymbol) : Prop :=
  pushesFrame (kind s) = false -> range s = selectionRange s /\ children s = [].

(** The frames of the stack are those of symbols that open a block, and the
    other symbols are plain leaves. *)
Definition framesOfBlocks (st : ScanState) : Prop :=
  Forall (fun f => exists s, store st !! symbol f = Some s
                             /\ pushesFrame (kind s) = true) (blockStack st)
  /\ Forall plainLeaf (store st).

Definition CR : char := 13%N.

(** The text with every line feed turned into carriage return and line
    feed. *)
Fixpoint crlf (s : jsstring) : jsstring :=
  match s with
  | [] => []
  | c :: r => if (c =? LF)%N then CR :: LF :: crlf r else c :: crlf r
  end.

(** The lines with a carriage return at the end of each but the last: the
    lines of the text that [crlf] gives. *)
Fixpoint withCR (lines : list jsstring) : list jsstring :=
  match lines with
  | [] => []
  | l :: ls =>
      match ls with
      | [] => [l]
      | _ :: _ => (l ++ [CR]) :: withCR ls
      end
  end.

(** The line [i] of such a text whose last line is the line [last]. *)
Definition lineEnd (last i : Z) (l : jsstring) : jsstring :=
  if i <? last then l ++ [CR] else l.

(** The range with its end one column further, when it ends before the
    line [last]. *)
Definition widenRange (last : Z) (r : Range) : Range :=
  if line (rend r) <? last
  then mkRange (rstart r)
         (mkPosition (line (rend r)) (character (rend r) + 1))
  else r.

Definition widenSymbol (last : Z) (s : DocumentSymbol) : DocumentSymbol :=
  mkDocumentSymbol (name s) (detail s) (kind s) (widenRange last (range s))
    (widenRange last (selectionRange s)) (children s).

Fixpoint widen (last : Z) (n : SymbolNode) : SymbolNode :=
  match n with
  | Node nm k r sel cs =>
      Node nm k (widenRange last r) (widenRange last sel) (map (widen last) cs)
  end.

Definition widenState (last : Z) (st : ScanState) : ScanState :=
  mkScanState (map (widenSymbol last) (store st)) (symbols st) (blockStack st)
    (depth st).

(** [range.contains(position)] and [range.contains(other)] of
    [vscode.Range]: what the host requires of the selection range of a
    symbol with respect to its range. *)
Definition containsPosition (r : Range) (p : Position) : bool :=
  negb (isBefore p (rstart r)) && negb (isBefore (rend r) p).

Definition containsRange (r other : Range) : bool :=
  containsPosition r (rstart other) && containsPosition r (rend other).

(** A position, a range and a node moved down by [dl] lines. *)
Definition shiftPosition (dl : Z) (p : Position) : Position :=
  mkPosition (line p + dl) (character p).

Definition shiftRange (dl : Z) (r : Range) : Range :=
  mkRange (shiftPosition dl (rstart r)) (shiftPosition dl (rend r)).

Fixpoint shiftLines (dl : Z) (n : SymbolNode) : SymbolNode :=
  match n with
  | Node nm k r sel cs =>
      Node nm k (shiftRange dl r) (shiftRange dl sel) (map (shiftLines dl) cs)
  end.

(** A symbol of the store moved down by [dl] lines and up by [k] addresses,
    and a frame moved up by [k] addresses. *)
Definition moveSymbol (dl : Z) (k : nat) (s : DocumentSymbol) : DocumentSymbol :=
  mkDocumentSymbol (name s) (detail s) (kind s) (shiftRange dl (range s))
    (shiftRange dl (selectionRange s)) (map (Nat.add k) (children s)).

Definition moveFrame (k : nat) (f : Frame) : Frame :=
  mkFrame (k + symbol f) (fdepth f).

(** The state [st] of a scan, continued after a scan of [dl] lines that
    ended in the state [before]. *)
Definition continued (before : ScanState) (dl : Z) (st : ScanState) : ScanState :=
  mkScanState
    (store before ++ map (moveSymbol dl (length (store before))) (store st))
    (symbols before ++ map (Nat.add (length (store before))) (symbols st))
    (map (moveFrame (length (store before))) (blockStack st))
    (depth st).

(** The line has the "line N" form and the bracket form nowhere. *)
Definition proseOnly (errLine : jsstring) : bool :=
  match bracketMatch errLine, lineMatch errLine with
  | None, Some _ => true
  | _, _ => false
  end.

(** The diagnostic of a line as the handler on save of [src/extension.ts]
    has it, from the one of [runDiagnostics]: moved to line 0 when the line
    has only the "line N" form, the same otherwise. *)
Definition atLineZero (errLine : jsstring) (d : Diagnostic) : Diagnostic :=
  if proseOnly errLine
  then mkDiagnostic (newRange (mkPosition 0 0) (mkPosition 0 MAX_SAFE_INTEGER))
         (message d) (severity d)
  else d.

(** The text whose lines are [lines]: the lines with a line feed between
    them. *)
Fixpoint joinLines (lines : list jsstring) : jsstring :=
  match lines with
  | [] => []
  | l :: ls =>
      match ls with
      | [] => l
      | _ :: _ => l ++ LF :: joinLines ls
      end
  end.

(** * Properties *)

(** ** The definitions at work *)

Section Examples.

Example split_nl_example :
  split_nl (str "a" ++ LF :: LF :: str "b") = [str "a"; []; str "b"].
Proof. reflexivity. Qed.

Example trim_example : trim (9%N :: str "  a b " ++ [13%N]) = str "a b".
Proof. reflexivity. Qed.

Example indexOf_example :
  indexOf (str "class Abc") (str "Abc") = 6 /\ indexOf (str "abc") (str "x") = -1.
Proof. split; reflexivity. Qed.

Example parseInt_example : parseInt (str "042") = 42.
Proof. reflexivity. Qed.

Example firstMatch_const :
  firstMatch patterns (str "  const MAX_N = 3") = Some (Constant, str "MAX_N")
  /\ firstMatch patterns (str "const MAX_N") = None
  /\ firstMatch patterns (str "class point") = None.
Proof. repeat split. Qed.

Example opensBlock_example :
  opensBlock (str "while x") = true /\ opensBlock (str "format x") = false
  /\ closesBlock (str "end") = true /\ closesBlock (str "ending") = false.
Proof. repeat split. Qed.

(** A function outside any block is a top-level node; a constant inside a
    class is top-level too. *)
Example top_level_outline :
  provideDocumentSymbols
    (str "def main" ++ LF :: str "end" ++ LF :: str "class A" ++ LF ::
     str "  const K = 1" ++ LF :: str "end")
  = [Node (str "main") Function
       (mkRange (mkPosition 0 4) (mkPosition 1 3))
       (mkRange (mkPosition 0 4) (mkPosition 0 8)) [];
     Node (str "A") Class
       (mkRange (mkPosition 2 6) (mkPosition 4 3))
       (mkRange (mkPosition 2 6) (mkPosition 2 7)) [];
     Node (str "K") Constant
       (mkRange (mkPosition 3 8) (mkPosition 3 13))
       (mkRange (mkPosition 3 8) (mkPosition 3 13)) []].
Proof. reflexivity. Qed.

Example locate_unanchored :
  locate (str "boom" ++ LF :: LF :: str "  [x:1] bad ")
  = Some [diagnosticAt 0 0 (str "boom"); diagnosticAt 0 0 (str "[x:1] bad")].
Proof. reflexivity. Qed.

(** The bracket form with nothing after it has the empty message, which the
    constructor refuses: the callback ends there with an exception. *)
Example locate_exception :
  diagnose (str "[1:2]") = None
  /\ locate (str "[3:5] x" ++ LF :: str "[1:2]") = None.
Proof. split; reflexivity. Qed.

End Examples.

(** ** Strings *)

Section StringFacts.

Lemma span_app (p : char -> bool) (a b : jsstring) :
  forallb p a = true -> stopsAt p b = true -> span p (a ++ b) = (a, b).
Proof.
  induction a as [|c a IH]; simpl; intros Ha Hb.
  - destruct b as [|c b]; [reflexivity|].
    simpl in *. apply negb_true_iff in Hb. now rewrite Hb.
  - apply andb_true_iff in Ha as [Hc Ha]. rewrite Hc, IH; auto.
Qed.

Lemma span_fst_snd (p : char -> bool) (s : jsstring) :
  span p s = (takeWhile p s, dropWhile p s).
Proof. unfold takeWhile, dropWhile. now destruct (span p s). Qed.

Lemma span_parts (p : char -> bool) (s : jsstring) :
  s = takeWhile p s ++ dropWhile p s
  /\ forallb p (takeWhile p s) = true
  /\ stopsAt p (dropWhile p s) = true.
Proof.
  unfold takeWhile, dropWhile.
  induction s as [|c s IH]; simpl; [auto|].
  destruct (p c) eqn:Hc.
  - destruct (span p s) as [a b]; simpl in *.
    destruct IH as (-> & Ha & Hb). rewrite Hc. auto.
  - simpl. rewrite Hc. auto.
Qed.

Lemma dropWhile_app (p : char -> bool) (a b : jsstring) :
  forallb p a = true -> stopsAt p b = true -> dropWhile p (a ++ b) = b.
Proof. intros. unfold dropWhile. now rewrite span_app. Qed.

Lemma dropWhile_all (p : char -> bool) (s : jsstring) :
  forallb p s = true -> dropWhile p s = [].
Proof.
  intros H. rewrite <- (app_nil_r s). now apply dropWhile_app.
Qed.

Lemma dropWhile_stop (p : char -> bool) (s : jsstring) :
  stopsAt p s = true -> dropWhile p s = s.
Proof. intros H. now apply (dropWhile_app p [] s). Qed.

Lemma dropWhile_nil_all (p : char -> bool) (s : jsstring) :
  dropWhile p s = [] -> forallb p s = true.
Proof.
  intros H. destruct (span_parts p s) as (Hs & Ha & _).
  rewrite H, app_nil_r in Hs. now rewrite Hs.
Qed.

Lemma dropWhile_snoc_stop (p : char -> bool) (a : jsstring) (c : char) :
  p c = false -> dropWhile p (a ++ [c]) <> [].
Proof.
  intros Hc H. apply dropWhile_nil_all in H.
  rewrite forallb_app in H. simpl in H. rewrite Hc in H.
  now rewrite andb_false_r in H.
Qed.

Lemma stripPrefix_app (p s : jsstring) : stripPrefix p (p ++ s) = Some s.
Proof.
  induction p as [|a p IH]; simpl; [reflexivity|].
  now rewrite N.eqb_refl.
Qed.

Lemma stripPrefix_Some (p s r : jsstring) :
  stripPrefix p s = Some r -> s = p ++ r.
Proof.
  revert s. induction p as [|a p IH]; simpl; intros s H.
  - now inversion H.
  - destruct s as [|c s]; [discriminate|].
    destruct (N.eqb_spec c a); [|discriminate]. subst. f_equal. auto.
Qed.

Lemma startsWith_app (p s : jsstring) : startsWith p (p ++ s) = true.
Proof. unfold startsWith. now rewrite stripPrefix_app. Qed.

End StringFacts.

(** ** Blank lines and the lines of a text *)

Section Lines.

(** A line is dropped by the loop exactly when all its characters are
    white space. *)
Lemma isBlank_forallb (l : jsstring) : isBlank l = forallb isWs l.
Proof.
  unfold isBlank, trim.
  destruct (forallb isWs l) eqn:Hall.
  - now rewrite (dropWhile_all _ _ Hall).
  - destruct (span_parts isWs l) as (Hl & Ha & Hstop).
    destruct (dropWhile isWs l) as [|c r] eqn:Hd.
    + rewrite app_nil_r in Hl. rewrite <- Hl in Ha. congruence.
    + simpl in Hstop. apply negb_true_iff in Hstop.
      destruct (rev (dropWhile isWs (rev (c :: r)))) eqn:Hr; [|reflexivity].
      exfalso. apply (f_equal (@rev char)) in Hr.
      rewrite rev_involutive in Hr. simpl in Hr.
      now apply (dropWhile_snoc_stop isWs (rev r) c Hstop).
Qed.

Lemma split_nl_forallb (p : char -> bool) (s : jsstring) :
  forallb p s = true -> Forall (fun l => forallb p l = true) (split_nl s).
Proof.
  induction s as [|c s IH]; simpl; intros H.
  - repeat constructor.
  - apply andb_true_iff in H as [Hc H]. specialize (IH H).
    destruct (c =? 10)%N; [now constructor|].
    destruct IH as [|l ls Hl Hls].
    + repeat constructor. simpl. now rewrite Hc.
    + constructor; [|exact Hls]. simpl. now rewrite Hc, Hl.
Qed.

(** The diagnostics collected before the loop stay in front. *)
Lemma pushDiagnostics_acc (f : jsstring -> option Diagnostic)
    (lines : list jsstring) (acc : list Diagnostic) :
  pushDiagnostics f lines acc
  = (fun ds => acc ++ ds) <$> pushDiagnostics f lines [].
Proof.
  revert acc. induction lines as [|l ls IH]; intros acc; cbn [pushDiagnostics].
  - cbn. now rewrite app_nil_r.
  - destruct (isBlank l); [apply IH|].
    destruct (f l) as [d|]; [|reflexivity].
    rewrite (IH (acc ++ [d])), (IH ([] ++ [d])). cbn [app].
    destruct (pushDiagnostics f ls []) as [ds|]; cbn; [|reflexivity].
    now rewrite <- app_assoc.
Qed.

(** The loop over two runs of lines is the loop over the first, then, if it
    ended without an exception, the loop over the second. *)
Lemma pushDiagnostics_app (f : jsstring -> option Diagnostic)
    (a b : list jsstring) (acc : list Diagnostic) :
  pushDiagnostics f (a ++ b) acc
  = match pushDiagnostics f a acc with
    | Some ds => pushDiagnostics f b ds
    | None => None
    end.
Proof.
  revert acc. induction a as [|l a IH]; intros acc; cbn [app pushDiagnostics];
    [reflexivity|].
  destruct (isBlank l); [apply IH|].
  destruct (f l) as [d|]; [apply IH|reflexivity].
Qed.

(** The loop around a line that is not blank and whose diagnostic is
    constructed, when the lines before and after it raise no exception. *)
Lemma pushDiagnostics_lines (f : jsstring -> option Diagnostic)
    (before after : list jsstring) (errLine : jsstring)
    (ds1 ds2 : list Diagnostic) (d : Diagnostic) :
  nonBlank errLine = true -> f errLine = Some d ->
  pushDiagnostics f before [] = Some ds1 ->
  pushDiagnostics f after [] = Some ds2 ->
  pushDiagnostics f (before ++ errLine :: after) [] = Some (ds1 ++ d :: ds2).
Proof.
  intros Hnb Hd H1 H2. rewrite pushDiagnostics_app, H1.
  cbn [pushDiagnostics]. unfold nonBlank in Hnb.
  apply negb_true_iff in Hnb. rewrite Hnb, Hd.
  rewrite pushDiagnostics_acc, H2. cbn. now rewrite <- app_assoc.
Qed.

(** The loop around a line that is not blank and whose diagnostic the
    constructor refuses. *)
Lemma pushDiagnostics_exception (f : jsstring -> option Diagnostic)
    (before after : list jsstring) (errLine : jsstring) :
  nonBlank errLine = true -> f errLine = None ->
  pushDiagnostics f (before ++ errLine :: after) [] = None.
Proof.
  intros Hnb Hd. rewrite pushDiagnostics_app.
  destruct (pushDiagnostics f before []) as [ds|]; [|reflexivity].
  cbn [pushDiagnostics]. unfold nonBlank in Hnb.
  apply negb_true_iff in Hnb. now rewrite Hnb, Hd.
Qed.

(** Where the diagnostics of the loop come from. *)
Lemma pushDiagnostics_In (f : jsstring -> option Diagnostic)
    (lines : list jsstring) :
  forall (acc ds : list Diagnostic) (d : Diagnostic),
    pushDiagnostics f lines acc = Some ds -> In d ds ->
    In d acc
    \/ exists l, In l lines /\ nonBlank l = true /\ f l = Some d.
Proof.
  induction lines as [|l ls IH]; intros acc ds d H Hd; cbn [pushDiagnostics] in H.
  - inversion H; subst. now left.
  - destruct (isBlank l) eqn:Hb.
    + destruct (IH acc ds d H Hd) as [Ha|(l' & Hl' & Hn & Hf)]; [now left|].
      right. exists l'. split; [now right|now split].
    + destruct (f l) as [d0|] eqn:Hf0; [|discriminate].
      destruct (IH _ ds d H Hd) as [Ha|(l' & Hl' & Hn & Hf)].
      * apply in_app_or in Ha as [Ha|[<-|[]]]; [now left|].
        right. exists l. split; [now left|]. split; [|exact Hf0].
        unfold nonBlank. now rewrite Hb.
      * right. exists l'. split; [now right|now split].
Qed.

(** The guard on the empty text changes nothing: its one line is blank. *)
Lemma locate_parse (text : jsstring) :
  locate text = pushDiagnostics diagnose (split_nl text) [].
Proof. now destruct text. Qed.

Lemma locateOnSave_parse (text : jsstring) :
  locateOnSave text = pushDiagnostics diagnoseOnSave (split_nl text) [].
Proof. now destruct text. Qed.

End Lines.

(** ** Character classes *)

(** Turns the tests of the character classes into arithmetic on the code
    units and lets [lia] decide. *)
Ltac char_classes :=
  unfold isAlphaUnderscore, isUpperUnderscore, isWord, isWs, isLineTerminator,
    notLineTerminator, isDigit, isUpper, isLower, eqCaseInsensitive, stopsAt,
    wordBoundary, LF in *;
  cbn [code N_of_ascii N_of_digits N.add N.mul Pos.add Pos.mul Pos.succ] in *;
  rewrite ?negb_true_iff, ?negb_false_iff in *;
  rewrite ?orb_true_iff, ?andb_true_iff, ?orb_false_iff, ?andb_false_iff,
    ?N.eqb_eq, ?N.eqb_neq, ?N.leb_le, ?N.leb_gt in *;
  lia.

Section CharClasses.

Lemma isDigit_not_ws c : isDigit c = true -> isWs c = false.
Proof. intros H. char_classes. Qed.

Lemma isWs_not_word c : isWs c = true -> isWord c = false.
Proof. intros H. char_classes. Qed.

End CharClasses.

(** ** Diagnostics: what every diagnostic satisfies *)

Section DiagnosticsShape.

Lemma zeroBased_nonneg (digits : jsstring) : 0 <= zeroBased digits.
Proof. unfold zeroBased. lia. Qed.

Lemma newRange_same_line (l c1 c2 : Z) :
  line (rstart (newRange (mkPosition l c1) (mkPosition l c2))) = l.
Proof. unfold newRange. now destruct (isBefore _ _). Qed.

Lemma newRange_start_character (l c1 c2 : Z) :
  character (rstart (newRange (mkPosition l c1) (mkPosition l c2))) = Z.min c1 c2.
Proof.
  unfold newRange, isBefore. simpl.
  rewrite Z.ltb_irrefl, Z.eqb_refl. simpl.
  destruct (Z.ltb_spec c1 c2); simpl; lia.
Qed.

Lemma MAX_SAFE_INTEGER_pos : 0 < MAX_SAFE_INTEGER.
Proof. reflexivity. Qed.

Lemma newDiagnostic_Some (r : Range) (msg : jsstring)
    (sev : DiagnosticSeverity) (d : Diagnostic) :
  newDiagnostic r msg sev = Some d -> d = mkDiagnostic r msg sev /\ msg <> [].
Proof.
  destruct msg as [|c msg]; [discriminate|]. intros H. now inversion H.
Qed.

Lemma newDiagnostic_message (r : Range) (msg : jsstring)
    (sev : DiagnosticSeverity) :
  msg <> [] -> newDiagnostic r msg sev = Some (mkDiagnostic r msg sev).
Proof. now destruct msg. Qed.

Lemma trim_nonBlank (l : jsstring) : nonBlank l = true -> trim l <> [].
Proof. unfold nonBlank, isBlank. now destruct (trim l). Qed.

Lemma diagnose_line_column (errLine : jsstring) (d : Diagnostic) :
  diagnose errLine = Some d ->
  0 <= dline d /\ 0 <= dcolumn d /\ severity d = Error.
Proof.
  unfold diagnose, dline, dcolumn.
  pose proof MAX_SAFE_INTEGER_pos as HM.
  destruct (bracketMatch errLine) as [[[d1 d2] m]|];
    [|destruct (lineMatch errLine) as [n|]];
    intros H; apply newDiagnostic_Some in H as [-> _];
    cbn [drange severity];
    rewrite newRange_same_line, newRange_start_character;
    repeat split; try apply zeroBased_nonneg; try lia.
  pose proof (zeroBased_nonneg d2). lia.
Qed.

Lemma diagnose_unanchored (errLine : jsstring) (d : Diagnostic) :
  bracketMatch errLine = None -> lineMatch errLine = None ->
  diagnose errLine = Some d ->
  d = mkDiagnostic (mkRange (mkPosition 0 0) (mkPosition 0 MAX_SAFE_INTEGER))
        (trim errLine) Error.
Proof.
  intros Hb Hl. unfold diagnose. rewrite Hb, Hl. intros H.
  now apply newDiagnostic_Some in H as [-> _].
Qed.

(** C5. Every diagnostic that [locate] produces has a line and a column that
    are not negative and the severity Error; it comes from a line of the
    text, and when neither form gives a position for that line, its line and
    column are 0. *)
Theorem locate_diagnostic_invariants (text : jsstring)
    (ds : list Diagnostic) (d : Diagnostic) :
  locate text = Some ds -> In d ds ->
  0 <= dline d /\ 0 <= dcolumn d /\ severity d = Error
  /\ exists errLine : jsstring,
       In errLine (split_nl text) /\ nonBlank errLine = true
       /\ diagnose errLine = Some d
       /\ (bracketMatch errLine = None -> lineMatch errLine = None ->
           dline d = 0 /\ dcolumn d = 0).
Proof.
  rewrite locate_parse. intros Hds Hd.
  destruct (pushDiagnostics_In _ _ _ _ _ Hds Hd)
    as [[]|(errLine & Hin & Hnb & Hdg)].
  destruct (diagnose_line_column errLine d Hdg) as (Hl & Hc & Hs).
  repeat split; auto.
  exists errLine. repeat split; auto;
    rewrite (diagnose_unanchored errLine d) by assumption; reflexivity.
Qed.

Lemma locate_diagnostic_invariants_witness :
  let d := mkDiagnostic
             (mkRange (mkPosition 0 0) (mkPosition 0 MAX_SAFE_INTEGER))
             (str "boom") Error in
  locate (str " boom ") = Some [d] /\ 0 <= dline d /\ 0 <= dcolumn d.
Proof.
  intros d.
  assert (Hds : locate (str " boom ") = Some [d]) by reflexivity.
  destruct (locate_diagnostic_invariants (str " boom ") [d] d Hds
              (or_introl eq_refl)) as (Hl & Hc & _).
  exact (conj Hds (conj Hl Hc)).
Defined.

End DiagnosticsShape.

(** ** Diagnostics: the bracketed form *)

Section BracketForm.

Lemma isDigits_forallb d : isDigits d = true -> forallb isDigit d = true.
Proof. now destruct d. Qed.

Lemma matchBracketAt_bracket (d1 d2 rest : jsstring) :
  isDigits d1 = true -> isDigits d2 = true ->
  matchBracketAt (bracketLine [] d1 d2 rest)
  = Some (d1, d2, takeWhile notLineTerminator (dropWhile isWs rest)).
Proof.
  intros H1 H2.
  pose proof (isDigits_forallb d1 H1) as F1.
  pose proof (isDigits_forallb d2 H2) as F2.
  unfold bracketLine, matchBracketAt. cbn [app].
  rewrite N.eqb_refl, (span_app isDigit d1) by (auto; reflexivity).
  destruct d1 as [|a1 r1]; [discriminate|].
  cbv iota beta. rewrite N.eqb_refl.
  rewrite (span_app isDigit d2) by (auto; reflexivity).
  destruct d2 as [|a2 r2]; [discriminate|].
  cbv iota beta. now rewrite N.eqb_refl.
Qed.

Lemma matchBracketAt_ws (c : char) (s : jsstring) :
  isWs c = true -> matchBracketAt (c :: s) = None.
Proof.
  intros H. unfold matchBracketAt.
  destruct (N.eqb_spec c (code "[")) as [->|]; [discriminate|reflexivity].
Qed.

Lemma bracketMatch_skip_ws (ws s : jsstring) :
  forallb isWs ws = true -> bracketMatch (ws ++ s) = bracketMatch s.
Proof.
  induction ws as [|c ws IH]; [reflexivity|]. intros H.
  apply andb_true_iff in H as [Hc H].
  cbn [app bracketMatch]. rewrite (matchBracketAt_ws c _ Hc). auto.
Qed.

Lemma bracketMatch_bracketLine (ws d1 d2 rest : jsstring) :
  forallb isWs ws = true -> isDigits d1 = true -> isDigits d2 = true ->
  bracketMatch (bracketLine ws d1 d2 rest)
  = Some (d1, d2, takeWhile notLineTerminator (dropWhile isWs rest)).
Proof.
  intros Hws H1 H2. unfold bracketLine.
  rewrite bracketMatch_skip_ws by assumption.
  pose proof (matchBracketAt_bracket d1 d2 rest H1 H2) as Hm.
  unfold bracketLine in Hm. cbn [app] in Hm.
  unfold bracketMatch. destruct d1; now rewrite Hm.
Qed.

Lemma nonBlank_has_char (a : jsstring) (c : char) (b : jsstring) :
  isWs c = false -> nonBlank (a ++ c :: b) = true.
Proof.
  intros H. unfold nonBlank. rewrite isBlank_forallb, forallb_app.
  simpl. rewrite H. now rewrite andb_false_r.
Qed.

Lemma newRange_to_end_of_line (l c : Z) :
  c <= MAX_SAFE_INTEGER ->
  newRange (mkPosition l c) (mkPosition l MAX_SAFE_INTEGER)
  = mkRange (mkPosition l c) (mkPosition l MAX_SAFE_INTEGER).
Proof.
  intros H. unfold newRange, isBefore. simpl.
  rewrite Z.ltb_irrefl, Z.eqb_refl. simpl.
  destruct (Z.ltb_spec c MAX_SAFE_INTEGER); [reflexivity|].
  now replace c with MAX_SAFE_INTEGER by lia.
Qed.

Lemma zeroBased_safe (d : jsstring) :
  parseInt d <= 2 ^ 53 -> zeroBased d <= MAX_SAFE_INTEGER.
Proof. unfold zeroBased, MAX_SAFE_INTEGER. lia. Qed.

Lemma message_after_bracket (rest : jsstring) :
  forallb isWs rest = false ->
  takeWhile notLineTerminator (dropWhile isWs rest) <> [].
Proof.
  intros H.
  destruct (dropWhile isWs rest) as [|c r] eqn:E.
  - apply dropWhile_nil_all in E. congruence.
  - destruct (span_parts isWs rest) as (_ & _ & Hc). rewrite E in Hc.
    cbn [stopsAt] in Hc. unfold takeWhile. cbn [span].
    assert (Hn : notLineTerminator c = true) by (clear - Hc; unfold notLineTerminator; char_classes).
    rewrite Hn. now destruct (span notLineTerminator r).
Qed.

(** C2, as the code has it. A line of the error text whose prefix, after
    optional white space, is "[<digits>:<digits>]", followed by a message
    (something other than white space), gives one diagnostic, between those
    of the lines before and after it when these raise no exception: its line
    is the first number minus 1 and its column the second number minus 1,
    each floored at 0, and its message is the text after the bracket without
    its leading white space, up to the first line terminator character if
    there is one. Both variants of the handler agree on it. The numbers are
    taken up to 2^53, where a JavaScript Number is exact. *)
Theorem bracket_form_diagnostic (text : jsstring)
    (before after : list jsstring) (ws d1 d2 rest : jsstring) :
  split_nl text = before ++ bracketLine ws d1 d2 rest :: after ->
  forallb isWs ws = true -> isDigits d1 = true -> isDigits d2 = true ->
  parseInt d1 <= 2 ^ 53 -> parseInt d2 <= 2 ^ 53 ->
  forallb isWs rest = false ->
  let dg := diagnosticAt (Z.max 0 (parseInt d1 - 1)) (Z.max 0 (parseInt d2 - 1))
              (takeWhile notLineTerminator (dropWhile isWs rest)) in
  (forall found1 found2 : list Diagnostic,
      pushDiagnostics diagnose before [] = Some found1 ->
      pushDiagnostics diagnose after [] = Some found2 ->
      locate text = Some (found1 ++ dg :: found2))
  /\ (forall found1 found2 : list Diagnostic,
         pushDiagnostics diagnoseOnSave before [] = Some found1 ->
         pushDiagnostics diagnoseOnSave after [] = Some found2 ->
         locateOnSave text = Some (found1 ++ dg :: found2)).
Proof.
  intros Hs Hws H1 H2 B1 B2 Hmsg dg.
  assert (Hnb : nonBlank (bracketLine ws d1 d2 rest) = true)
    by (apply nonBlank_has_char; reflexivity).
  pose proof (bracketMatch_bracketLine ws d1 d2 rest Hws H1 H2) as Hm.
  pose proof (message_after_bracket rest Hmsg) as Hne.
  assert (Hd : diagnose (bracketLine ws d1 d2 rest) = Some dg).
  { unfold diagnose. rewrite Hm.
    rewrite newRange_to_end_of_line by now apply zeroBased_safe.
    now apply newDiagnostic_message. }
  assert (Hd' : diagnoseOnSave (bracketLine ws d1 d2 rest) = Some dg).
  { unfold diagnoseOnSave. rewrite Hm.
    rewrite newRange_to_end_of_line by now apply zeroBased_safe.
    now apply newDiagnostic_message. }
  split; intros found1 found2 F1 F2.
  - rewrite locate_parse, Hs. now apply pushDiagnostics_lines.
  - rewrite locateOnSave_parse, Hs. now apply pushDiagnostics_lines.
Qed.

Lemma bracket_form_diagnostic_witness :
  locate (str "[3:5] unexpected token")
  = Some [diagnosticAt 2 4 (str "unexpected token")]
  /\ locateOnSave (str "[3:5] unexpected token")
     = Some [diagnosticAt 2 4 (str "unexpected token")].
Proof.
  destruct (bracket_form_diagnostic (str "[3:5] unexpected token") [] []
              [] (str "3") (str "5") (str " unexpected token"))
    as [Hrun Hsave];
    try solve [reflexivity | vm_compute; discriminate].
  split; [apply (Hrun [] [])|apply (Hsave [] [])]; reflexivity.
Defined.

(** C2 as stated fails: the message of "[1:1] a<CR>b" is "a", not the whole
    remainder after the bracket; and the line "[3:5] x" gets no diagnostic
    when a later line of the text is "[1:2]", for which the constructor
    throws. *)
Lemma bracket_form_counterexample :
  (locate (str "[1:1] a" ++ 13%N :: str "b") = Some [diagnosticAt 0 0 (str "a")]
   /\ str "a" <> str "a" ++ 13%N :: str "b")
  /\ (split_nl (str "[3:5] x" ++ LF :: str "[1:2]")
      = [bracketLine [] (str "3") (str "5") (str " x"); str "[1:2]"]
      /\ locate (str "[3:5] x" ++ LF :: str "[1:2]") = None).
Proof. repeat split; try reflexivity; vm_compute; discriminate. Qed.

(** C4 fails on the code where the bracket form has nothing but white space
    after it: the message is then empty, the constructor of the diagnostic
    throws, and the callback ends without any diagnostic, also for the
    other lines of the text. *)
Theorem locate_empty_message_throws (text : jsstring)
    (before after : list jsstring) (ws d1 d2 rest : jsstring) :
  split_nl text = before ++ bracketLine ws d1 d2 rest :: after ->
  forallb isWs ws = true -> isDigits d1 = true -> isDigits d2 = true ->
  forallb isWs rest = true ->
  locate text = None /\ locateOnSave text = None.
Proof.
  intros Hs Hws H1 H2 Hrest.
  assert (Hnb : nonBlank (bracketLine ws d1 d2 rest) = true)
    by (apply nonBlank_has_char; reflexivity).
  pose proof (bracketMatch_bracketLine ws d1 d2 rest Hws H1 H2) as Hm.
  rewrite (dropWhile_all _ _ Hrest) in Hm.
  rewrite locate_parse, locateOnSave_parse, Hs.
  split; apply pushDiagnostics_exception; auto.
  - unfold diagnose. now rewrite Hm.
  - unfold diagnoseOnSave. now rewrite Hm.
Qed.

Lemma locate_empty_message_throws_witness :
  List.filter nonBlank (split_nl (str "[1:2]" ++ LF :: str "boom"))
  = [str "[1:2]"; str "boom"]
  /\ locate (str "[1:2]" ++ LF :: str "boom") = None
  /\ locateOnSave (str "[1:2]" ++ LF :: str "boom") = None.
Proof.
  split; [reflexivity|].
  apply (locate_empty_message_throws (str "[1:2]" ++ LF :: str "boom")
           [] [str "boom"] [] (str "1") (str "2") []); reflexivity.
Defined.

End BracketForm.

(** ** Diagnostics: the prose form *)

Section ProseForm.

Lemma matchLineAt_prose (kw ws ds post : jsstring) :
  isLineWord kw = true -> ws <> [] -> forallb isWs ws = true ->
  isDigits ds = true -> stopsAt isDigit post = true ->
  matchLineAt (kw ++ ws ++ ds ++ post) = Some ds.
Proof.
  intros Hkw Hne Hws Hds Hpost.
  destruct kw as [|c1 [|c2 [|c3 [|c4 [|c5 kw]]]]]; try discriminate.
  unfold isLineWord in Hkw. cbn [app matchLineAt]. rewrite Hkw.
  pose proof (isDigits_forallb ds Hds) as Fds.
  rewrite (span_app isWs ws).
  - destruct ws as [|w ws']; [congruence|]. cbv iota beta.
    rewrite (span_app isDigit ds) by assumption.
    destruct ds; [discriminate|reflexivity].
  - assumption.
  - destruct ds as [|d ds']; [discriminate|]. simpl.
    apply andb_true_iff in Fds as [Hd _].
    now rewrite (isDigit_not_ws d Hd).
Qed.

Lemma lineMatch_skip (pre s : jsstring) :
  noLineMatchIn (length pre) (pre ++ s) = true ->
  lineMatch (pre ++ s) = lineMatch s.
Proof.
  induction pre as [|c pre IH]; [reflexivity|].
  cbn [length app noLineMatchIn lineMatch].
  destruct (matchLineAt (c :: pre ++ s)); [discriminate|]. exact IH.
Qed.

Lemma lineMatch_head (s : jsstring) (d : jsstring) :
  matchLineAt s = Some d -> lineMatch s = Some d.
Proof.
  intros H. destruct s as [|c s]; [discriminate|].
  cbn [lineMatch]. now rewrite H.
Qed.

(** C3, as the code has it. A line of the error text in which the bracket
    form is found nowhere and whose leftmost "line", in either case,
    followed by white space and digits, is followed by the number N (all the
    digits there), gives one diagnostic, between those of the lines before
    and after it when these raise no exception: its line is N minus 1
    floored at 0, its column is 0 and its message is the whole trimmed line.
    N is taken up to 2^53, where a JavaScript Number is exact. *)
Theorem prose_form_diagnostic (text : jsstring)
    (before after : list jsstring) (pre kw ws ds post : jsstring)
    (found1 found2 : list Diagnostic) :
  split_nl text = before ++ (pre ++ kw ++ ws ++ ds ++ post) :: after ->
  bracketMatch (pre ++ kw ++ ws ++ ds ++ post) = None ->
  noLineMatchIn (length pre) (pre ++ kw ++ ws ++ ds ++ post) = true ->
  isLineWord kw = true -> ws <> [] -> forallb isWs ws = true ->
  isDigits ds = true -> stopsAt isDigit post = true ->
  parseInt ds <= 2 ^ 53 ->
  pushDiagnostics diagnose before [] = Some found1 ->
  pushDiagnostics diagnose after [] = Some found2 ->
  locate text
  = Some (found1
          ++ diagnosticAt (Z.max 0 (parseInt ds - 1)) 0
               (trim (pre ++ kw ++ ws ++ ds ++ post))
             :: found2).
Proof.
  intros Hs Hb Hpre Hkw Hne Hws Hds Hpost Hexact F1 F2.
  assert (Hnb : nonBlank (pre ++ kw ++ ws ++ ds ++ post) = true).
  { destruct ds as [|d ds']; [discriminate|].
    rewrite !app_assoc, <- app_assoc. cbn [app].
    apply nonBlank_has_char, isDigit_not_ws.
    apply isDigits_forallb in Hds. now apply andb_true_iff in Hds as [Hd _]. }
  rewrite locate_parse, Hs. apply pushDiagnostics_lines; auto.
  unfold diagnose. rewrite Hb, (lineMatch_skip pre _ Hpre).
  rewrite (lineMatch_head _ ds) by now apply matchLineAt_prose.
  rewrite newRange_to_end_of_line by (unfold MAX_SAFE_INTEGER, zeroBased; lia).
  apply newDiagnostic_message. now apply trim_nonBlank.
Qed.

Lemma prose_form_diagnostic_witness :
  locate (str "Error: boom at line 10")
  = Some [diagnosticAt 9 0 (str "Error: boom at line 10")].
Proof.
  apply (prose_form_diagnostic (str "Error: boom at line 10") [] []
           (str "Error: boom at ") (str "line") (str " ") (str "10") [] [] []);
    solve [reflexivity | vm_compute; discriminate | discriminate].
Defined.

(** C3 as stated fails: in "see line 3 or line 7", which contains "line 7",
    the line is 2; and the line "at line 5" gets no diagnostic when an
    earlier line of the text is "[1:2]", for which the constructor throws. *)
Lemma prose_form_counterexample :
  (bracketMatch (str "see line 3 or line 7") = None
   /\ str "see line 3 or line 7"
      = str "see line 3 or " ++ str "line" ++ str " " ++ str "7"
   /\ locate (str "see line 3 or line 7")
      = Some [diagnosticAt 2 0 (str "see line 3 or line 7")]
   /\ 2 <> parseInt (str "7") - 1)
  /\ (split_nl (str "[1:2]" ++ LF :: str "at line 5")
      = [str "[1:2]"; str "at line 5"]
      /\ bracketMatch (str "at line 5") = None
      /\ locate (str "[1:2]" ++ LF :: str "at line 5") = None).
Proof. repeat split; try reflexivity; vm_compute; discriminate. Qed.

End ProseForm.

(** ** Trimming *)

Section Trim.

Lemma trim_trimEnd (s : jsstring) : trim s = trimEnd (dropWhile isWs s).
Proof. reflexivity. Qed.

Lemma dropWhile_app_keep (p : char -> bool) (a b : jsstring) :
  dropWhile p a <> [] -> dropWhile p (a ++ b) = dropWhile p a ++ b.
Proof.
  unfold dropWhile. induction a as [|c a IH]; simpl; [congruence|].
  destruct (p c); [|reflexivity].
  destruct (span p a) as [x y], (span p (a ++ b)) as [x' y']. simpl in *. auto.
Qed.

Lemma trimEnd_cons (c : char) (s : jsstring) :
  trimEnd (c :: s)
  = match trimEnd s with
    | [] => if isWs c then [] else [c]
    | t => c :: t
    end.
Proof.
  unfold trimEnd. cbn [rev].
  destruct (dropWhile isWs (rev s)) as [|x y] eqn:Hd.
  - apply dropWhile_nil_all in Hd. cbn [rev].
    destruct (isWs c) eqn:Hc.
    + rewrite dropWhile_all; [reflexivity|].
      rewrite forallb_app, Hd. simpl. now rewrite Hc.
    + rewrite dropWhile_app; [reflexivity|assumption|]. simpl. now rewrite Hc.
  - rewrite dropWhile_app_keep by congruence. rewrite Hd, rev_app_distr.
    cbn [rev app]. destruct (rev y ++ [x]) eqn:Hr; [|reflexivity].
    now destruct (rev y).
Qed.

(** Trimming the end keeps a prefix that has no white space. *)
Lemma trimEnd_app_solid (a b : jsstring) :
  forallb (fun c => negb (isWs c)) a = true ->
  trimEnd (a ++ b) = a ++ trimEnd b.
Proof.
  induction a as [|c a IH]; [reflexivity|]. intros H.
  apply andb_true_iff in H as [Hc H]. apply negb_true_iff in Hc.
  cbn [app]. rewrite trimEnd_cons, IH by assumption.
  destruct (a ++ trimEnd b) eqn:E; [|reflexivity]. now rewrite Hc.
Qed.

Lemma trimEnd_prefix (s : jsstring) : exists tail, s = trimEnd s ++ tail.
Proof.
  induction s as [|c s [tail IH]]; [now exists []|].
  rewrite trimEnd_cons. destruct (trimEnd s) as [|x t].
  - destruct (isWs c); [now exists (c :: s)|]. exists s. reflexivity.
  - exists tail. simpl in *. congruence.
Qed.

Lemma trimEnd_stopsAt (p : char -> bool) (s : jsstring) :
  stopsAt p s = true -> stopsAt p (trimEnd s) = true.
Proof.
  destruct s as [|c s]; [reflexivity|]. intros H.
  rewrite trimEnd_cons. destruct (trimEnd s); [|exact H].
  destruct (isWs c); [reflexivity|exact H].
Qed.

Lemma dropWhile_stopsAt (p : char -> bool) (s : jsstring) :
  stopsAt p (dropWhile p s) = true.
Proof. apply span_parts. Qed.

(** A trimmed line has no leading white space. *)
Lemma dropWhile_trim (s : jsstring) : dropWhile isWs (trim s) = trim s.
Proof.
  apply dropWhile_stop. rewrite trim_trimEnd.
  apply trimEnd_stopsAt, dropWhile_stopsAt.
Qed.

(** What the line begins with after its indentation is what its trimmed
    text begins with, when that has no white space inside. *)
Lemma trim_solid_prefix (line kw rest : jsstring) :
  forallb (fun c => negb (isWs c)) kw = true ->
  dropWhile isWs line = kw ++ rest ->
  trim line = kw ++ trimEnd rest.
Proof.
  intros Hkw E. rewrite trim_trimEnd, E. now apply trimEnd_app_solid.
Qed.

Lemma trim_begins (line p rest : jsstring) :
  stripPrefix p (trim line) = Some rest ->
  exists tail, dropWhile isWs line = p ++ rest ++ tail.
Proof.
  intros H. apply stripPrefix_Some in H.
  destruct (trimEnd_prefix (dropWhile isWs line)) as [tail Ht].
  exists tail. rewrite Ht, <- trim_trimEnd, H. now rewrite <- app_assoc.
Qed.

End Trim.

(** ** Keywords at the head of a line *)

Section Keywords.

Lemma wordBoundary_trimEnd (rest : jsstring) :
  wordBoundary rest = true -> wordBoundary (trimEnd rest) = true.
Proof. exact (trimEnd_stopsAt isWord rest). Qed.

Lemma matchKeywords_begins (kws : list jsstring) (kw line rest : jsstring) :
  In kw kws -> solid kw = true -> dropWhile isWs line = kw ++ rest ->
  wordBoundary rest = true -> matchKeywords kws (trim line) = true.
Proof.
  intros Hin Hkw E Hb. unfold matchKeywords. apply existsb_exists.
  exists kw. split; [exact Hin|].
  rewrite dropWhile_trim, (trim_solid_prefix line kw rest Hkw E), stripPrefix_app.
  now apply wordBoundary_trimEnd.
Qed.

Lemma matchKeywords_inv (kws : list jsstring) (t : jsstring) :
  matchKeywords kws t = true ->
  exists kw rest, In kw kws /\ dropWhile isWs t = kw ++ rest
                  /\ wordBoundary rest = true.
Proof.
  unfold matchKeywords. intros H. apply existsb_exists in H as (kw & Hin & H).
  destruct (stripPrefix kw (dropWhile isWs t)) as [rest|] eqn:E; [|discriminate].
  exists kw, rest. repeat split; auto. now apply stripPrefix_Some.
Qed.

Lemma blockOpeners_solid (kw : jsstring) : In kw blockOpeners -> solid kw = true.
Proof.
  intros H. simpl in H.
  repeat (destruct H as [<-|H]; [reflexivity|]). contradiction.
Qed.

(** A line cannot both open and close: it begins with one word. *)
Lemma opens_not_closes (t : jsstring) :
  opensBlock t = true -> closesBlock t = false.
Proof.
  intros H. apply matchKeywords_inv in H as (kw & rest & Hin & E & _).
  unfold closesBlock, matchKeywords. cbn [existsb]. rewrite E.
  simpl in Hin.
  repeat (destruct Hin as [<-|Hin]; [reflexivity|]). contradiction.
Qed.

Lemma closes_not_opens (t : jsstring) :
  closesBlock t = true -> opensBlock t = false.
Proof.
  intros H. destruct (opensBlock t) eqn:E; [|reflexivity].
  apply opens_not_closes in E. congruence.
Qed.

(** What a successful match of a defining pattern says about the line. *)
Lemma matchKeywordIdent_inv (kw : jsstring) (first : char -> bool)
    (line nm rest : jsstring) :
  matchKeywordIdent kw first line = Some (nm, rest) ->
  exists ws c w,
    dropWhile isWs line = kw ++ ws ++ (c :: w) ++ rest
    /\ ws <> [] /\ forallb isWs ws = true /\ first c = true
    /\ nm = c :: w /\ forallb isWord w = true /\ stopsAt isWord rest = true.
Proof.
  unfold matchKeywordIdent. intros H.
  destruct (stripPrefix kw (dropWhile isWs line)) as [s|] eqn:Es; [|discriminate].
  apply stripPrefix_Some in Es.
  destruct (span_parts isWs s) as (Hs & Hws & _).
  rewrite (span_fst_snd isWs s) in H.
  destruct (takeWhile isWs s) as [|w0 ws] eqn:Ew; [discriminate|].
  destruct (dropWhile isWs s) as [|c r] eqn:Er; [discriminate|].
  destruct (first c) eqn:Hc; [|discriminate].
  destruct (span_parts isWord r) as (Hr & Hw & Hstop).
  rewrite (span_fst_snd isWord r) in H. inversion H; subst nm rest.
  exists (w0 :: ws), c, (takeWhile isWord r).
  split; [|repeat split; auto; discriminate].
  rewrite Es, Hs. do 2 f_equal. cbn [app]. now rewrite <- Hr.
Qed.

Lemma matchKeywordIdent_opens (kw : jsstring) (first : char -> bool)
    (line : jsstring) (m : jsstring * jsstring) :
  In kw blockOpeners -> matchKeywordIdent kw first line = Some m ->
  opensBlock (trim line) = true.
Proof.
  intros Hin H. destruct m as [nm rest].
  apply matchKeywordIdent_inv in H as (ws & c & w & E & Hne & Hws & _).
  apply (matchKeywords_begins _ kw line _ Hin (blockOpeners_solid kw Hin) E).
  destruct ws as [|w0 ws]; [congruence|]. cbn [app wordBoundary].
  apply andb_true_iff in Hws as [H0 _]. now rewrite (isWs_not_word w0 H0).
Qed.

Lemma firstMatch_cases (line : jsstring) (k : SymbolKind) (nm : jsstring) :
  firstMatch patterns line = Some (k, nm) ->
  (k = Function /\ reDef line = Some nm)
  \/ (k = Class /\ reClass line = Some nm)
  \/ (k = Struct /\ reStruct line = Some nm)
  \/ (k = Enum /\ reEnum line = Some nm)
  \/ (k = Constant /\ reConst line = Some nm).
Proof.
  unfold patterns, firstMatch. intros H.
  destruct (reDef line); [inversion H; auto|].
  destruct (reClass line); [inversion H; auto|].
  destruct (reStruct line); [inversion H; auto 6|].
  destruct (reEnum line); [inversion H; auto 6|].
  destruct (reConst line); [inversion H; auto 6|discriminate].
Qed.

(** A line that defines a symbol of a kind that pushes a frame is counted
    as opening a block. *)
Lemma firstMatch_opens (line : jsstring) (k : SymbolKind) (nm : jsstring) :
  firstMatch patterns line = Some (k, nm) -> pushesFrame k = true ->
  opensBlock (trim line) = true.
Proof.
  intros H Hk.
  destruct (firstMatch_cases line k nm H)
    as [[-> E]|[[-> E]|[[-> E]|[[-> E]|[-> E]]]]]; try discriminate;
    unfold reDef, reClass, reStruct, reEnum in E;
    match type of E with
    | fst <$> matchKeywordIdent ?kw ?f line = _ =>
        destruct (matchKeywordIdent kw f line) as [m|] eqn:Em; [|discriminate];
        apply (matchKeywordIdent_opens kw f line m); [|exact Em]
    end; simpl; auto 12.
Qed.

(** A line that closes a block defines no symbol. *)
Lemma closes_defines_nothing (line : jsstring) :
  closesBlock (trim line) = true -> firstMatch patterns line = None.
Proof.
  intros H. apply matchKeywords_inv in H as (kw & rest & Hin & E & _).
  destruct Hin as [<-|[]]. rewrite dropWhile_trim in E.
  assert (Hs : stripPrefix (str "end") (trim line) = Some rest)
    by (rewrite E; apply stripPrefix_app).
  apply trim_begins in Hs as [tail Ht].
  unfold firstMatch, patterns, reDef, reClass, reStruct, reEnum, reConst,
    matchKeywordIdent.
  rewrite Ht. reflexivity.
Qed.

End Keywords.

(** ** The scan, line by line *)

Section ScanLine.

Lemma depth_defineSymbol (i : Z) (line : jsstring) (st : ScanState) :
  depth (defineSymbol i line st) = depth st.
Proof.
  unfold defineSymbol. destruct (firstMatch patterns line) as [[k nm]|];
    [|reflexivity].
  destruct (blockStack st), (isFunctionOrEnum k), (pushesFrame k); reflexivity.
Qed.

(** The change of [depth] over one line. *)
Lemma depth_scanLine (i : Z) (line : jsstring) (st : ScanState) :
  depth (scanLine i line st)
  = depth st + (if opensBlock (trim line) then 1 else 0)
    - (if closesBlock (trim line) then 1 else 0).
Proof.
  unfold scanLine, trackClose, trackOpen.
  pose proof (depth_defineSymbol i line st) as Hd.
  destruct (opensBlock (trim line)), (closesBlock (trim line)); cbn;
    try destruct (blockStack (defineSymbol i line st)) as [|top rest]; cbn;
    try destruct (_ <=? fdepth top); cbn; lia.
Qed.

Lemma blockOpeners_head (kw rest : jsstring) :
  In kw blockOpeners -> stopsAt isWs (kw ++ rest) = true.
Proof.
  intros H. simpl in H.
  repeat (destruct H as [<-|H]; [reflexivity|]). contradiction.
Qed.

(** A line that defines a symbol of a kind that pushes a frame: the symbol
    is defined and the depth goes up by one. *)
Lemma scanLine_define (i : Z) (line : jsstring) (st : ScanState)
    (k : SymbolKind) (nm : jsstring) :
  firstMatch patterns line = Some (k, nm) -> pushesFrame k = true ->
  scanLine i line st
  = let st1 := defineSymbol i line st in
    mkScanState (store st1) (symbols st1) (blockStack st1) (depth st1 + 1).
Proof.
  intros H Hk. pose proof (firstMatch_opens line k nm H Hk) as Ho.
  unfold scanLine, trackClose, trackOpen.
  now rewrite Ho, (opens_not_closes _ Ho).
Qed.

(** A line that closes a block: nothing is defined, the depth goes down by
    one and the top frame is resolved when the depth is back at its level. *)
Lemma scanLine_end (i : Z) (line : jsstring) (st : ScanState) :
  closesBlock (trim line) = true ->
  scanLine i line st
  = let d := depth st - 1 in
    match blockStack st with
    | top :: rest =>
        if d <=? fdepth top then
          mkScanState
            (alter (fun s => setRange
                      (newRange (rstart (range s)) (mkPosition i (strlen line))) s)
               (symbol top) (store st))
            (symbols st) rest d
        else mkScanState (store st) (symbols st) (blockStack st) d
    | [] => mkScanState (store st) (symbols st) [] d
    end.
Proof.
  intros H. unfold scanLine, trackClose, trackOpen, defineSymbol.
  now rewrite H, (closes_not_opens _ H), (closes_defines_nothing _ H).
Qed.

(** The depth after a line that begins with a block-opening keyword. *)
Lemma depth_scanLine_opener (i : Z) (ws kw rest : jsstring) (st : ScanState) :
  forallb isWs ws = true -> In kw blockOpeners -> wordBoundary rest = true ->
  opensBlock (trim (ws ++ kw ++ rest)) = true
  /\ depth (scanLine i (ws ++ kw ++ rest) st) = depth st + 1.
Proof.
  intros Hws Hin Hb.
  assert (E : dropWhile isWs (ws ++ kw ++ rest) = kw ++ rest)
    by (apply dropWhile_app; [exact Hws|now apply blockOpeners_head]).
  assert (Ho : opensBlock (trim (ws ++ kw ++ rest)) = true)
    by (apply (matchKeywords_begins _ kw _ rest Hin
                 (blockOpeners_solid kw Hin) E Hb)).
  split; [exact Ho|].
  rewrite depth_scanLine, Ho, (opens_not_closes _ Ho). lia.
Qed.

(** C6, as the code has it. A line whose first word, after leading white
    space, is a block-opening keyword (def, class, struct, enum, if, unless,
    until, while, for, case, try) that ends at a word boundary raises the
    depth by exactly one, whatever follows on the line, further keywords
    included; and no line raises the depth by more than one. *)
Theorem depth_incremented_once (i : Z) (ws kw rest : jsstring) (st : ScanState) :
  forallb isWs ws = true -> In kw blockOpeners -> wordBoundary rest = true ->
  depth (scanLine i (ws ++ kw ++ rest) st) = depth st + 1
  /\ forall (j : Z) (line : jsstring) (st' : ScanState),
       depth (scanLine j line st') <= depth st' + 1.
Proof.
  intros Hws Hin Hb. split.
  - now apply depth_scanLine_opener.
  - intros j line st'. rewrite depth_scanLine.
    destruct (opensBlock (trim line)), (closesBlock (trim line)); lia.
Qed.

Lemma depth_incremented_once_witness :
  depth (scanLine 0 (str "  if a then while b") initial) = 1.
Proof.
  apply (depth_incremented_once 0 (str "  ") (str "if")
           (str " a then while b") initial);
    [reflexivity | simpl; auto 12 | reflexivity].
Defined.

(** C6 as stated fails: the line "puts x if y" contains the block-opening
    keyword "if" as a word of its own, and the depth is not incremented. *)
Lemma depth_keyword_inside_counterexample :
  In (str "if") blockOpeners
  /\ str "puts x if y" = str "puts x " ++ str "if" ++ str " y"
  /\ depth (scanLine 0 (str "puts x if y") initial) = depth initial.
Proof. split; [simpl; auto 12|]. split; reflexivity. Qed.

End ScanLine.

(** ** The outline is the object graph *)

Section ObjectGraph.

Lemma linked_grow (n m : nat) (objs : list DocumentSymbol) :
  (n <= m)%nat -> linked n objs -> linked m objs.
Proof. intros Hle H j s c Hj Hc. specialize (H j s c Hj Hc). lia. Qed.

Lemma linked_new (objs : list DocumentSymbol) (sym : DocumentSymbol) :
  children sym = [] -> linked (length objs) objs ->
  linked (S (length objs)) (objs ++ [sym]).
Proof.
  intros Hsym H j s c Hj Hc.
  apply lookup_app_Some in Hj as [Hj|[_ Hj]].
  - specialize (H j s c Hj Hc). lia.
  - destruct (j - length objs)%nat; [|discriminate].
    inversion Hj; subst. rewrite Hsym in Hc. contradiction.
Qed.

Lemma linked_alter_same (n : nat) (f : DocumentSymbol -> DocumentSymbol)
    (p : nat) (objs : list DocumentSymbol) :
  (forall s, children (f s) = children s) -> linked n objs ->
  linked n (alter f p objs).
Proof.
  intros Hf H j s c Hj Hc. rewrite list_lookup_alter in Hj.
  destruct (decide (p = j)) as [->|]; [|exact (H j s c Hj Hc)].
  destruct (objs !! j) as [o|] eqn:Ho; [|discriminate].
  inversion Hj; subst. rewrite Hf in Hc. exact (H j o c Ho Hc).
Qed.

Lemma linked_pushChild (n p id : nat) (objs : list DocumentSymbol) :
  (p < id < n)%nat -> linked n objs -> linked n (alter (pushChild id) p objs).
Proof.
  intros Hp H j s c Hj Hc. rewrite list_lookup_alter in Hj.
  destruct (decide (p = j)) as [->|]; [|exact (H j s c Hj Hc)].
  destruct (objs !! j) as [o|] eqn:Ho; [|discriminate].
  inversion Hj; subst. cbn [pushChild children] in Hc.
  apply in_app_or in Hc as [Hc|[<-|[]]]; [exact (H j o c Ho Hc)|exact Hp].
Qed.

Lemma wellLinked_defineSymbol (i : Z) (line : jsstring) (st : ScanState) :
  wellLinked st -> wellLinked (defineSymbol i line st).
Proof.
  intros [Hl Hs]. unfold defineSymbol.
  destruct (firstMatch patterns line) as [[k nm]|]; [|now split].
  set (sym := mkDocumentSymbol nm [] k _ _ []).
  pose proof (linked_new (store st) sym eq_refl Hl) as Hnew.
  assert (Hs' : Forall (fun f => (symbol f < S (length (store st)))%nat)
                  (blockStack st))
    by (eapply Forall_impl; [|exact Hs]; cbn; intros; lia).
  assert (Hs'' : forall d,
             Forall (fun f => (symbol f < S (length (store st)))%nat)
               (mkFrame (length (store st)) d :: blockStack st))
    by (constructor; [cbn; lia|exact Hs']).
  destruct (blockStack st) as [|parent stack] eqn:Hb.
  - destruct (pushesFrame k); split; cbn [store blockStack];
      rewrite ?length_app, ?Nat.add_1_r; auto.
  - assert (Hp : (symbol parent < length (store st))%nat)
      by (now inversion Hs).
    destruct (isFunctionOrEnum k), (pushesFrame k); split;
      cbn [store blockStack depth];
      rewrite ?length_alter, ?length_app, ?Nat.add_1_r; auto;
      apply linked_pushChild; auto; lia.
Qed.

Lemma wellLinked_trackOpen (t : jsstring) (st : ScanState) :
  wellLinked st -> wellLinked (trackOpen t st).
Proof. unfold trackOpen. now destruct (opensBlock t). Qed.

Lemma wellLinked_trackClose (i : Z) (line t : jsstring) (st : ScanState) :
  wellLinked st -> wellLinked (trackClose i line t st).
Proof.
  intros [Hl Hs]. unfold trackClose. destruct (closesBlock t); [|now split].
  destruct (blockStack st) as [|top rest] eqn:Hb; [now split|].
  destruct (_ <=? fdepth top); [|now split].
  split; cbn [store blockStack]; rewrite length_alter.
  - now apply linked_alter_same.
  - now inversion Hs.
Qed.

Lemma wellLinked_scanFrom (lines : list jsstring) :
  forall (i : Z) (st : ScanState),
    wellLinked st -> wellLinked (scanFrom i lines st).
Proof.
  induction lines as [|l ls IH]; intros i st H; [exact H|].
  cbn [scanFrom]. apply IH. unfold scanLine.
  now apply wellLinked_trackClose, wellLinked_trackOpen,
    wellLinked_defineSymbol.
Qed.

Lemma length_graphsFrom (objs : list DocumentSymbol) (base : nat) :
  length (graphsFrom base objs) = length objs.
Proof.
  revert base. induction objs as [|s objs IH]; intros base; [reflexivity|].
  cbn [graphsFrom length]. now rewrite IH.
Qed.

Lemma omap_Forall2 {A B : Type} (f : A -> option B) (Q : A -> B -> Prop)
    (l : list A) :
  (forall a, In a l -> exists b, f a = Some b /\ Q a b) ->
  Forall2 Q l (omap f l).
Proof.
  induction l as [|a l IH]; intros H; [constructor|].
  destruct (H a (or_introl eq_refl)) as (b & Hb & HQ).
  cbn [omap list_omap]. rewrite Hb.
  constructor; [exact HQ|]. apply IH. intros x Hx. apply H. now right.
Qed.

(** In a store whose links go to younger symbols, the graph of a symbol
    has, for each child of the symbol and in the same order, the graph of
    that child: no link is lost. *)
Lemma graphsFrom_children (objs : list DocumentSymbol) :
  forall (base j : nat) (s : DocumentSymbol),
    (forall j s c, objs !! j = Some s -> In c (children s) ->
                   (base + j < c < base + length objs)%nat) ->
    objs !! j = Some s ->
    exists cs,
      graphsFrom base objs !! j
      = Some (Node (name s) (kind s) (range s) (selectionRange s) cs)
      /\ Forall2 (fun c n => (base < c)%nat
                             /\ graphsFrom base objs !! (c - base)%nat = Some n)
           (children s) cs.
Proof.
  induction objs as [|o objs IH]; intros base j s Hl Hj; [discriminate|].
  destruct j as [|j].
  - inversion Hj; subst o. cbn [graphsFrom]. eexists. split; [reflexivity|].
    apply omap_Forall2. intros c Hc.
    specialize (Hl 0%nat s c eq_refl Hc). cbn [length] in Hl.
    destruct (decide (base < c)%nat) as [Hlt|]; [|lia].
    destruct (lookup_lt_is_Some_2 (graphsFrom (S base) objs) (c - S base))
      as [n Hn]; [rewrite length_graphsFrom; lia|].
    exists n. split; [exact Hn|]. split; [exact Hlt|].
    now replace (c - base)%nat with (S (c - S base)) by lia.
  - destruct (IH (S base) j s) as (cs & Hcs & Hall); [|exact Hj|].
    + intros j' s' c Hj' Hc. specialize (Hl (S j') s' c Hj' Hc).
      cbn [length] in Hl. lia.
    + exists cs. split; [exact Hcs|].
      eapply Forall2_impl; [|exact Hall]. cbn beta. intros c n [Hlt Hn].
      split; [lia|]. cbn [graphsFrom].
      now replace (c - base)%nat with (S (c - S base)) by lia.
Qed.

(** After the scan of any text, the store is well linked, so the forest
    that [provideDocumentSymbols] returns shows every child of every
    symbol. *)
Lemma scan_wellLinked (text : jsstring) :
  wellLinked (scanFrom 0 (split_nl text) initial).
Proof.
  apply wellLinked_scanFrom. split; [|constructor].
  intros j s c Hj. discriminate.
Qed.

Lemma scan_children (text : jsstring) (j : nat) (s : DocumentSymbol) :
  let objs := store (scanFrom 0 (split_nl text) initial) in
  objs !! j = Some s ->
  exists cs,
    graphsFrom 0 objs !! j
    = Some (Node (name s) (kind s) (range s) (selectionRange s) cs)
    /\ Forall2 (fun c n => graphsFrom 0 objs !! c = Some n) (children s) cs.
Proof.
  intros objs Hj. destruct (scan_wellLinked text) as [Hl _]. fold objs in Hl.
  destruct (graphsFrom_children objs 0 j s) as (cs & Hcs & Hall);
    [exact Hl|exact Hj|].
  exists cs. split; [exact Hcs|].
  eapply Forall2_impl; [|exact Hall]. cbn beta. intros c n [_ Hn].
  now rewrite Nat.sub_0_r in Hn.
Qed.

End ObjectGraph.

(** ** Definition lines *)

Section DefinitionLines.

(** The match of "keyword, white space, identifier" on a line of that
    shape: the identifier is the longest run of word characters. *)
Lemma matchKeywordIdent_shape (kw : jsstring) (first : char -> bool)
    (ws sep : jsstring) (c : char) (tail : jsstring) :
  forallb isWs ws = true -> stopsAt isWs (kw ++ sep ++ c :: tail) = true ->
  sep <> [] -> forallb isWs sep = true -> isWs c = false ->
  matchKeywordIdent kw first (ws ++ kw ++ sep ++ c :: tail)
  = if first c then Some (c :: takeWhile isWord tail, dropWhile isWord tail)
    else None.
Proof.
  intros Hws Hkw Hne Hsep Hc. unfold matchKeywordIdent.
  rewrite (dropWhile_app isWs ws) by assumption.
  rewrite stripPrefix_app, (span_app isWs sep)
    by (auto; simpl; now rewrite Hc).
  destruct sep as [|s0 sep]; [congruence|]. cbv iota beta.
  destruct (first c); [|reflexivity]. now rewrite (span_fst_snd isWord tail).
Qed.

(** A line "class <Identifier>" with an uppercase first letter is matched
    by the class pattern, and a line that begins with "end" at a word
    boundary closes a block. *)
Lemma firstMatch_class_line (ws sep : jsstring) (c : char) (tail : jsstring) :
  forallb isWs ws = true -> sep <> [] -> forallb isWs sep = true ->
  isUpper c = true ->
  firstMatch patterns (ws ++ str "class" ++ sep ++ c :: tail)
  = Some (Class, c :: takeWhile isWord tail).
Proof.
  intros Hws Hne Hsep Hc.
  assert (Hnws : isWs c = false) by char_classes.
  pose proof (matchKeywordIdent_shape (str "class") isUpper
                ws sep c tail Hws eq_refl Hne Hsep Hnws) as Hclass.
  rewrite Hc in Hclass.
  unfold firstMatch, patterns, reDef, reClass. rewrite Hclass.
  unfold matchKeywordIdent.
  rewrite (dropWhile_app isWs ws) by (auto; reflexivity). reflexivity.
Qed.

Lemma closesBlock_end_line (ws rest : jsstring) :
  forallb isWs ws = true -> wordBoundary rest = true ->
  closesBlock (trim (ws ++ str "end" ++ rest)) = true.
Proof.
  intros Hws Hb.
  apply (matchKeywords_begins _ (str "end") _ rest);
    [now left|reflexivity| |exact Hb].
  now apply dropWhile_app.
Qed.

(** C7, as the code has it. On a line "def <token>" (after optional
    indentation, with white space after "def"), a Function is recognized
    exactly when the token begins with an ASCII letter of either case or an
    underscore, so also for an identifier that begins with an uppercase
    letter; its name is the longest run of word characters there. When the
    token begins otherwise, the line defines nothing. In both cases the line
    raises the depth by one. *)
Theorem def_line_recognition (i : Z) (ws sep : jsstring) (c : char)
    (tail : jsstring) (st : ScanState) :
  forallb isWs ws = true -> sep <> [] -> forallb isWs sep = true ->
  isWs c = false ->
  firstMatch patterns (ws ++ str "def" ++ sep ++ c :: tail)
  = (if isAlphaUnderscore c
     then Some (Function, c :: takeWhile isWord tail) else None)
  /\ depth (scanLine i (ws ++ str "def" ++ sep ++ c :: tail) st) = depth st + 1.
Proof.
  intros Hws Hne Hsep Hc. split.
  - pose proof (matchKeywordIdent_shape (str "def") isAlphaUnderscore
                  ws sep c tail Hws eq_refl Hne Hsep Hc) as Hdef.
    unfold firstMatch, patterns, reDef. rewrite Hdef.
    destruct (isAlphaUnderscore c); [reflexivity|].
    unfold reClass, reStruct, reEnum, reConst, matchKeywordIdent.
    rewrite (dropWhile_app isWs ws) by (auto; reflexivity). reflexivity.
  - apply depth_scanLine_opener; [exact Hws|simpl; auto 12|].
    destruct sep as [|s0 sep]; [congruence|]. cbn [app wordBoundary].
    apply andb_true_iff in Hsep as [H0 _]. now rewrite (isWs_not_word s0 H0).
Qed.

Lemma def_line_recognition_witness :
  firstMatch patterns (str "def Foo") = Some (Function, str "Foo")
  /\ depth (scanLine 0 (str "def Foo") initial) = 1.
Proof.
  apply (def_line_recognition 0 [] (str " ") (code "F") (str "oo") initial);
    solve [reflexivity | discriminate].
Defined.

(** C7 as stated fails: "def Foo", whose identifier begins with an
    uppercase letter, gives a Function symbol. *)
Lemma def_uppercase_counterexample :
  isUpper (code "F") = true
  /\ provideDocumentSymbols (str "def Foo")
     = [Node (str "Foo") Function
          (mkRange (mkPosition 0 4) (mkPosition 0 7))
          (mkRange (mkPosition 0 4) (mkPosition 0 7)) []].
Proof. split; reflexivity. Qed.

(** C8. On the line "def d" the identifier is at column 4, after the four
    characters of "def "; the symbol that the provider builds starts at
    column 0, where [indexOf] finds the letter inside the keyword. Its
    provisional end is the end of the line. *)
Theorem def_d_start_column :
  str "def d" = str "def " ++ str "d" /\ strlen (str "def ") = 4
  /\ provideDocumentSymbols (str "def d")
     = [Node (str "d") Function
          (mkRange (mkPosition 0 0) (mkPosition 0 (strlen (str "def d"))))
          (mkRange (mkPosition 0 0) (mkPosition 0 (strlen (str "def d")))) []].
Proof. repeat split. Qed.

End DefinitionLines.

(** ** Nesting under the top frame *)

Section Nesting.

(** C10. When the block stack is not empty, a line that defines a Function
    or an Enum links the new symbol as the last child of the symbol of the
    top frame, whatever the kind of that symbol is, and not into the
    result array; the new symbol gets its own frame above it. *)
Theorem function_or_enum_nests_under_top (i : Z) (line : jsstring)
    (st : ScanState) (k : SymbolKind) (nm : jsstring) (top : Frame)
    (below : list Frame) (parent : DocumentSymbol) :
  firstMatch patterns line = Some (k, nm) -> isFunctionOrEnum k = true ->
  blockStack st = top :: below -> store st !! symbol top = Some parent ->
  let st' := scanLine i line st in
  let id := length (store st) in
  symbols st' = symbols st
  /\ store st' !! symbol top = Some (pushChild id parent)
  /\ store st' !! id = Some (newSymbol i line k nm)
  /\ blockStack st' = mkFrame id (depth st) :: top :: below.
Proof.
  intros H Hk Hstack Hparent st' id.
  assert (Hpush : pushesFrame k = true) by (now destruct k).
  pose proof (lookup_lt_Some _ _ _ Hparent) as Hlt.
  subst st'. rewrite (scanLine_define i line st k nm H Hpush).
  unfold defineSymbol. rewrite H, Hstack, Hk, Hpush. cbn.
  repeat split.
  - rewrite list_lookup_alter_eq, lookup_app_l, Hparent by exact Hlt.
    reflexivity.
  - rewrite list_lookup_alter_ne by (fold id; lia).
    apply list_lookup_middle. reflexivity.
Qed.

Lemma function_or_enum_nests_under_top_witness :
  let st := scanFrom 0 [str "class A"; str "  def f"] initial in
  let st' := scanLine 2 (str "    def g") st in
  blockStack st = [mkFrame 1 1; mkFrame 0 0]
  /\ kind <$> store st !! 1%nat = Some Function
  /\ symbols st' = symbols st
  /\ children <$> store st' !! 1%nat = Some [2%nat]
  /\ children <$> store st' !! 0%nat = Some [1%nat]
  /\ name <$> store st' !! 2%nat = Some (str "g").
Proof.
  intros st st'.
  destruct (function_or_enum_nests_under_top 2 (str "    def g") st
              Function (str "g") (mkFrame 1 1) [mkFrame 0 0]
              (newSymbol 1 (str "  def f") Function (str "f"))
              eq_refl eq_refl eq_refl eq_refl) as (Hs & Hp & Hn & _).
  fold st' in Hs, Hp, Hn. cbn [symbol] in Hp.
  change (length (store st)) with 2%nat in Hp, Hn.
  rewrite Hp, Hn. repeat split; try reflexivity; exact Hs.
Defined.

(** The same in the outline: a function defined while another function is
    still open is a child of that function. *)
Example nested_function_outline :
  provideDocumentSymbols
    (str "class A" ++ LF :: str "  def f" ++ LF :: str "    def g" ++ LF ::
     str "    end" ++ LF :: str "  end" ++ LF :: str "end")
  = [Node (str "A") Class
       (mkRange (mkPosition 0 6) (mkPosition 5 3))
       (mkRange (mkPosition 0 6) (mkPosition 0 7))
       [Node (str "f") Function
          (mkRange (mkPosition 1 4) (mkPosition 4 5))
          (mkRange (mkPosition 1 4) (mkPosition 1 7))
          [Node (str "g") Function
             (mkRange (mkPosition 2 8) (mkPosition 3 7))
             (mkRange (mkPosition 2 8) (mkPosition 2 9)) []]]].
Proof. reflexivity. Qed.

End Nesting.

(** ** A class with two functions *)

Section ClassWithFunctions.

Lemma newRange_resolved (i j : Z) (line nm closing : jsstring) :
  i < j ->
  newRange (rstart (provisional i line nm)) (mkPosition j (strlen closing))
  = resolved i line nm j closing.
Proof.
  intros H. unfold newRange at 1, isBefore, resolved, provisional.
  rewrite newRange_same_line. cbn [Vscode.line].
  destruct (Z.ltb_spec i j); [reflexivity|lia].
Qed.

(** The state after a definition line of a kind that pushes a frame, when
    the stack is empty or the kind is not nested. *)
Lemma scanLine_define_top (i : Z) (line : jsstring) (st : ScanState)
    (k : SymbolKind) (nm : jsstring) :
  firstMatch patterns line = Some (k, nm) -> pushesFrame k = true ->
  blockStack st = [] \/ isFunctionOrEnum k = false ->
  scanLine i line st
  = mkScanState (store st ++ [newSymbol i line k nm])
      (symbols st ++ [length (store st)])
      (mkFrame (length (store st)) (depth st) :: blockStack st)
      (depth st + 1).
Proof.
  intros H Hk Htop. rewrite (scanLine_define i line st k nm H Hk).
  unfold defineSymbol. rewrite H, Hk.
  destruct Htop as [-> | ->]; [reflexivity|].
  now destruct (blockStack st).
Qed.

(** The state after a line that defines a Function or Enum under a frame. *)
Lemma scanLine_define_nested (i : Z) (line : jsstring) (st : ScanState)
    (k : SymbolKind) (nm : jsstring) (top : Frame) (below : list Frame) :
  firstMatch patterns line = Some (k, nm) -> isFunctionOrEnum k = true ->
  blockStack st = top :: below ->
  scanLine i line st
  = mkScanState
      (alter (pushChild (length (store st))) (symbol top)
         (store st ++ [newSymbol i line k nm]))
      (symbols st)
      (mkFrame (length (store st)) (depth st) :: top :: below)
      (depth st + 1).
Proof.
  intros H Hk Hstack.
  assert (Hpush : pushesFrame k = true) by (now destruct k).
  rewrite (scanLine_define i line st k nm H Hpush).
  unfold defineSymbol. now rewrite H, Hstack, Hk, Hpush.
Qed.

(** C1. A text of six lines, a class definition, a function definition and
    its closing "end", a second function definition and its closing "end",
    and the closing "end" of the class, gives exactly one top-level node, of
    kind Class, whose children are exactly the two Function nodes in the
    order of their definitions; the range of each function ends on the line
    of its own "end" and the range of the class on the last line. *)
Theorem class_with_two_functions
    (text l0 l1 l2 l3 l4 l5 cn fn gn : jsstring) :
  split_nl text = [l0; l1; l2; l3; l4; l5] ->
  firstMatch patterns l0 = Some (Class, cn) ->
  firstMatch patterns l1 = Some (Function, fn) ->
  closesBlock (trim l2) = true ->
  firstMatch patterns l3 = Some (Function, gn) ->
  closesBlock (trim l4) = true ->
  closesBlock (trim l5) = true ->
  provideDocumentSymbols text
  = [Node cn Class (resolved 0 l0 cn 5 l5) (provisional 0 l0 cn)
       [Node fn Function (resolved 1 l1 fn 2 l2) (provisional 1 l1 fn) [];
        Node gn Function (resolved 3 l3 gn 4 l4) (provisional 3 l3 gn) []]].
Proof.
  intros Hs H0 H1 H2 H3 H4 H5.
  set (c := newSymbol 0 l0 Class cn).
  set (f := newSymbol 1 l1 Function fn).
  set (g := newSymbol 3 l3 Function gn).
  set (f' := setRange (resolved 1 l1 fn 2 l2) f).
  set (g' := setRange (resolved 3 l3 gn 4 l4) g).
  set (c' := pushChild 2 (pushChild 1 c)).
  assert (E0 : scanLine 0 l0 initial
               = mkScanState [c] [0%nat] [mkFrame 0 0] 1).
  { now rewrite (scanLine_define_top 0 l0 initial Class cn H0 eq_refl
                   (or_introl eq_refl)). }
  assert (E1 : scanLine 1 l1 (mkScanState [c] [0%nat] [mkFrame 0 0] 1)
               = mkScanState [pushChild 1 c; f] [0%nat]
                   [mkFrame 1 1; mkFrame 0 0] 2).
  { erewrite (scanLine_define_nested 1 l1 _ Function fn _ _ H1 eq_refl);
      [|reflexivity]. reflexivity. }
  assert (E2 : scanLine 2 l2 (mkScanState [pushChild 1 c; f] [0%nat]
                                [mkFrame 1 1; mkFrame 0 0] 2)
               = mkScanState [pushChild 1 c; f'] [0%nat] [mkFrame 0 0] 1).
  { rewrite (scanLine_end 2 l2 _ H2). subst f'.
    now rewrite <- (newRange_resolved 1 2 l1 fn l2) by lia. }
  assert (E3 : scanLine 3 l3 (mkScanState [pushChild 1 c; f'] [0%nat]
                                [mkFrame 0 0] 1)
               = mkScanState [c'; f'; g] [0%nat]
                   [mkFrame 2 1; mkFrame 0 0] 2).
  { erewrite (scanLine_define_nested 3 l3 _ Function gn _ _ H3 eq_refl);
      [|reflexivity]. reflexivity. }
  assert (E4 : scanLine 4 l4 (mkScanState [c'; f'; g] [0%nat]
                                [mkFrame 2 1; mkFrame 0 0] 2)
               = mkScanState [c'; f'; g'] [0%nat] [mkFrame 0 0] 1).
  { rewrite (scanLine_end 4 l4 _ H4). subst g'.
    now rewrite <- (newRange_resolved 3 4 l3 gn l4) by lia. }
  assert (E5 : scanLine 5 l5 (mkScanState [c'; f'; g'] [0%nat] [mkFrame 0 0] 1)
               = mkScanState [setRange (resolved 0 l0 cn 5 l5) c'; f'; g']
                   [0%nat] [] 0).
  { rewrite (scanLine_end 5 l5 _ H5).
    now rewrite <- (newRange_resolved 0 5 l0 cn l5) by lia. }
  unfold provideDocumentSymbols. rewrite Hs.
  change (scanFrom 0 [l0; l1; l2; l3; l4; l5] initial)
    with (scanLine 5 l5 (scanLine 4 l4 (scanLine 3 l3
            (scanLine 2 l2 (scanLine 1 l1 (scanLine 0 l0 initial)))))).
  rewrite E0, E1, E2, E3, E4, E5. reflexivity.
Qed.

Lemma class_with_two_functions_witness :
  provideDocumentSymbols
    (str "class Point" ++ LF :: str "  def norm(x)" ++ LF :: str "  end" ++ LF ::
     str "  def show" ++ LF :: str "  end" ++ LF :: str "end")
  = [Node (str "Point") Class
       (mkRange (mkPosition 0 6) (mkPosition 5 3))
       (mkRange (mkPosition 0 6) (mkPosition 0 11))
       [Node (str "norm") Function
          (mkRange (mkPosition 1 6) (mkPosition 2 5))
          (mkRange (mkPosition 1 6) (mkPosition 1 13)) [];
        Node (str "show") Function
          (mkRange (mkPosition 3 6) (mkPosition 4 5))
          (mkRange (mkPosition 3 6) (mkPosition 3 10)) []]].
Proof.
  apply (class_with_two_functions _
           (str "class Point") (str "  def norm(x)") (str "  end")
           (str "  def show") (str "  end") (str "end")
           (str "Point") (str "norm") (str "show"));
    reflexivity.
Defined.

End ClassWithFunctions.

(** ** A class that is not closed *)

Section NamesAndGraphs.

Lemma scanFrom_app (i : Z) (a b : list jsstring) (st : ScanState) :
  scanFrom i (a ++ b) st = scanFrom (i + Z.of_nat (length a)) b (scanFrom i a st).
Proof.
  revert i st. induction a as [|l a IH]; intros i st.
  - cbn [app scanFrom length]. now rewrite Z.add_0_r.
  - cbn [app scanFrom length]. rewrite IH. f_equal. lia.
Qed.

Lemma indexOfFrom_head (p s : jsstring) (i : Z) :
  startsWith p s = true -> indexOfFrom p s i = i.
Proof. intros H. destruct s; cbn [indexOfFrom]; now rewrite H. Qed.

Lemma indexOfFrom_bounds (p a b : jsstring) (i : Z) :
  i <= indexOfFrom p (a ++ p ++ b) i <= i + Z.of_nat (length a).
Proof.
  revert i. induction a as [|c a IH]; intros i.
  - cbn [app length]. rewrite indexOfFrom_head by apply startsWith_app. lia.
  - cbn [app indexOfFrom].
    destruct (startsWith p (c :: a ++ p ++ b)); [cbn [length]; lia|].
    specialize (IH (i + 1)). cbn [length]. lia.
Qed.

Lemma matchKeywordIdent_in_line (kw : jsstring) (first : char -> bool)
    (line nm rest : jsstring) :
  matchKeywordIdent kw first line = Some (nm, rest) ->
  nm <> [] /\ exists a b, line = a ++ nm ++ b.
Proof.
  intros H.
  apply matchKeywordIdent_inv in H as (ws & c & w & E & _ & _ & _ & -> & _).
  split; [discriminate|].
  destruct (span_parts isWs line) as (Hl & _ & _).
  exists (takeWhile isWs line ++ kw ++ ws), rest.
  rewrite Hl at 1. rewrite E. now rewrite <- !app_assoc.
Qed.

(** The captured name is a part of the line and is not empty, so the
    constructor of [DocumentSymbol], which rejects an empty name, accepts
    it. *)
Lemma firstMatch_in_line (line : jsstring) (k : SymbolKind) (nm : jsstring) :
  firstMatch patterns line = Some (k, nm) ->
  nm <> [] /\ exists a b, line = a ++ nm ++ b.
Proof.
  intros H.
  destruct (firstMatch_cases line k nm H)
    as [[_ E]|[[_ E]|[[_ E]|[[_ E]|[_ E]]]]];
    unfold reDef, reClass, reStruct, reEnum, reConst in E;
    match type of E with
    | context [matchKeywordIdent ?kw ?f line] =>
        destruct (matchKeywordIdent kw f line) as [[w rest]|] eqn:Em;
          [|discriminate];
        apply matchKeywordIdent_in_line in Em
    end.
  1-4: now inversion E; subst.
  destruct (dropWhile isWs rest) as [|c r]; [discriminate|].
  destruct (c =? code "=")%N; [|discriminate]. now inversion E; subst.
Qed.

(** The column found for the name lies on the line: it is not negative,
    as the constructor of [Position] requires, and the range of a new symbol
    runs from it to the end of the line. *)
Lemma provisional_range (i : Z) (line : jsstring) (k : SymbolKind)
    (nm : jsstring) :
  firstMatch patterns line = Some (k, nm) ->
  0 <= indexOf line nm < strlen line
  /\ provisional i line nm
     = mkRange (mkPosition i (indexOf line nm)) (mkPosition i (strlen line)).
Proof.
  intros H. destruct (firstMatch_in_line line k nm H) as (Hne & a & b & E).
  assert (Hidx : 0 <= indexOf line nm < strlen line).
  { unfold indexOf, strlen. rewrite E.
    pose proof (indexOfFrom_bounds nm a b 0) as Hb.
    rewrite !length_app. destruct nm; [congruence|]. cbn [length]. lia. }
  split; [exact Hidx|].
  unfold provisional, newRange, isBefore. cbn.
  rewrite Z.ltb_irrefl, Z.eqb_refl. cbn.
  destruct (Z.ltb_spec (indexOf line nm) (strlen line)); [reflexivity|lia].
Qed.

(** The object at an address of the store appears in the graphs with its
    own name, kind and ranges. *)
Lemma graphsFrom_lookup (objs : list DocumentSymbol) (base id : nat)
    (s : DocumentSymbol) :
  objs !! id = Some s ->
  exists cs, graphsFrom base objs !! id
             = Some (Node (name s) (kind s) (range s) (selectionRange s) cs).
Proof.
  revert base id. induction objs as [|o objs IH]; intros base id H;
    [discriminate|].
  destruct id as [|id]; cbn [graphsFrom].
  - inversion H; subst. eexists. reflexivity.
  - apply (IH (S base) id H).
Qed.

End NamesAndGraphs.

(** The class whose frame is at address [id], opened at depth [d0], while
    the scan goes on. *)
Section OpenClass.

Variables (id : nat) (d0 : Z) (nm : jsstring) (rg : Range).

Lemma openClass_alter (f : DocumentSymbol -> DocumentSymbol)
    (objs : list DocumentSymbol) (j : nat) :
  (j = id -> forall s, isOpenClass nm rg s -> isOpenClass nm rg (f s)) ->
  (exists s, objs !! id = Some s /\ isOpenClass nm rg s) ->
  exists s, alter f j objs !! id = Some s /\ isOpenClass nm rg s.
Proof.
  intros Hf (s & Hs & Hc). rewrite list_lookup_alter.
  destruct (decide (j = id)) as [->|Hne]; [|now exists s].
  exists (f s). rewrite Hs. split; [reflexivity|]. now apply Hf.
Qed.

(** A definition leaves the class as it is: it may add a child to it and
    it pushes frames of new symbols only. *)
Lemma openClassInvariant_defineSymbol (i : Z) (line : jsstring)
    (st : ScanState) :
  openClassInvariant id d0 nm rg st ->
  openClassInvariant id d0 nm rg (defineSymbol i line st).
Proof.
  intros ((above & below & Hstack & Habove) & (s & Hs & Hc) & Hin).
  unfold defineSymbol.
  destruct (firstMatch patterns line) as [[k n]|];
    [|now repeat split; eauto].
  pose proof (lookup_lt_Some _ _ _ Hs) as Hlt.
  set (sym := mkDocumentSymbol n [] k _ _ []).
  assert (Hgrow : exists s', (store st ++ [sym]) !! id = Some s'
                             /\ isOpenClass nm rg s').
  { exists s. split; [now apply lookup_app_l_Some|exact Hc]. }
  assert (Hpush : forall d,
             exists above' below',
               mkFrame (length (store st)) d :: blockStack st
               = above' ++ mkFrame id d0 :: below'
               /\ Forall (fun f => symbol f <> id) above').
  { intros d. exists (mkFrame (length (store st)) d :: above), below.
    rewrite Hstack. split; [reflexivity|].
    constructor; [cbn; lia|exact Habove]. }
  assert (Hkeep : exists above' below',
             blockStack st = above' ++ mkFrame id d0 :: below'
             /\ Forall (fun f => symbol f <> id) above') by eauto.
  destruct (blockStack st) as [|parent stack] eqn:Hb;
    [now destruct above|].
  destruct (isFunctionOrEnum k), (pushesFrame k);
    unfold openClassInvariant; cbn [store symbols blockStack depth];
    (split; [solve [apply Hpush | exact Hkeep]|]);
    (split; [|auto using in_or_app]);
    first [exact Hgrow
          |apply openClass_alter; [intros _ ? ?; assumption|exact Hgrow]].
Qed.

Lemma openClassInvariant_trackOpen (t : jsstring) (st : ScanState) :
  openClassInvariant id d0 nm rg st ->
  openClassInvariant id d0 nm rg (trackOpen t st).
Proof. unfold trackOpen. now destruct (opensBlock t). Qed.

(** An "end" leaves the class as it is while the depth stays above the
    depth at which the class was opened: it can only pop a frame above. *)
Lemma openClassInvariant_trackClose (i : Z) (line t : jsstring)
    (st : ScanState) :
  openClassInvariant id d0 nm rg st ->
  (closesBlock t = true -> d0 < depth st - 1) ->
  openClassInvariant id d0 nm rg (trackClose i line t st).
Proof.
  intros ((above & below & Hstack & Habove) & Hobj & Hin) Hd.
  unfold trackClose. destruct (closesBlock t); [|now repeat split; eauto].
  specialize (Hd eq_refl). rewrite Hstack.
  destruct above as [|f above]; cbn [app].
  - cbn [fdepth]. destruct (Z.leb_spec (depth st - 1) d0); [lia|].
    unfold openClassInvariant. cbn [store symbols blockStack].
    repeat split; auto. now exists [], below.
  - inversion Habove as [|? ? Hf Habove']; subst.
    destruct (depth st - 1 <=? fdepth f);
      unfold openClassInvariant; cbn [store symbols blockStack symbol];
      repeat split; auto.
    + now exists above, below.
    + apply openClass_alter; [intros E; congruence|exact Hobj].
    + now exists (f :: above), below.
Qed.

Lemma depth_trackOpen (t : jsstring) (st : ScanState) :
  depth (trackOpen t st) = depth st + (if opensBlock t then 1 else 0).
Proof. unfold trackOpen. destruct (opensBlock t); cbn; lia. Qed.

Lemma openClassInvariant_scanFrom (lines : list jsstring) :
  forall (i k : Z) (st : ScanState),
    openClassInvariant id d0 nm rg st -> depth st = d0 + 1 + k ->
    staysOpen k lines = true ->
    openClassInvariant id d0 nm rg (scanFrom i lines st).
Proof.
  induction lines as [|l ls IH]; intros i k st Hinv Hdepth Hopen; [exact Hinv|].
  cbn [staysOpen scanFrom] in *. apply andb_true_iff in Hopen as [Hk Hopen].
  apply Z.leb_le in Hk.
  eapply IH; [| |exact Hopen].
  - unfold scanLine. apply openClassInvariant_trackClose.
    + now apply openClassInvariant_trackOpen, openClassInvariant_defineSymbol.
    + intros Hc. rewrite Hc in Hk.
      rewrite depth_trackOpen, depth_defineSymbol. lia.
  - rewrite depth_scanLine. lia.
Qed.

Lemma openClassInvariant_forest (st : ScanState) :
  openClassInvariant id d0 nm rg st ->
  exists cs, In (Node nm Class rg rg cs) (forest st).
Proof.
  intros (_ & (s & Hs & Hn & Hk & Hr & Hsel) & Hin).
  destruct (graphsFrom_lookup (store st) 0 id s Hs) as [cs Hcs].
  exists cs. apply list_elem_of_In. unfold forest.
  apply list_elem_of_omap. exists id. split; [now apply list_elem_of_In|].
  now rewrite Hcs, Hn, Hk, Hr, Hsel.
Qed.

End OpenClass.

Section UnterminatedClass.

(** C9. When a line of the text is a class definition and no "end" on the
    lines after it closes more blocks than those lines have opened, so that
    none closes the class, the outline still has a top-level node for the
    class, and the range of that node is the one it got on its definition
    line, which ends at the end of that line. *)
Theorem unterminated_class_keeps_provisional_end (text : jsstring)
    (pre post : list jsstring) (cl nm : jsstring) :
  split_nl text = pre ++ cl :: post ->
  firstMatch patterns cl = Some (Class, nm) ->
  staysOpen 0 post = true ->
  let i := Z.of_nat (length pre) in
  rend (provisional i cl nm) = mkPosition i (strlen cl)
  /\ exists cs,
       In (Node nm Class (provisional i cl nm) (provisional i cl nm) cs)
         (provideDocumentSymbols text).
Proof.
  intros Hs Hcl Hopen i. split.
  - destruct (provisional_range i cl Class nm Hcl) as [_ ->]. reflexivity.
  - unfold provideDocumentSymbols. rewrite Hs, scanFrom_app.
    cbn [scanFrom]. rewrite Z.add_0_l. fold i.
    set (st0 := scanFrom 0 pre initial).
    rewrite (scanLine_define_top i cl st0 Class nm Hcl eq_refl
               (or_intror eq_refl)).
    apply (openClassInvariant_forest (length (store st0)) (depth st0)).
    apply (openClassInvariant_scanFrom _ _ _ _ post _ 0);
      [|cbn; lia|exact Hopen].
    repeat split.
    + exists [], (blockStack st0). split; [reflexivity|constructor].
    + exists (newSymbol i cl Class nm). split; [|repeat split].
      cbn [store]. now apply list_lookup_middle.
    + cbn [symbols]. apply in_or_app. right. now left.
Qed.

Lemma unterminated_class_keeps_provisional_end_witness :
  let text := str "x = 1" ++ LF :: str "class A" ++ LF :: str "  def f" ++ LF
              :: str "  end" ++ LF :: str "  y = 2" in
  rend (provisional 1 (str "class A") (str "A")) = mkPosition 1 7
  /\ exists cs,
       In (Node (str "A") Class
             (mkRange (mkPosition 1 6) (mkPosition 1 7))
             (mkRange (mkPosition 1 6) (mkPosition 1 7)) cs)
         (provideDocumentSymbols text).
Proof.
  intros text.
  apply (unterminated_class_keeps_provisional_end text [str "x = 1"]
           [str "  def f"; str "  end"; str "  y = 2"]
           (str "class A") (str "A"));
    reflexivity.
Defined.

End UnterminatedClass.

(** * Further properties of the outline *)

(** ** Induction over the scan *)

Section ScanInduction.

(** A property of the lines read so far and of the state, which holds at the
    start and is kept by every line, holds at the end of the scan. *)
Lemma scanFrom_ind (P : list jsstring -> ScanState -> Prop) :
  (forall pre l st,
      P pre st -> P (pre ++ [l]) (scanLine (Z.of_nat (length pre)) l st)) ->
  forall rest pre st,
    P pre st -> P (pre ++ rest) (scanFrom (Z.of_nat (length pre)) rest st).
Proof.
  intros Hstep. induction rest as [|l rest IH]; intros pre st H.
  - now rewrite app_nil_r.
  - cbn [scanFrom].
    replace (pre ++ l :: rest) with ((pre ++ [l]) ++ rest)
      by now rewrite <- app_assoc.
    replace (Z.of_nat (length pre) + 1) with (Z.of_nat (length (pre ++ [l])))
      by (rewrite length_app; cbn [length]; lia).
    apply IH, Hstep, H.
Qed.

Lemma scan_ind (P : list jsstring -> ScanState -> Prop) :
  P [] initial ->
  (forall pre l st,
      P pre st -> P (pre ++ [l]) (scanLine (Z.of_nat (length pre)) l st)) ->
  forall text, P (split_nl text) (finalState text).
Proof.
  intros H0 Hstep text. exact (scanFrom_ind P Hstep (split_nl text) [] initial H0).
Qed.

(** The two ways in which a line changes the state: it closes a block and
    defines nothing, or it goes through the definitions and may open a
    block. *)
Lemma scanLine_cases (i : Z) (l : jsstring) (st : ScanState) :
  (closesBlock (trim l) = true /\ firstMatch patterns l = None
   /\ scanLine i l st = trackClose i l (trim l) st)
  \/ (closesBlock (trim l) = false
      /\ store (scanLine i l st) = store (defineSymbol i l st)
      /\ symbols (scanLine i l st) = symbols (defineSymbol i l st)
      /\ blockStack (scanLine i l st) = blockStack (defineSymbol i l st)
      /\ depth (scanLine i l st)
         = depth st + (if opensBlock (trim l) then 1 else 0)).
Proof.
  destruct (closesBlock (trim l)) eqn:Hc; [left|right].
  - pose proof (closes_defines_nothing l Hc) as Hn.
    repeat split; auto. unfold scanLine, trackOpen, defineSymbol.
    now rewrite Hn, (closes_not_opens _ Hc).
  - split; [reflexivity|]. unfold scanLine, trackClose. rewrite Hc.
    unfold trackOpen.
    destruct (opensBlock (trim l)); cbn [store symbols blockStack depth];
      rewrite ?depth_defineSymbol; repeat split; lia.
Qed.

End ScanInduction.

(** ** What a definition does to the state *)

Section DefineCases.

(** The state after the definitions of a line: unchanged when no pattern
    matches; otherwise the new symbol is at the end of the store, either
    linked under the symbol of the top frame or added to the result, and its
    frame is pushed when its kind opens a block. *)
Lemma defineSymbol_cases (i : Z) (l : jsstring) (st : ScanState) :
  (firstMatch patterns l = None /\ defineSymbol i l st = st)
  \/ exists k nm,
      firstMatch patterns l = Some (k, nm)
      /\ ((exists top below,
              blockStack st = top :: below /\ isFunctionOrEnum k = true
              /\ store (defineSymbol i l st)
                 = alter (pushChild (length (store st))) (symbol top)
                     (store st ++ [newSymbol i l k nm])
              /\ symbols (defineSymbol i l st) = symbols st)
          \/ ((blockStack st = [] \/ isFunctionOrEnum k = false)
              /\ store (defineSymbol i l st)
                 = store st ++ [newSymbol i l k nm]
              /\ symbols (defineSymbol i l st)
                 = symbols st ++ [length (store st)]))
      /\ blockStack (defineSymbol i l st)
         = (if pushesFrame k
            then mkFrame (length (store st)) (depth st) :: blockStack st
            else blockStack st).
Proof.
  unfold defineSymbol.
  destruct (firstMatch patterns l) as [[k nm]|]; [right|now left].
  exists k, nm. split; [reflexivity|].
  destruct (blockStack st) as [|top below] eqn:Hb.
  - split; [right|]; destruct (pushesFrame k); cbn; auto.
  - destruct (isFunctionOrEnum k) eqn:Hk.
    + split; [left; exists top, below|]; destruct (pushesFrame k); cbn; auto.
    + split; [right|]; destruct (pushesFrame k); cbn; auto.
Qed.

End DefineCases.

(** ** The nodes of the outline and the symbols of the store *)

Section NodesAndStore.

Lemma lookup_graphsFrom (objs : list DocumentSymbol) :
  forall (base j : nat) (g : SymbolNode),
    graphsFrom base objs !! j = Some g ->
    exists s,
      objs !! j = Some s
      /\ g = Node (name s) (kind s) (range s) (selectionRange s)
               (nodeChildren g).
Proof.
  induction objs as [|o objs IH]; intros base j g H; [discriminate|].
  destruct j as [|j]; cbn [graphsFrom] in H.
  - inversion H; subst. now exists o.
  - exact (IH (S base) j g H).
Qed.

Lemma omap_In {A B : Type} (f : A -> option B) (l : list A) (b : B) :
  In b (omap f l) -> exists a, In a l /\ f a = Some b.
Proof.
  intros H. apply list_elem_of_In, list_elem_of_omap in H as (a & Ha & Hf).
  exists a. split; [now apply list_elem_of_In|exact Hf].
Qed.

Lemma lookup_In {A : Type} (l : list A) (i : nat) (x : A) :
  l !! i = Some x -> In x l.
Proof. intros H. apply list_elem_of_In, list_elem_of_lookup. eauto. Qed.

Lemma In_lookup {A : Type} (l : list A) (x : A) :
  In x l -> exists i, l !! i = Some x.
Proof. intros H. now apply list_elem_of_In, list_elem_of_lookup in H. Qed.

(** The graphs of a store are closed under [flatten]: the nodes below a
    graph are graphs of the store. *)
Lemma flatten_graphsFrom (objs : list DocumentSymbol) :
  forall (base : nat) (g n : SymbolNode),
    In g (graphsFrom base objs) -> In n (flatten g) ->
    In n (graphsFrom base objs).
Proof.
  induction objs as [|o objs IH]; intros base g n Hg Hn; [contradiction|].
  cbn [graphsFrom] in *. destruct Hg as [<-|Hg].
  - cbn [flatten] in Hn. destruct Hn as [<-|Hn]; [now left|]. right.
    apply in_flat_map in Hn as (c & Hc & Hn).
    apply omap_In in Hc as (a & _ & Ha).
    destruct (decide (base < a)%nat); [|discriminate].
    apply lookup_In in Ha. exact (IH (S base) c n Ha Hn).
  - right. exact (IH (S base) g n Hg Hn).
Qed.

(** Every node of the outline, at any level, is the graph of a symbol of
    the final store: it has the name, kind and ranges of that symbol, and
    its children are the graphs of the children of that symbol, in order. *)
Lemma outline_node_symbol (text : jsstring) (n : SymbolNode) :
  In n (allNodes (provideDocumentSymbols text)) ->
  exists (j : nat) (s : DocumentSymbol),
    store (finalState text) !! j = Some s
    /\ graphsFrom 0 (store (finalState text)) !! j = Some n
    /\ n = Node (name s) (kind s) (range s) (selectionRange s) (nodeChildren n)
    /\ Forall2 (fun c m => graphsFrom 0 (store (finalState text)) !! c = Some m)
         (children s) (nodeChildren n).
Proof.
  unfold allNodes, provideDocumentSymbols, forest. fold (finalState text).
  intros H. apply in_flat_map in H as (g & Hg & Hn).
  apply omap_In in Hg as (id & _ & Hid). apply lookup_In in Hid.
  pose proof (flatten_graphsFrom _ 0 g n Hid Hn) as Hin.
  apply In_lookup in Hin as [j Hj].
  destruct (lookup_graphsFrom _ 0 j n Hj) as (s & Hs & Hshape).
  exists j, s. repeat split; auto.
  destruct (scan_children text j s Hs) as (cs & Hcs & Hall).
  unfold finalState in *. cbv zeta in Hcs, Hall. rewrite Hj in Hcs.
  assert (E : nodeChildren n = cs)
    by (injection Hcs as E; rewrite E; reflexivity).
  rewrite E. exact Hall.
Qed.

End NodesAndStore.

(** ** Where the symbols come from *)

Section Origin.

Lemma origin_grow (pre : list jsstring) (l : jsstring) (s : DocumentSymbol) :
  origin pre s -> origin (pre ++ [l]) s.
Proof.
  intros (li & l0 & Hl0 & Hfm & Hsel & Hstart & Hend).
  exists li, l0. repeat split; auto using lookup_app_l_Some.
  destruct Hend as [Hend|(lj & lc & Hlt & Hlc & Hc & Hr)]; [now left|right].
  exists lj, lc. auto using lookup_app_l_Some.
Qed.

Lemma origin_pushChild (pre : list jsstring) (c : nat) (s : DocumentSymbol) :
  origin pre s -> origin pre (pushChild c s).
Proof. intros H. exact H. Qed.

Lemma origin_new (pre : list jsstring) (l : jsstring) (k : SymbolKind)
    (nm : jsstring) :
  firstMatch patterns l = Some (k, nm) ->
  origin (pre ++ [l]) (newSymbol (Z.of_nat (length pre)) l k nm).
Proof.
  intros H. exists (length pre), l. cbn [newSymbol kind name selectionRange range].
  repeat split; auto. now apply list_lookup_middle.
Qed.

Lemma origin_resolve (pre : list jsstring) (l : jsstring) (s : DocumentSymbol) :
  closesBlock (trim l) = true -> origin pre s ->
  origin (pre ++ [l])
    (setRange (newRange (rstart (range s))
                 (mkPosition (Z.of_nat (length pre)) (strlen l))) s).
Proof.
  intros Hc (li & l0 & Hl0 & Hfm & Hsel & Hstart & _).
  pose proof (lookup_lt_Some _ _ _ Hl0) as Hlt.
  assert (Hnew : newRange (rstart (range s))
                   (mkPosition (Z.of_nat (length pre)) (strlen l))
                 = mkRange (rstart (range s))
                     (mkPosition (Z.of_nat (length pre)) (strlen l))).
  { rewrite Hstart, Hsel. apply newRange_resolved. lia. }
  exists li, l0. cbn [setRange kind name selectionRange range]. rewrite Hnew.
  repeat split; auto using lookup_app_l_Some.
  right. exists (length pre), l. repeat split; auto.
  now apply list_lookup_middle.
Qed.

Lemma origin_scanLine (pre : list jsstring) (l : jsstring) (st : ScanState) :
  Forall (origin pre) (store st) ->
  Forall (origin (pre ++ [l]))
    (store (scanLine (Z.of_nat (length pre)) l st)).
Proof.
  intros H.
  assert (Hgrow : Forall (origin (pre ++ [l])) (store st))
    by (eapply List.Forall_impl; [|exact H]; apply origin_grow).
  destruct (scanLine_cases (Z.of_nat (length pre)) l st)
    as [(Hc & _ & ->)|(_ & -> & _)].
  - unfold trackClose. rewrite Hc.
    destruct (blockStack st) as [|top rest]; [exact Hgrow|].
    destruct (_ <=? fdepth top); [|exact Hgrow]. cbn [store].
    apply Forall_lookup. intros j s Hj. rewrite list_lookup_alter in Hj.
    destruct (decide (symbol top = j)) as [->|];
      [|exact (Forall_lookup_1 _ _ _ _ Hgrow Hj)].
    destruct (store st !! j) as [o|] eqn:Ho; [|discriminate].
    inversion Hj; subst. apply origin_resolve; [exact Hc|].
    exact (Forall_lookup_1 _ _ _ _ H Ho).
  - destruct (defineSymbol_cases (Z.of_nat (length pre)) l st)
      as [[_ ->]|(k & nm & Hfm & Hst & _)]; [exact Hgrow|].
    assert (Hall : Forall (origin (pre ++ [l]))
                     (store st ++ [newSymbol (Z.of_nat (length pre)) l k nm])).
    { apply Forall_app. split; [exact Hgrow|].
      constructor; [now apply origin_new|constructor]. }
    destruct Hst as [(top & below & _ & _ & -> & _)|(_ & -> & _)];
      [|exact Hall].
    apply Forall_alter; [exact Hall|]. intros x _ Hx. exact Hx.
Qed.

(** Every symbol of the store comes from a line of the text. *)
Lemma scan_origin (text : jsstring) :
  Forall (origin (split_nl text)) (store (finalState text)).
Proof.
  apply (scan_ind (fun pre st => Forall (origin pre) (store st)));
    [constructor|].
  intros pre l st H. now apply origin_scanLine.
Qed.

End Origin.

(** ** Names and ranges of the nodes *)

Section NamesAndRanges.

Lemma matchKeywordIdent_validFirst (kw : jsstring) (first : char -> bool)
    (l nm rest : jsstring) :
  matchKeywordIdent kw first l = Some (nm, rest) ->
  exists c w, nm = c :: w /\ first c = true /\ forallb isWord w = true.
Proof.
  intros H.
  apply matchKeywordIdent_inv in H as (ws & c & w & _ & _ & _ & Hc & -> & Hw & _).
  now exists c, w.
Qed.

Lemma firstMatch_validName (l : jsstring) (k : SymbolKind) (nm : jsstring) :
  firstMatch patterns l = Some (k, nm) -> validName k nm = true.
Proof.
  intros H.
  destruct (firstMatch_cases l k nm H)
    as [[-> E]|[[-> E]|[[-> E]|[[-> E]|[-> E]]]]];
    unfold reDef, reClass, reStruct, reEnum, reConst in E;
    match type of E with
    | context [matchKeywordIdent ?kw ?f l] =>
        destruct (matchKeywordIdent kw f l) as [[w rest]|] eqn:Em;
          [|discriminate];
        apply matchKeywordIdent_validFirst in Em as (c & w' & -> & Hc & Hw)
    end.
  1-4: inversion E; subst; cbn [validName firstOfKind]; now rewrite Hc, Hw.
  destruct (dropWhile isWs rest) as [|x r]; [discriminate|].
  destruct (x =? code "=")%N; [|discriminate].
  inversion E; subst. cbn [validName firstOfKind]. now rewrite Hc, Hw.
Qed.

(** X1. Every node of the outline, at any level, has a name that is not
    empty, is made of word characters, begins as the pattern of its kind
    requires (a letter or underscore for a function, an uppercase letter for
    a class, struct or enum, an uppercase letter or underscore for a
    constant), and is a part of the line on which the node is defined. *)
Theorem outline_names (text : jsstring) (n : SymbolNode) :
  In n (allNodes (provideDocumentSymbols text)) ->
  validName (nodeKind n) (nodeName n) = true
  /\ exists (li : nat) (l a b : jsstring),
       nodeLine n = Z.of_nat li /\ split_nl text !! li = Some l
       /\ l = a ++ nodeName n ++ b.
Proof.
  intros H.
  destruct (outline_node_symbol text n H) as (j & s & Hs & _ & Hn & _).
  pose proof (Forall_lookup_1 _ _ _ _ (scan_origin text) Hs)
    as (li & l & Hl & Hfm & Hsel & _).
  rewrite Hn. cbn [nodeKind nodeName]. unfold nodeLine. cbn [nodeSelectionRange].
  split; [exact (firstMatch_validName l _ _ Hfm)|].
  destruct (firstMatch_in_line l _ _ Hfm) as (_ & a & b & Hab).
  exists li, l, a, b. repeat split; auto.
  rewrite Hsel. apply newRange_same_line.
Qed.

Lemma outline_names_witness :
  let n := Node (str "f") Function
             (mkRange (mkPosition 1 4) (mkPosition 2 5))
             (mkRange (mkPosition 1 4) (mkPosition 1 7)) [] in
  validName (nodeKind n) (nodeName n) = true
  /\ exists (li : nat) (l a b : jsstring),
       nodeLine n = Z.of_nat li
       /\ split_nl (str "class A" ++ LF :: str "  def f" ++ LF :: str "  end")
          !! li = Some l
       /\ l = a ++ nodeName n ++ b.
Proof.
  intros n.
  apply (outline_names
           (str "class A" ++ LF :: str "  def f" ++ LF :: str "  end") n).
  right. left. reflexivity.
Defined.

(** X2. Every node of the outline, at any level, has as its selection range
    the part of its definition line from the column found for its name, a
    column on that line, to the end of the line; its range begins at the
    same position and either is the selection range or ends at the end of a
    later line that closes a block. *)
Theorem outline_ranges (text : jsstring) (n : SymbolNode) :
  In n (allNodes (provideDocumentSymbols text)) ->
  exists (li : nat) (l : jsstring),
    split_nl text !! li = Some l
    /\ 0 <= indexOf l (nodeName n) < strlen l
    /\ nodeSelectionRange n
       = mkRange (mkPosition (Z.of_nat li) (indexOf l (nodeName n)))
           (mkPosition (Z.of_nat li) (strlen l))
    /\ rstart (nodeRange n) = rstart (nodeSelectionRange n)
    /\ (nodeRange n = nodeSelectionRange n
        \/ exists (lj : nat) (lc : jsstring),
             (li < lj)%nat /\ split_nl text !! lj = Some lc
             /\ closesBlock (trim lc) = true
             /\ rend (nodeRange n) = mkPosition (Z.of_nat lj) (strlen lc)).
Proof.
  intros H.
  destruct (outline_node_symbol text n H) as (j & s & Hs & _ & Hn & _).
  pose proof (Forall_lookup_1 _ _ _ _ (scan_origin text) Hs)
    as (li & l & Hl & Hfm & Hsel & Hstart & Hend).
  destruct (provisional_range (Z.of_nat li) l _ _ Hfm) as [Hidx Hprov].
  rewrite Hn. cbn [nodeName nodeRange nodeSelectionRange].
  exists li, l. rewrite Hsel, Hprov in *. repeat split; auto; lia.
Qed.

Lemma outline_ranges_witness :
  let n := Node (str "f") Function
             (mkRange (mkPosition 1 4) (mkPosition 2 5))
             (mkRange (mkPosition 1 4) (mkPosition 1 7)) [] in
  exists (li : nat) (l : jsstring),
    split_nl (str "class A" ++ LF :: str "  def f" ++ LF :: str "  end") !! li
    = Some l
    /\ 0 <= indexOf l (nodeName n) < strlen l
    /\ nodeSelectionRange n
       = mkRange (mkPosition (Z.of_nat li) (indexOf l (nodeName n)))
           (mkPosition (Z.of_nat li) (strlen l))
    /\ rstart (nodeRange n) = rstart (nodeSelectionRange n)
    /\ (nodeRange n = nodeSelectionRange n
        \/ exists (lj : nat) (lc : jsstring),
             (li < lj)%nat
             /\ split_nl (str "class A" ++ LF :: str "  def f" ++ LF
                          :: str "  end") !! lj = Some lc
             /\ closesBlock (trim lc) = true
             /\ rend (nodeRange n) = mkPosition (Z.of_nat lj) (strlen lc)).
Proof.
  intros n.
  apply (outline_ranges
           (str "class A" ++ LF :: str "  def f" ++ LF :: str "  end") n).
  right. left. reflexivity.
Defined.

End NamesAndRanges.

(** ** Only functions and enums are nested *)

Section ChildKinds.

Lemma lookup_alter_kind (f : DocumentSymbol -> DocumentSymbol) (p c : nat)
    (objs : list DocumentSymbol) (sc : DocumentSymbol) :
  (forall s, kind (f s) = kind s) -> objs !! c = Some sc ->
  exists sc', alter f p objs !! c = Some sc' /\ kind sc' = kind sc.
Proof.
  intros Hf Hc. rewrite list_lookup_alter.
  destruct (decide (p = c)) as [->|]; [|now exists sc].
  rewrite Hc. exists (f sc). now split.
Qed.

Lemma lookup_alter_inv (f : DocumentSymbol -> DocumentSymbol) (p j : nat)
    (objs : list DocumentSymbol) (s : DocumentSymbol) :
  alter f p objs !! j = Some s ->
  exists o, objs !! j = Some o /\ (s = o \/ (p = j /\ s = f o)).
Proof.
  rewrite list_lookup_alter. destruct (decide (p = j)) as [->|]; intros H.
  - destruct (objs !! j) as [o|]; [|discriminate]. inversion H. eauto.
  - eauto.
Qed.

Lemma childKinds_alter_same (f : DocumentSymbol -> DocumentSymbol) (p : nat)
    (objs : list DocumentSymbol) :
  (forall s, kind (f s) = kind s) -> (forall s, children (f s) = children s) ->
  childKinds objs -> childKinds (alter f p objs).
Proof.
  intros Hk Hch H j s c Hj Hc.
  apply lookup_alter_inv in Hj as (o & Ho & [->|[_ ->]]);
    [|rewrite Hch in Hc];
    destruct (H j o c Ho Hc) as (sc & Hsc & Hkind);
    destruct (lookup_alter_kind f p c objs sc Hk Hsc) as (sc' & Hsc' & E);
    exists sc'; (split; [exact Hsc'|congruence]).
Qed.

Lemma childKinds_new (objs : list DocumentSymbol) (sym : DocumentSymbol) :
  children sym = [] -> childKinds objs -> childKinds (objs ++ [sym]).
Proof.
  intros Hsym H j s c Hj Hc.
  apply lookup_snoc_Some in Hj as [[_ Hj]|[_ <-]].
  - destruct (H j s c Hj Hc) as (sc & Hsc & Hkind).
    exists sc. split; [now apply lookup_app_l_Some|exact Hkind].
  - rewrite Hsym in Hc. contradiction.
Qed.

Lemma childKinds_pushChild (p : nat) (objs : list DocumentSymbol)
    (sym : DocumentSymbol) :
  isFunctionOrEnum (kind sym) = true -> children sym = [] ->
  childKinds objs ->
  childKinds (alter (pushChild (length objs)) p (objs ++ [sym])).
Proof.
  intros Hkind Hsym H j s c Hj Hc.
  pose proof (childKinds_new objs sym Hsym H) as Hnew.
  assert (Hid : (objs ++ [sym]) !! length objs = Some sym)
    by now apply list_lookup_middle.
  assert (Hold : forall c', (exists o, (objs ++ [sym]) !! j = Some o
                                        /\ In c' (children o))
                            \/ c' = length objs ->
                 exists sc, alter (pushChild (length objs)) p (objs ++ [sym])
                            !! c' = Some sc
                            /\ isFunctionOrEnum (kind sc) = true).
  { intros c' [(o & Ho & Hin)| ->].
    - destruct (Hnew j o c' Ho Hin) as (sc & Hsc & Hk).
      destruct (lookup_alter_kind (pushChild (length objs)) p c' _ sc
                  (fun _ => eq_refl) Hsc) as (sc' & Hsc' & E).
      exists sc'. split; [exact Hsc'|congruence].
    - destruct (lookup_alter_kind (pushChild (length objs)) p (length objs) _
                  sym (fun _ => eq_refl) Hid) as (sc' & Hsc' & E).
      exists sc'. split; [exact Hsc'|congruence]. }
  apply lookup_alter_inv in Hj as (o & Ho & [->|[_ ->]]).
  - apply Hold. left. eauto.
  - cbn [pushChild children] in Hc. apply in_app_or in Hc as [Hc|[<-|[]]];
      apply Hold; [left; eauto|now right].
Qed.

Lemma scan_childKinds (text : jsstring) : childKinds (store (finalState text)).
Proof.
  apply (scan_ind (fun _ st => childKinds (store st)));
    [intros j s c Hj; discriminate|].
  intros pre l st H.
  destruct (scanLine_cases (Z.of_nat (length pre)) l st)
    as [(Hc & _ & ->)|(_ & -> & _)].
  - unfold trackClose. rewrite Hc.
    destruct (blockStack st) as [|top rest]; [exact H|].
    destruct (_ <=? fdepth top); [|exact H]. cbn [store].
    now apply childKinds_alter_same.
  - destruct (defineSymbol_cases (Z.of_nat (length pre)) l st)
      as [[_ ->]|(k & nm & Hfm & Hst & _)]; [exact H|].
    destruct Hst as [(top & below & _ & Hk & -> & _)|(_ & -> & _)].
    + now apply childKinds_pushChild.
    + now apply childKinds_new.
Qed.

Lemma Forall2_In_r {A B : Type} (P : A -> B -> Prop) (l : list A) (k : list B)
    (y : B) :
  Forall2 P l k -> In y k -> exists x, In x l /\ P x y.
Proof.
  induction 1 as [|x y' l k Hxy _ IH]; [contradiction|].
  intros [<-|Hin]; [exists x; split; [now left|exact Hxy]|].
  destruct (IH Hin) as (x' & Hx' & HP). exists x'. split; [now right|exact HP].
Qed.

(** X3. In the outline of any text, every node that is a child of another
    node, at any level, is a Function or an Enum: a class, a struct or a
    constant is never nested, wherever its line is. *)
Theorem outline_children_kinds (text : jsstring) (n m : SymbolNode) :
  In n (allNodes (provideDocumentSymbols text)) -> In m (nodeChildren n) ->
  isFunctionOrEnum (nodeKind m) = true.
Proof.
  intros Hn Hm.
  destruct (outline_node_symbol text n Hn) as (j & s & Hs & _ & _ & Hall).
  destruct (Forall2_In_r _ _ _ m Hall Hm) as (c & Hc & Hgm).
  destruct (lookup_graphsFrom _ 0 c m Hgm) as (sc & Hsc & ->).
  destruct (scan_childKinds text j s c Hs Hc) as (sc' & Hsc' & Hk).
  cbn [nodeKind]. congruence.
Qed.

Lemma outline_children_kinds_witness :
  let text := str "def f" ++ LF :: str "class A" ++ LF :: str "enum E" in
  let e := Node (str "E") Enum
             (mkRange (mkPosition 2 5) (mkPosition 2 6))
             (mkRange (mkPosition 2 5) (mkPosition 2 6)) [] in
  let a := Node (str "A") Class
             (mkRange (mkPosition 1 6) (mkPosition 1 7))
             (mkRange (mkPosition 1 6) (mkPosition 1 7)) [e] in
  In a (provideDocumentSymbols text) /\ isFunctionOrEnum (nodeKind e) = true.
Proof.
  intros text e a.
  assert (Ha : In a (provideDocumentSymbols text)) by (right; left; reflexivity).
  split; [exact Ha|].
  apply (outline_children_kinds text a e); [|now left].
  right. left. reflexivity.
Defined.

End ChildKinds.

(** ** The outline follows the order of the lines *)

Section LineOrder.

Lemma increasing_nil {A : Type} (f : A -> Z) : increasing f [].
Proof. intros a b x y _ H. discriminate. Qed.

Lemma increasing_snoc {A : Type} (f : A -> Z) (l : list A) (y : A) :
  increasing f l -> Forall (fun x => f x < f y) l -> increasing f (l ++ [y]).
Proof.
  intros H Hall a b x z Hab Ha Hb.
  apply lookup_snoc_Some in Ha as [[Hla Ha]|[-> <-]];
    apply lookup_snoc_Some in Hb as [[Hlb Hb]|[-> <-]]; try lia.
  - exact (H a b x z Hab Ha Hb).
  - exact (Forall_lookup_1 _ _ _ _ Hall Ha).
Qed.

Lemma increasing_alter (g : DocumentSymbol -> Z)
    (f : DocumentSymbol -> DocumentSymbol) (p : nat)
    (l : list DocumentSymbol) :
  (forall s, g (f s) = g s) -> increasing g l -> increasing g (alter f p l).
Proof.
  intros Hf H a b x y Hab Ha Hb.
  apply lookup_alter_inv in Ha as (x' & Ha & Ex).
  apply lookup_alter_inv in Hb as (y' & Hb & Ey).
  pose proof (H a b x' y' Hab Ha Hb) as Hlt.
  assert (g x = g x') by (destruct Ex as [->|[_ ->]]; auto).
  assert (g y = g y') by (destruct Ey as [->|[_ ->]]; auto).
  lia.
Qed.

Lemma wellLinked_scanLine (i : Z) (l : jsstring) (st : ScanState) :
  wellLinked st -> wellLinked (scanLine i l st).
Proof.
  intros H. unfold scanLine.
  now apply wellLinked_trackClose, wellLinked_trackOpen,
    wellLinked_defineSymbol.
Qed.

Lemma defLine_newSymbol (i : Z) (l : jsstring) (k : SymbolKind) (nm : jsstring) :
  defLine (newSymbol i l k nm) = i.
Proof. unfold defLine, newSymbol, provisional. apply newRange_same_line. Qed.

Lemma inLineOrder_idle (n : nat) (st : ScanState) :
  inLineOrder n st -> inLineOrder (S n) st.
Proof.
  intros (H1 & H2 & H3 & H4 & H5). repeat split; auto.
  eapply List.Forall_impl; [|exact H1]. cbn beta. intros s Hs. lia.
Qed.

Lemma inLineOrder_alter_same (n : nat) (f : DocumentSymbol -> DocumentSymbol)
    (p : nat) (st : ScanState) (syms : list nat) (stack : list Frame) (d : Z) :
  (forall s, selectionRange (f s) = selectionRange s) ->
  (forall s, children (f s) = children s) -> symbols st = syms ->
  inLineOrder n st ->
  inLineOrder n (mkScanState (alter f p (store st)) syms stack d).
Proof.
  intros Hsel Hch <- (H1 & H2 & H3 & H4 & H5).
  assert (Hd : forall s, defLine (f s) = defLine s)
    by (intros s; unfold defLine; now rewrite Hsel).
  unfold inLineOrder. cbn [store symbols]. rewrite length_alter.
  repeat split; auto.
  - apply Forall_alter; [exact H1|]. intros x _ Hx. now rewrite Hd.
  - now apply increasing_alter.
  - apply Forall_alter; [exact H5|]. intros x _ Hx. now rewrite Hch.
Qed.

Lemma inLineOrder_scanLine (pre : list jsstring) (l : jsstring) (st : ScanState) :
  wellLinked st -> inLineOrder (length pre) st ->
  inLineOrder (length (pre ++ [l])) (scanLine (Z.of_nat (length pre)) l st).
Proof.
  intros [Hlinked Hframes] H. rewrite length_app, Nat.add_1_r.
  pose proof (inLineOrder_idle _ _ H) as Hidle.
  destruct (scanLine_cases (Z.of_nat (length pre)) l st)
    as [(Hc & _ & ->)|(_ & Hstore & Hsyms & _)].
  - unfold trackClose. rewrite Hc.
    destruct (blockStack st) as [|top rest]; [exact Hidle|].
    destruct (_ <=? fdepth top); [|exact Hidle].
    now apply inLineOrder_alter_same.
  - destruct H as (H1 & H2 & H3 & H4 & H5).
    unfold inLineOrder. rewrite Hstore, Hsyms.
    destruct (defineSymbol_cases (Z.of_nat (length pre)) l st)
      as [[_ ->]|(k & nm & Hfm & Hst & _)]; [exact Hidle|].
    set (sym := newSymbol (Z.of_nat (length pre)) l k nm) in *.
    assert (Hsym : defLine sym = Z.of_nat (length pre))
      by apply defLine_newSymbol.
    assert (A1 : Forall (fun s => defLine s < Z.of_nat (S (length pre)))
                   (store st ++ [sym])).
    { apply Forall_app. split; [apply Hidle|].
      constructor; [lia|constructor]. }
    assert (A2 : increasing defLine (store st ++ [sym])).
    { apply increasing_snoc; [exact H2|].
      eapply List.Forall_impl; [|exact H1]. cbn beta. intros s Hs. lia. }
    assert (A5 : Forall (fun s => increasing Z.of_nat (children s))
                   (store st ++ [sym])).
    { apply Forall_app. split; [exact H5|].
      constructor; [apply increasing_nil|constructor]. }
    destruct Hst as [(top & below & Hb & _ & -> & ->)|(_ & -> & ->)].
    + rewrite length_alter, length_app, Nat.add_1_r.
      assert (Hd : forall s c, defLine (pushChild c s) = defLine s)
        by reflexivity.
      repeat split.
      * apply Forall_alter; [exact A1|]. intros x _ Hx. exact Hx.
      * now apply increasing_alter.
      * exact H3.
      * eapply List.Forall_impl; [|exact H4]. cbn beta. intros id Hid. lia.
      * apply Forall_alter; [exact A5|]. intros x Hx Hinc.
        cbn [pushChild children]. apply increasing_snoc; [exact Hinc|].
        apply List.Forall_forall. intros c Hc.
        apply lookup_snoc_Some in Hx as [[_ Hx]|[_ <-]]; [|contradiction].
        specialize (Hlinked _ _ _ Hx Hc). lia.
    + rewrite length_app, Nat.add_1_r. repeat split; auto.
      * apply increasing_snoc; [exact H3|].
        eapply List.Forall_impl; [|exact H4]. cbn beta. intros id Hid. lia.
      * apply Forall_app. split.
        -- eapply List.Forall_impl; [|exact H4]. cbn beta. intros id Hid. lia.
        -- constructor; [lia|constructor].
Qed.

Lemma scan_inLineOrder (text : jsstring) :
  wellLinked (finalState text)
  /\ inLineOrder (length (split_nl text)) (finalState text).
Proof.
  apply (scan_ind (fun pre st => wellLinked st /\ inLineOrder (length pre) st)).
  - split; [split; [|constructor]|].
    + intros j s c Hj. discriminate.
    + repeat split; try constructor; apply increasing_nil.
  - intros pre l st [Hw H]. split.
    + now apply wellLinked_scanLine.
    + now apply inLineOrder_scanLine.
Qed.

Lemma nodeLine_graph (objs : list DocumentSymbol) (c : nat) (m : SymbolNode) :
  graphsFrom 0 objs !! c = Some m ->
  exists sc, objs !! c = Some sc /\ nodeLine m = defLine sc.
Proof.
  intros H. destruct (lookup_graphsFrom _ 0 c m H) as (sc & Hsc & ->).
  now exists sc.
Qed.

Lemma increasing_graphs (objs : list DocumentSymbol) (ids : list nat)
    (gs : list SymbolNode) :
  Forall2 (fun c m => graphsFrom 0 objs !! c = Some m) ids gs ->
  increasing Z.of_nat ids -> increasing defLine objs ->
  increasing nodeLine gs.
Proof.
  intros Hall Hids Hobjs a b x y Hab Ha Hb.
  destruct (Forall2_lookup_r _ _ _ _ _ Hall Ha) as (ca & Hca & Hga).
  destruct (Forall2_lookup_r _ _ _ _ _ Hall Hb) as (cb & Hcb & Hgb).
  pose proof (Hids a b ca cb Hab Hca Hcb) as Hlt.
  destruct (nodeLine_graph _ _ _ Hga) as (sa & Hsa & ->).
  destruct (nodeLine_graph _ _ _ Hgb) as (sb & Hsb & ->).
  apply (Hobjs ca cb sa sb); [lia|exact Hsa|exact Hsb].
Qed.

(** X4. The outline follows the order of the lines: the top-level nodes are
    in the order of their definition lines, and so are the children of every
    node, at any level, all of them defined on lines after the line of
    their parent. *)
Theorem outline_line_order (text : jsstring) :
  increasing nodeLine (provideDocumentSymbols text)
  /\ forall n : SymbolNode,
       In n (allNodes (provideDocumentSymbols text)) ->
       increasing nodeLine (nodeChildren n)
       /\ Forall (fun m => nodeLine n < nodeLine m) (nodeChildren n).
Proof.
  destruct (scan_inLineOrder text) as ([Hlinked _] & _ & H2 & H3 & H4 & H5).
  split.
  - apply (increasing_graphs (store (finalState text)) (symbols (finalState text)));
      [|exact H3|exact H2].
    apply omap_Forall2. intros id Hid.
    pose proof (proj1 (List.Forall_forall _ _) H4 id Hid) as Hlt.
    cbn beta in Hlt.
    destruct (lookup_lt_is_Some_2 (graphsFrom 0 (store (finalState text))) id)
      as [g Hg]; [now rewrite length_graphsFrom|].
    now exists g.
  - intros n Hn.
    destruct (outline_node_symbol text n Hn) as (j & s & Hs & _ & Hshape & Hall).
    split.
    + apply (increasing_graphs (store (finalState text)) (children s));
        [exact Hall| |exact H2].
      exact (Forall_lookup_1 _ _ _ _ H5 Hs).
    + apply List.Forall_forall. intros m Hm.
      destruct (Forall2_In_r _ _ _ m Hall Hm) as (c & Hc & Hgm).
      destruct (nodeLine_graph _ _ _ Hgm) as (sc & Hsc & ->).
      rewrite Hshape. unfold nodeLine. cbn [nodeSelectionRange].
      fold (defLine s).
      apply (H2 j c s sc); [|exact Hs|exact Hsc].
      specialize (Hlinked j s c Hs Hc). lia.
Qed.

Lemma outline_line_order_witness :
  let text := str "def f" ++ LF :: str "class A" ++ LF :: str "enum E" in
  let e := Node (str "E") Enum
             (mkRange (mkPosition 2 5) (mkPosition 2 6))
             (mkRange (mkPosition 2 5) (mkPosition 2 6)) [] in
  let a := Node (str "A") Class
             (mkRange (mkPosition 1 6) (mkPosition 1 7))
             (mkRange (mkPosition 1 6) (mkPosition 1 7)) [e] in
  Forall (fun m => nodeLine a < nodeLine m) (nodeChildren a).
Proof.
  intros text e a.
  apply (proj2 (outline_line_order text) a). right. left. reflexivity.
Defined.

End LineOrder.

(** ** Every definition is in the outline exactly once *)

Section Complete.

Lemma omap_ext_In {A B : Type} (f g : A -> option B) (l : list A) :
  (forall a, In a l -> f a = g a) -> omap f l = omap g l.
Proof.
  induction l as [|a l IH]; intros H; [reflexivity|].
  cbn [omap list_omap]. rewrite (H a (or_introl eq_refl)), IH; [reflexivity|].
  intros x Hx. apply H. now right.
Qed.

(** When every address from [base] on is held exactly once, by the list
    [held] or by a child link, and the links go to younger symbols, the
    graphs of [held] with all the nodes below them are the graphs of the
    store, each one once. *)
Lemma graphs_of_held (objs : list DocumentSymbol) :
  forall (base : nat) (held : list nat),
    (forall j s c, objs !! j = Some s -> In c (children s) ->
                   (base + j < c)%nat) ->
    Permutation (held ++ concat (map children objs)) (seq base (length objs)) ->
    Permutation
      (flat_map flatten
         (omap (fun id => graphsFrom base objs !! (id - base)%nat) held))
      (graphsFrom base objs).
Proof.
  induction objs as [|o objs IH]; intros base held Hl HP.
  - cbn in HP. rewrite app_nil_r in HP.
    apply Permutation_sym, Permutation_nil in HP. subst held. constructor.
  - cbn [map concat length seq graphsFrom] in *.
    set (younger := graphsFrom (S base) objs) in *.
    set (g0 := Node (name o) (kind o) (range o) (selectionRange o) _).
    set (C := concat (map children objs)) in *.
    assert (Hbase : In base held).
    { assert (Hin : In base (held ++ children o ++ C))
        by (eapply Permutation_in; [apply Permutation_sym, HP|now left]).
      apply in_app_or in Hin as [Hin|Hin]; [exact Hin|exfalso].
      apply in_app_or in Hin as [Hin|Hin].
      - specialize (Hl 0%nat o base eq_refl Hin). lia.
      - apply in_concat in Hin as (cs & Hcs & Hin).
        apply in_map_iff in Hcs as (s & <- & Hs).
        apply In_lookup in Hs as [j Hj].
        specialize (Hl (S j) s base Hj Hin). lia. }
    apply in_split in Hbase as (R1 & R2 & ->).
    assert (HP' : Permutation ((R1 ++ children o ++ R2) ++ C)
                    (seq (S base) (length objs))).
    { rewrite <- app_assoc in HP. cbn [app] in HP.
      apply Permutation_sym, Permutation_cons_app_inv in HP.
      apply Permutation_sym. etransitivity; [exact HP|].
      rewrite <- !app_assoc. apply Permutation_app_head.
      rewrite !app_assoc. apply Permutation_app_tail, Permutation_app_comm. }
    assert (Hgt : forall id, In id (R1 ++ children o ++ R2) -> (base < id)%nat).
    { intros id Hid.
      assert (In id (seq (S base) (length objs)))
        by (eapply Permutation_in; [exact HP'|apply in_or_app; now left]).
      apply in_seq in H. lia. }
    assert (Hlook : forall l, (forall id, In id l -> (base < id)%nat) ->
              omap (fun id => (g0 :: younger) !! (id - base)%nat) l
              = omap (fun id => younger !! (id - S base)%nat) l).
    { intros l Hlgt. apply omap_ext_In. intros id Hid.
      specialize (Hlgt id Hid).
      now replace (id - base)%nat with (S (id - S base)) by lia. }
    specialize (IH (S base) (R1 ++ children o ++ R2)).
    rewrite !omap_app, !flat_map_app in IH.
    rewrite omap_app. cbn [omap list_omap].
    rewrite Nat.sub_diag. cbn [lookup list_lookup].
    rewrite !Hlook
      by (intros id Hid; apply Hgt; rewrite !in_app_iff; auto).
    assert (Hg0 : flatten g0
                  = g0 :: flat_map flatten
                            (omap (fun id => younger !! (id - S base)%nat)
                               (children o))).
    { subst g0. cbn [flatten]. do 2 f_equal. apply omap_ext_In. intros c Hc.
      destruct (decide (base < c)%nat) as [|Hn]; [reflexivity|].
      exfalso. apply Hn, Hgt. rewrite !in_app_iff. auto. }
    rewrite flat_map_app.
    change (flat_map flatten (g0 :: ?x)) with (flatten g0 ++ flat_map flatten x).
    rewrite Hg0. cbn [app].
    apply Permutation_sym, Permutation_cons_app, Permutation_sym.
    apply IH; [|exact HP'].
    intros j s c Hj Hc. specialize (Hl (S j) s c Hj Hc). lia.
Qed.

Lemma map_alter_same {B : Type} (g : DocumentSymbol -> B)
    (f : DocumentSymbol -> DocumentSymbol) (p : nat)
    (l : list DocumentSymbol) :
  (forall s, g (f s) = g s) -> map g (alter f p l) = map g l.
Proof.
  intros Hf. revert p. induction l as [|o l IH]; intros [|p];
    cbn [alter list_alter map]; try reflexivity.
  - now rewrite Hf.
  - f_equal. apply IH.
Qed.

Lemma concat_children_pushChild (id p : nat) (l : list DocumentSymbol) :
  (p < length l)%nat ->
  Permutation (concat (map children (alter (pushChild id) p l)))
    (id :: concat (map children l)).
Proof.
  revert p. induction l as [|o l IH]; intros p Hp; [cbn in Hp; lia|].
  destruct p as [|p]; cbn [alter list_alter map concat pushChild children].
  - rewrite <- app_assoc. cbn [app]. apply Permutation_sym, Permutation_middle.
  - etransitivity; [apply Permutation_app_head, IH; cbn in Hp; lia|].
    apply Permutation_sym, Permutation_middle.
Qed.

Lemma heldOnce_scanLine (i : Z) (l : jsstring) (st : ScanState) :
  wellLinked st -> heldOnce st -> heldOnce (scanLine i l st).
Proof.
  intros [_ Hframes] H. unfold heldOnce in *.
  destruct (scanLine_cases i l st) as [(Hc & _ & ->)|(_ & -> & -> & _)].
  - unfold trackClose. rewrite Hc.
    destruct (blockStack st) as [|top rest]; [exact H|].
    destruct (_ <=? fdepth top); [|exact H]. cbn [store symbols].
    rewrite length_alter, map_alter_same; [exact H|reflexivity].
  - destruct (defineSymbol_cases i l st)
      as [[_ ->]|(k & nm & Hfm & Hst & _)]; [exact H|].
    assert (Hnew : Permutation
                     ((symbols st ++ [length (store st)])
                      ++ concat (map children (store st)))
                     (seq 0 (S (length (store st))))).
    { rewrite seq_S. cbn [Nat.add]. rewrite <- app_assoc.
      etransitivity; [apply Permutation_app_head, Permutation_app_comm|].
      rewrite app_assoc. now apply Permutation_app_tail. }
    destruct Hst as [(top & below & Hb & _ & -> & ->)|(_ & -> & ->)].
    + rewrite length_alter, length_app, Nat.add_1_r.
      etransitivity; [|exact Hnew].
      etransitivity;
        [apply Permutation_app_head, concat_children_pushChild|].
      * rewrite Hb in Hframes. inversion Hframes; subst.
        rewrite length_app. lia.
      * rewrite map_app, concat_app. cbn. rewrite !app_nil_r.
        rewrite <- app_assoc. apply Permutation_app_head.
        apply Permutation_sym, Permutation_middle.
    + rewrite length_app, Nat.add_1_r, map_app, concat_app. cbn.
      now rewrite !app_nil_r.
Qed.

Lemma scan_heldOnce (text : jsstring) : heldOnce (finalState text).
Proof.
  apply (scan_ind (fun _ st => wellLinked st /\ heldOnce st)).
  - split; [split; [|constructor]|constructor].
    intros j s c Hj. discriminate.
  - intros pre l st [Hw H]. split.
    + now apply wellLinked_scanLine.
    + now apply heldOnce_scanLine.
Qed.

Lemma flatSymbolsFrom_app (a b : list jsstring) (i : Z) :
  flatSymbolsFrom i (a ++ b)
  = flatSymbolsFrom i a ++ flatSymbolsFrom (i + Z.of_nat (length a)) b.
Proof.
  revert i. induction a as [|l a IH]; intros i.
  - cbn [app flatSymbolsFrom length]. now rewrite Z.add_0_r.
  - cbn [app flatSymbolsFrom length]. rewrite IH.
    replace (i + 1 + Z.of_nat (length a)) with (i + Z.of_nat (S (length a)))
      by lia.
    now destruct (firstMatch patterns l) as [[k nm]|].
Qed.

(** The store holds the symbols that the flat provider lists, in the same
    order, with the same kinds, names and lines. *)
Lemma scan_keys (text : jsstring) :
  map symbolKey (store (finalState text))
  = map nodeKey (provideDocumentSymbolsFlat text).
Proof.
  unfold provideDocumentSymbolsFlat.
  apply (scan_ind (fun pre st => map symbolKey (store st)
                                 = map nodeKey (flatSymbolsFrom 0 pre)));
    [reflexivity|].
  intros pre l st H.
  rewrite flatSymbolsFrom_app, map_app, <- H, Z.add_0_l.
  destruct (scanLine_cases (Z.of_nat (length pre)) l st)
    as [(Hc & Hnone & ->)|(_ & -> & _)].
  - cbn [flatSymbolsFrom]. rewrite Hnone. cbn [map]. rewrite app_nil_r.
    unfold trackClose. rewrite Hc.
    destruct (blockStack st) as [|top rest]; [reflexivity|].
    destruct (_ <=? fdepth top); [|reflexivity]. cbn [store].
    now apply map_alter_same.
  - cbn [flatSymbolsFrom].
    destruct (defineSymbol_cases (Z.of_nat (length pre)) l st)
      as [[Hnone ->]|(k & nm & Hfm & Hst & _)].
    + rewrite Hnone. cbn [map]. now rewrite app_nil_r.
    + rewrite Hfm. cbn [map].
      assert (Hkey : map symbolKey
                       (store st ++ [newSymbol (Z.of_nat (length pre)) l k nm])
                     = map symbolKey (store st)
                       ++ [nodeKey
                             (Node nm k
                                (newRange (mkPosition (Z.of_nat (length pre)) 0)
                                   (mkPosition (Z.of_nat (length pre)) (strlen l)))
                                (newRange (mkPosition (Z.of_nat (length pre)) 0)
                                   (mkPosition (Z.of_nat (length pre)) (strlen l)))
                                [])]).
      { rewrite map_app. cbn [map]. do 2 f_equal.
        unfold symbolKey, nodeKey, nodeLine.
        cbn [nodeKind nodeName nodeSelectionRange newSymbol kind name].
        now rewrite defLine_newSymbol, newRange_same_line. }
      destruct Hst as [(top & below & _ & _ & -> & _)|(_ & -> & _)];
        [rewrite map_alter_same by reflexivity|]; exact Hkey.
Qed.

Lemma map_nodeKey_graphsFrom (objs : list DocumentSymbol) (base : nat) :
  map nodeKey (graphsFrom base objs) = map symbolKey objs.
Proof.
  revert base. induction objs as [|o objs IH]; intros base; [reflexivity|].
  cbn [graphsFrom map]. now rewrite IH.
Qed.

(** All the nodes of the outline are the graphs of the store, each once. *)
Lemma outline_graphs (text : jsstring) :
  Permutation (allNodes (provideDocumentSymbols text))
    (graphsFrom 0 (store (finalState text))).
Proof.
  destruct (scan_wellLinked text) as [Hlinked _]. fold (finalState text) in Hlinked.
  pose proof (scan_heldOnce text) as Hheld.
  unfold allNodes, provideDocumentSymbols, forest. fold (finalState text).
  rewrite (omap_ext_In _
             (fun id => graphsFrom 0 (store (finalState text)) !! (id - 0)%nat));
    [|intros id _; now rewrite Nat.sub_0_r].
  apply graphs_of_held; [|exact Hheld].
  intros j s c Hj Hc. specialize (Hlinked j s c Hj Hc). lia.
Qed.

(** X5. Every line that matches a pattern of the table gives exactly one
    node of the outline, at some level, and the outline has no other node:
    with their kinds, names and lines, the nodes of the outline are, up to
    their order, the symbols that the flat provider of the fallback mode
    lists for the same text. *)
Theorem outline_complete (text : jsstring) :
  Permutation (map nodeKey (allNodes (provideDocumentSymbols text)))
    (map nodeKey (provideDocumentSymbolsFlat text)).
Proof.
  rewrite <- scan_keys, <- (map_nodeKey_graphsFrom _ 0).
  apply Permutation_map, outline_graphs.
Qed.

End Complete.

(** ** Balanced texts *)

Section Balanced.

Lemma depthAfter_snoc (pre : list jsstring) (l : jsstring) (k : Z) :
  depthAfter k (pre ++ [l]) = depthAfter k pre + depthChange l.
Proof.
  revert k. induction pre as [|a pre IH]; intros k; [reflexivity|].
  cbn [app depthAfter]. apply IH.
Qed.

Lemma lowestFrom_snoc (pre : list jsstring) (l : jsstring) (k : Z) :
  lowestFrom k (pre ++ [l])
  = Z.min (lowestFrom k pre) (depthAfter k (pre ++ [l])).
Proof.
  revert k. induction pre as [|a pre IH]; intros k; [reflexivity|].
  cbn [app lowestFrom depthAfter]. rewrite IH. apply Z.min_assoc.
Qed.

Lemma lowestFrom_le (pre : list jsstring) (k : Z) :
  lowestFrom k pre <= depthAfter k pre.
Proof.
  revert k. induction pre as [|a pre IH]; intros k; cbn; [lia|].
  specialize (IH (k + depthChange a)). lia.
Qed.

Lemma increasing_tail {A : Type} (f : A -> Z) (x : A) (l : list A) :
  increasing f (x :: l) -> increasing f l.
Proof. intros H a b y z Hab Ha Hb. apply (H (S a) (S b) y z); auto. lia. Qed.

Lemma increasing_head {A : Type} (f : A -> Z) (x : A) (l : list A) :
  increasing f (x :: l) -> Forall (fun y => f x < f y) l.
Proof.
  intros H. apply Forall_lookup. intros b y Hb.
  apply (H 0%nat (S b) x y); auto. lia.
Qed.

Lemma increasing_cons {A : Type} (f : A -> Z) (x : A) (l : list A) :
  Forall (fun y => f x < f y) l -> increasing f l -> increasing f (x :: l).
Proof.
  intros Hx H a b y z Hab Ha Hb. destruct a as [|a], b as [|b]; try lia.
  - inversion Ha; subst. exact (Forall_lookup_1 _ _ _ _ Hx Hb).
  - apply (H a b y z); auto. lia.
Qed.

Lemma openFrames_scanLine (pre : list jsstring) (l : jsstring) (st : ScanState) :
  Forall (origin pre) (store st) -> openFrames pre st ->
  openFrames (pre ++ [l]) (scanLine (Z.of_nat (length pre)) l st).
Proof.
  intros Horigin (Hd & Hbounds & Hsorted & Hstatus).
  pose proof (lowestFrom_le pre 0) as Hlow.
  assert (Hlow' : lowestFrom 0 (pre ++ [l]) <= lowestFrom 0 pre)
    by (rewrite lowestFrom_snoc; lia).
  assert (Hdepth : depth (scanLine (Z.of_nat (length pre)) l st)
                   = depthAfter 0 (pre ++ [l]))
    by (rewrite depth_scanLine, depthAfter_snoc, Hd; unfold depthChange; lia).
  unfold openFrames. split; [exact Hdepth|]. rewrite Hdepth.
  rewrite depthAfter_snoc, <- Hd. unfold depthChange.
  destruct (scanLine_cases (Z.of_nat (length pre)) l st)
    as [(Hc & _ & ->)|(Hc & Hstore & _ & Hstack & _)].
  - rewrite Hc, (closes_not_opens _ Hc). unfold trackClose. rewrite Hc.
    destruct (blockStack st) as [|top rest] eqn:Hb.
    { cbn [blockStack store]. repeat split; auto. }
    pose proof (increasing_head _ _ _ Hsorted) as Hhead.
    inversion Hbounds as [|? ? Htop Hrest]; subst.
    destruct (Z.leb_spec (depth st - 1) (fdepth top)) as [Hle|Hgt];
      cbn [blockStack store].
    + repeat split.
      * apply Forall_lookup. intros b f Hf.
        pose proof (Forall_lookup_1 _ _ _ _ Hrest Hf) as Hfb.
        pose proof (Forall_lookup_1 _ _ _ _ Hhead Hf) as Hfh.
        cbn beta in Hfb, Hfh. lia.
      * exact (increasing_tail _ _ _ Hsorted).
      * intros j s Hj Hk.
        destruct (decide (symbol top = j)) as [<-|Hne].
        2:{ rewrite list_lookup_alter, decide_False in Hj by exact Hne.
            destruct (Hstatus j s Hj Hk) as [[d [E|Hin]]|Hres]; auto.
            - rewrite E in Hne. now cbn in Hne.
            - left. exists d. exact Hin. }
        rewrite list_lookup_alter, decide_True in Hj by reflexivity.
        destruct (store st !! symbol top) as [o|] eqn:Ho; [|discriminate].
        cbn in Hj. inversion Hj; subst s. clear Hj. right.
        pose proof (Forall_lookup_1 _ _ _ _ Horigin Ho)
          as (li & l0 & Hl0 & _ & Hsel & Hstart & _).
        pose proof (lookup_lt_Some _ _ _ Hl0) as Hlt.
        cbn [setRange range].
        assert (Hdef : defLine o = Z.of_nat li)
          by (unfold defLine; rewrite Hsel; apply newRange_same_line).
        unfold defLine in *. cbn [setRange selectionRange]. rewrite Hdef.
        rewrite Hstart, Hsel, newRange_resolved by lia.
        cbn. lia.
    + repeat split; auto.
      constructor; [lia|].
      apply Forall_lookup. intros b f Hf.
      pose proof (Forall_lookup_1 _ _ _ _ Hrest Hf) as Hfb.
      pose proof (Forall_lookup_1 _ _ _ _ Hhead Hf) as Hfh.
      cbn beta in Hfb, Hfh. lia.
  - rewrite Hc, Hstore, Hstack.
    assert (Hkeep : Forall (fun f => lowestFrom 0 (pre ++ [l]) <= fdepth f
                                     < depth st
                                       + ((if opensBlock (trim l) then 1 else 0)
                                          - 0))
                      (blockStack st)).
    { eapply List.Forall_impl; [|exact Hbounds]. cbn beta. intros f Hf.
      destruct (opensBlock (trim l)); lia. }
    destruct (defineSymbol_cases (Z.of_nat (length pre)) l st)
      as [[_ ->]|(k & nm & Hfm & Hst & ->)]; [now repeat split|].
    assert (Hold : forall j s,
               (store st ++ [newSymbol (Z.of_nat (length pre)) l k nm]) !! j
               = Some s ->
               pushesFrame (kind s) = true ->
               (exists d,
                   In (mkFrame j d)
                     (if pushesFrame k
                      then mkFrame (length (store st)) (depth st) :: blockStack st
                      else blockStack st))
               \/ defLine s < line (rend (range s))).
    { intros j s Hj Hk.
      apply lookup_snoc_Some in Hj as [[_ Hj]|[-> <-]].
      - destruct (Hstatus j s Hj Hk) as [[d Hin]|Hres]; [left|now right].
        exists d. destruct (pushesFrame k); [now right|exact Hin].
      - left. cbn [newSymbol kind] in Hk. rewrite Hk.
        exists (depth st). now left. }
    assert (Hstat : forall j s,
               store (defineSymbol (Z.of_nat (length pre)) l st) !! j = Some s ->
               pushesFrame (kind s) = true ->
               (exists d,
                   In (mkFrame j d)
                     (if pushesFrame k
                      then mkFrame (length (store st)) (depth st) :: blockStack st
                      else blockStack st))
               \/ defLine s < line (rend (range s))).
    { destruct Hst as [(top & below & _ & _ & -> & _)|(_ & -> & _)];
        [|exact Hold].
      intros j s Hj Hk.
      apply lookup_alter_inv in Hj as (o & Ho & [->|[_ ->]]);
        exact (Hold j o Ho Hk). }
    destruct (pushesFrame k) eqn:Hpush; [|now repeat split].
    rewrite (firstMatch_opens l k nm Hfm Hpush) in *.
    repeat split; auto.
    + constructor; [cbn [fdepth]; lia|exact Hkeep].
    + apply increasing_cons; [|exact Hsorted].
      eapply List.Forall_impl; [|exact Hbounds]. cbn. intros f Hf. lia.
Qed.

Lemma scan_openFrames (text : jsstring) :
  openFrames (split_nl text) (finalState text).
Proof.
  apply (scan_ind (fun pre st => Forall (origin pre) (store st)
                                 /\ openFrames pre st)).
  - split; [constructor|]. split; [reflexivity|]. split; [constructor|].
    split; [intros a b x y _ Ha; discriminate|].
    intros j s Hj. discriminate.
  - intros pre l st [Ho Hf]. split.
    + now apply origin_scanLine.
    + now apply openFrames_scanLine.
Qed.

Lemma balanced_stack_empty (text : jsstring) :
  balanced text = true -> blockStack (finalState text) = [].
Proof.
  intros H. apply andb_prop in H as [Hlow Hzero].
  apply Z.leb_le in Hlow. apply Z.eqb_eq in Hzero.
  destruct (scan_openFrames text) as (Hd & Hbounds & _).
  destruct (blockStack (finalState text)) as [|f fs]; [reflexivity|].
  inversion Hbounds as [|? ? Hf _]; subst. lia.
Qed.

(** X6. In a text whose blocks are balanced (no line closes more blocks than
    are open, and none is open at the end), every function, class, struct
    and enum of the outline, at any level, has a range that ends at the end
    of a line after its own that closes a block. *)
Theorem balanced_outline_closed (text : jsstring) (n : SymbolNode) :
  balanced text = true ->
  In n (allNodes (provideDocumentSymbols text)) ->
  pushesFrame (nodeKind n) = true ->
  exists (lj : nat) (lc : jsstring),
    nodeLine n < Z.of_nat lj
    /\ split_nl text !! lj = Some lc
    /\ closesBlock (trim lc) = true
    /\ rend (nodeRange n) = mkPosition (Z.of_nat lj) (strlen lc).
Proof.
  intros Hbal H Hk.
  destruct (outline_node_symbol text n H) as (j & s & Hs & _ & Hn & _).
  pose proof (Forall_lookup_1 _ _ _ _ (scan_origin text) Hs)
    as (li & l & Hl & Hfm & Hsel & Hstart & Hend).
  destruct (scan_openFrames text) as (_ & _ & _ & Hstatus).
  rewrite Hn in Hk |- *. cbn [nodeKind nodeLine nodeRange nodeSelectionRange] in *.
  assert (Hdef : defLine s = Z.of_nat li)
    by (unfold defLine; rewrite Hsel; apply newRange_same_line).
  destruct (Hstatus j s Hs Hk) as [[d Hin]|Hres].
  { rewrite (balanced_stack_empty text Hbal) in Hin. destruct Hin. }
  destruct Hend as [E|(lj & lc & Hlt & Hlc & Hc & Hr)].
  - rewrite E in Hres. unfold defLine in *. rewrite Hsel in *.
    destruct (provisional_range (Z.of_nat li) l _ _ Hfm) as [_ Hprov].
    rewrite Hprov in Hres. cbn in Hres. lia.
  - exists lj, lc. unfold nodeLine. cbn [nodeSelectionRange].
    unfold defLine in Hdef. rewrite Hdef. repeat split; auto. lia.
Qed.

Lemma balanced_outline_closed_witness :
  let text := str "class A" ++ LF :: str "  def g" ++ LF :: str "  end" ++ LF
              :: str "end" in
  let n := Node (str "g") Function
             (mkRange (mkPosition 1 6) (mkPosition 2 5))
             (mkRange (mkPosition 1 6) (mkPosition 1 7)) [] in
  exists (lj : nat) (lc : jsstring),
    nodeLine n < Z.of_nat lj
    /\ split_nl text !! lj = Some lc
    /\ closesBlock (trim lc) = true
    /\ rend (nodeRange n) = mkPosition (Z.of_nat lj) (strlen lc).
Proof.
  apply balanced_outline_closed.
  - vm_compute. reflexivity.
  - vm_compute. right. left. reflexivity.
  - reflexivity.
Defined.

End Balanced.

(** ** Constants *)

Section Constants.

Lemma frames_alter (f : DocumentSymbol -> DocumentSymbol) (p : nat)
    (objs : list DocumentSymbol) (fs : list Frame) :
  (forall s, kind (f s) = kind s) ->
  Forall (fun fr => exists s, objs !! symbol fr = Some s
                              /\ pushesFrame (kind s) = true) fs ->
  Forall (fun fr => exists s, alter f p objs !! symbol fr = Some s
                              /\ pushesFrame (kind s) = true) fs.
Proof.
  intros Hf H. eapply List.Forall_impl; [|exact H]. cbn beta.
  intros fr (s & Hs & Hk).
  destruct (lookup_alter_kind f p _ _ _ Hf Hs) as (s' & Hs' & E).
  exists s'. rewrite E. now split.
Qed.

Lemma frames_grow (objs : list DocumentSymbol) (s0 : DocumentSymbol)
    (fs : list Frame) :
  Forall (fun fr => exists s, objs !! symbol fr = Some s
                              /\ pushesFrame (kind s) = true) fs ->
  Forall (fun fr => exists s, (objs ++ [s0]) !! symbol fr = Some s
                              /\ pushesFrame (kind s) = true) fs.
Proof.
  intros H. eapply List.Forall_impl; [|exact H]. cbn beta.
  intros fr (s & Hs & Hk). exists s. split; [|exact Hk].
  apply lookup_app_l_Some. exact Hs.
Qed.

Lemma plainLeaf_alter (f : DocumentSymbol -> DocumentSymbol) (p : nat)
    (objs : list DocumentSymbol) (o : DocumentSymbol) :
  (forall s, kind (f s) = kind s) ->
  objs !! p = Some o -> pushesFrame (kind o) = true ->
  Forall plainLeaf objs -> Forall plainLeaf (alter f p objs).
Proof.
  intros Hf Ho Hk H. apply Forall_lookup. intros j s Hj.
  apply lookup_alter_inv in Hj as (o' & Ho' & [->|[<- ->]]).
  - exact (Forall_lookup_1 _ _ _ _ H Ho').
  - intros Hn. rewrite Hf in Hn. congruence.
Qed.

Lemma framesOfBlocks_scanLine (i : Z) (l : jsstring) (st : ScanState) :
  framesOfBlocks st -> framesOfBlocks (scanLine i l st).
Proof.
  intros [Hframes Hleaves]. unfold framesOfBlocks.
  destruct (scanLine_cases i l st)
    as [(Hc & _ & ->)|(_ & -> & _ & -> & _)].
  - unfold trackClose. rewrite Hc.
    destruct (blockStack st) as [|top rest] eqn:Hb; [now split|].
    destruct (depth st - 1 <=? fdepth top); cbn [blockStack store];
      [|now split].
    inversion Hframes as [|? ? (o & Ho & Hk) Hrest]; subst. split.
    + now apply frames_alter.
    + now apply (plainLeaf_alter _ _ _ o).
  - destruct (defineSymbol_cases i l st)
      as [[_ ->]|(k & nm & _ & Hst & ->)]; [now split|].
    assert (Hnew : Forall plainLeaf (store st ++ [newSymbol i l k nm])).
    { apply Forall_app. split; [exact Hleaves|].
      constructor; [|constructor]. intros _. now split. }
    assert (Hgrown : Forall (fun fr => exists s,
                        (store st ++ [newSymbol i l k nm]) !! symbol fr = Some s
                        /\ pushesFrame (kind s) = true)
                       (if pushesFrame k
                        then mkFrame (length (store st)) (depth st)
                             :: blockStack st
                        else blockStack st)).
    { pose proof (frames_grow _ (newSymbol i l k nm) _ Hframes) as Hg.
      destruct (pushesFrame k) eqn:Hk; [|exact Hg].
      constructor; [|exact Hg]. exists (newSymbol i l k nm).
      split; [|exact Hk]. cbn [symbol]. apply list_lookup_middle. reflexivity. }
    destruct Hst as [(top & below & Hb & _ & -> & _)|(_ & -> & _)];
      [|now split].
    rewrite Hb in Hframes.
    inversion Hframes as [|? ? (o & Ho & Hk) _]; subst. split.
    + now apply frames_alter.
    + apply (plainLeaf_alter _ _ _ o); auto.
      apply lookup_app_l_Some. exact Ho.
Qed.

Lemma scan_framesOfBlocks (text : jsstring) : framesOfBlocks (finalState text).
Proof.
  apply (scan_ind (fun _ st => framesOfBlocks st)).
  - split; constructor.
  - intros pre l st. apply framesOfBlocks_scanLine.
Qed.

(** X7. A constant of the outline is a leaf on one line, in any text: it has
    no children and its range is its selection range, whatever lines that
    close blocks follow it. *)
Theorem outline_constant_leaf (text : jsstring) (n : SymbolNode) :
  In n (allNodes (provideDocumentSymbols text)) ->
  nodeKind n = Constant ->
  nodeChildren n = [] /\ nodeRange n = nodeSelectionRange n.
Proof.
  intros H Hk.
  destruct (outline_node_symbol text n H) as (j & s & Hs & _ & Hn & Hcs).
  destruct (scan_framesOfBlocks text) as [_ Hleaves].
  pose proof (Forall_lookup_1 _ _ _ _ Hleaves Hs) as Hleaf.
  rewrite Hn in Hk. cbn [nodeKind] in Hk.
  destruct Hleaf as [Hr Hc]; [now rewrite Hk|].
  rewrite Hc in Hcs. inversion Hcs as [E|]. split; [reflexivity|].
  rewrite Hn. cbn [nodeRange nodeSelectionRange]. exact Hr.
Qed.

Lemma outline_constant_leaf_witness :
  let text := str "class A" ++ LF :: str "  const N = 1" ++ LF :: str "end" in
  let n := Node (str "N") Constant
             (mkRange (mkPosition 1 8) (mkPosition 1 13))
             (mkRange (mkPosition 1 8) (mkPosition 1 13)) [] in
  nodeChildren n = [] /\ nodeRange n = nodeSelectionRange n.
Proof.
  apply (outline_constant_leaf
           (str "class A" ++ LF :: str "  const N = 1" ++ LF :: str "end")).
  - vm_compute. right. left. reflexivity.
  - reflexivity.
Defined.

End Constants.

(** ** Top-level symbols *)

Section TopLevel.

(** X8. A class, a struct and a constant are always top-level nodes of the
    outline, also when they are defined inside the block of another symbol:
    only functions and enums are ever nested. *)
Theorem outline_types_top_level (text : jsstring) (n : SymbolNode) :
  In n (allNodes (provideDocumentSymbols text)) ->
  isFunctionOrEnum (nodeKind n) = false ->
  In n (provideDocumentSymbols text).
Proof.
  intros H Hk.
  destruct (outline_node_symbol text n H) as (j & s & Hs & Hg & Hn & _).
  pose proof (lookup_lt_Some _ _ _ Hs) as Hlt.
  assert (Hj : In j (seq 0 (length (store (finalState text)))))
    by (apply in_seq; lia).
  apply (Permutation_in _ (Permutation_sym (scan_heldOnce text))) in Hj.
  apply in_app_or in Hj as [Hj|Hj].
  - unfold provideDocumentSymbols, forest. fold (finalState text).
    apply list_elem_of_In, list_elem_of_omap. exists j.
    split; [now apply list_elem_of_In|exact Hg].
  - apply in_concat in Hj as (cs & Hcs & Hj).
    apply in_map_iff in Hcs as (p & <- & Hp).
    apply In_lookup in Hp as (i & Hi).
    destruct (scan_childKinds text i p j Hi Hj) as (sc & Hsc & Hkind).
    rewrite Hs in Hsc. inversion Hsc; subst sc.
    rewrite Hn in Hk. cbn [nodeKind] in Hk. congruence.
Qed.

Lemma outline_types_top_level_witness :
  let text := str "class A" ++ LF :: str "  class B" ++ LF :: str "  end" ++ LF
              :: str "end" in
  In (Node (str "B") Class
        (mkRange (mkPosition 1 8) (mkPosition 2 5))
        (mkRange (mkPosition 1 8) (mkPosition 1 9)) [])
    (provideDocumentSymbols text).
Proof.
  apply outline_types_top_level.
  - vm_compute. right. left. reflexivity.
  - reflexivity.
Defined.

End TopLevel.

(** ** The table of patterns *)

Section PatternTable.

Lemma matchKeywordIdent_keyword (kw : jsstring) (first : char -> bool)
    (line : jsstring) (m : jsstring * jsstring) :
  matchKeywordIdent kw first line = Some m ->
  exists r, dropWhile isWs line = kw ++ r.
Proof.
  unfold matchKeywordIdent.
  destruct (stripPrefix kw (dropWhile isWs line)) as [s|] eqn:E;
    [|discriminate].
  intros _. exists s. now apply stripPrefix_Some.
Qed.

Lemma fmap_keyword (kw : jsstring) (first : char -> bool) (line nm : jsstring) :
  fst <$> matchKeywordIdent kw first line = Some nm ->
  exists r, dropWhile isWs line = kw ++ r.
Proof.
  destruct (matchKeywordIdent kw first line) as [m|] eqn:E; [|discriminate].
  intros _. exact (matchKeywordIdent_keyword _ _ _ _ E).
Qed.

Lemma reConst_keyword (line nm : jsstring) :
  reConst line = Some nm -> exists r, dropWhile isWs line = str "const" ++ r.
Proof.
  unfold reConst.
  destruct (matchKeywordIdent (str "const") isUpperUnderscore line) as [m|] eqn:E;
    [|discriminate].
  intros _. exact (matchKeywordIdent_keyword _ _ _ _ E).
Qed.

(** The five expressions begin with different keywords: at most one of them
    matches a line. *)
Lemma patterns_exclusive (line : jsstring)
    (re1 re2 : jsstring -> option jsstring) (k1 k2 : SymbolKind)
    (nm1 nm2 : jsstring) :
  In (re1, k1) patterns -> In (re2, k2) patterns ->
  re1 line = Some nm1 -> re2 line = Some nm2 -> k1 = k2 /\ nm1 = nm2.
Proof.
  unfold patterns. intros H1 H2 E1 E2.
  repeat (destruct H1 as [H1|H1]; [inversion H1; subst; clear H1|]);
    try contradiction;
    repeat (destruct H2 as [H2|H2]; [inversion H2; subst; clear H2|]);
    try contradiction;
    try (split; [reflexivity|congruence]);
    exfalso;
    first [apply fmap_keyword in E1 as [r1 R1]
          |apply reConst_keyword in E1 as [r1 R1]];
    first [apply fmap_keyword in E2 as [r2 R2]
          |apply reConst_keyword in E2 as [r2 R2]];
    rewrite R1 in R2; cbn in R2; inversion R2.
Qed.

Lemma firstMatch_In (pats : list ((jsstring -> option jsstring) * SymbolKind))
    (line : jsstring) (k : SymbolKind) (nm : jsstring) :
  firstMatch pats line = Some (k, nm) ->
  exists re, In (re, k) pats /\ re line = Some nm.
Proof.
  induction pats as [|[re k0] pats IH]; [discriminate|]. cbn [firstMatch].
  destruct (re line) as [nm0|] eqn:E.
  - intros H. inversion H; subst. exists re. split; [now left|exact E].
  - intros H. destruct (IH H) as (re' & Hin & E'). exists re'.
    split; [now right|exact E'].
Qed.

Lemma firstMatch_None (pats : list ((jsstring -> option jsstring) * SymbolKind))
    (line : jsstring) (re : jsstring -> option jsstring) (k : SymbolKind) :
  firstMatch pats line = None -> In (re, k) pats -> re line = None.
Proof.
  induction pats as [|[re0 k0] pats IH]; [contradiction|]. cbn [firstMatch].
  destruct (re0 line) as [nm0|] eqn:E; [discriminate|].
  intros H [Hin|Hin]; [inversion Hin; now subst|auto].
Qed.

(** X9. The order of the table of patterns does not matter: the five
    expressions begin with different keywords, so the loop over the table,
    which stops at the first expression that matches, finds the same kind
    and name for a line in whatever order the entries are tried. *)
Theorem firstMatch_order_irrelevant
    (pats : list ((jsstring -> option jsstring) * SymbolKind))
    (line : jsstring) :
  Permutation pats patterns ->
  firstMatch pats line = firstMatch patterns line.
Proof.
  intros Hp.
  destruct (firstMatch patterns line) as [[k nm]|] eqn:E.
  - apply firstMatch_In in E as (re & Hin & Hre).
    destruct (firstMatch pats line) as [[k' nm']|] eqn:E'.
    + apply firstMatch_In in E' as (re' & Hin' & Hre').
      apply (Permutation_in _ Hp) in Hin'.
      destruct (patterns_exclusive line re' re k' k nm' nm Hin' Hin Hre' Hre)
        as [-> ->].
      reflexivity.
    + apply (Permutation_in _ (Permutation_sym Hp)) in Hin.
      rewrite (firstMatch_None _ _ _ _ E' Hin) in Hre. discriminate.
  - destruct (firstMatch pats line) as [[k' nm']|] eqn:E'; [|reflexivity].
    apply firstMatch_In in E' as (re' & Hin' & Hre').
    apply (Permutation_in _ Hp) in Hin'.
    rewrite (firstMatch_None _ _ _ _ E Hin') in Hre'. discriminate.
Qed.

Lemma firstMatch_order_irrelevant_witness :
  firstMatch (rev patterns) (str "const N = 1")
  = firstMatch patterns (str "const N = 1").
Proof.
  apply firstMatch_order_irrelevant.
  apply Permutation_sym, Permutation_rev.
Defined.

End PatternTable.

(** * Further properties of the diagnostics *)

(** ** The two handlers *)

Section TwoHandlers.

Lemma diagnoseOnSave_diagnose (errLine : jsstring) :
  diagnoseOnSave errLine = atLineZero errLine <$> diagnose errLine.
Proof.
  unfold diagnoseOnSave, diagnose, atLineZero, proseOnly.
  destruct (bracketMatch errLine) as [[[d1 d2] m]|].
  - now destruct (newDiagnostic _ m Error).
  - destruct (lineMatch errLine) as [n|].
    + now destruct (trim errLine).
    + now destruct (newDiagnostic _ (trim errLine) Error).
Qed.

Lemma diagnoseOnSave_same (errLine : jsstring) :
  proseOnly errLine = false -> diagnoseOnSave errLine = diagnose errLine.
Proof.
  intros H. rewrite diagnoseOnSave_diagnose. unfold atLineZero. rewrite H.
  now destruct (diagnose errLine).
Qed.

Lemma pushDiagnostics_ext (f g : jsstring -> option Diagnostic)
    (lines : list jsstring) :
  Forall (fun l => f l = g l) lines ->
  forall acc, pushDiagnostics f lines acc = pushDiagnostics g lines acc.
Proof.
  induction 1 as [|l ls Hl _ IH]; intros acc; cbn [pushDiagnostics];
    [reflexivity|].
  rewrite Hl. destruct (isBlank l); [apply IH|].
  destruct (g l); [apply IH|reflexivity].
Qed.

(** The diagnostics of the loop are those of the lines that are not blank,
    one for one and in their order. *)
Lemma pushDiagnostics_Forall2 (f : jsstring -> option Diagnostic)
    (lines : list jsstring) :
  forall (acc ds : list Diagnostic),
    pushDiagnostics f lines acc = Some ds ->
    exists found,
      ds = acc ++ found
      /\ Forall2 (fun l d => f l = Some d) (List.filter nonBlank lines) found.
Proof.
  induction lines as [|l ls IH]; intros acc ds H; cbn [pushDiagnostics] in H.
  - inversion H; subst. exists []. split; [now rewrite app_nil_r|constructor].
  - cbn [List.filter]. unfold nonBlank at 1.
    destruct (isBlank l); cbn [negb]; [now apply IH|].
    destruct (f l) as [d|] eqn:Hd; [|discriminate].
    destruct (IH _ _ H) as (found & -> & Hall).
    exists (d :: found). split; [now rewrite <- app_assoc|].
    now constructor.
Qed.

Lemma pushDiagnostics_onSave (lines : list jsstring) :
  forall acc : list Diagnostic,
    pushDiagnostics diagnoseOnSave lines acc
    = (fun found =>
         acc ++ zip_with atLineZero (List.filter nonBlank lines) found)
      <$> pushDiagnostics diagnose lines [].
Proof.
  induction lines as [|l ls IH]; intros acc; cbn [pushDiagnostics List.filter].
  - cbn. now rewrite app_nil_r.
  - unfold nonBlank at 1. destruct (isBlank l); cbn [negb]; [apply IH|].
    rewrite diagnoseOnSave_diagnose.
    destruct (diagnose l) as [d|]; [|reflexivity].
    cbn [fmap option_fmap option_map]. rewrite IH.
    rewrite (pushDiagnostics_acc diagnose ls ([] ++ [d])).
    destruct (pushDiagnostics diagnose ls []) as [found|]; [|reflexivity].
    cbn. now rewrite <- app_assoc.
Qed.

(** X10. The handler that runs on save in [src/extension.ts] ends with an
    exception on the same error texts as [runDiagnostics]; otherwise it
    reports the same diagnostics, one for each line that is not blank,
    except that the diagnostic of a line that has only the "line N" form
    is at line 0. For a text without such a line the two results are
    equal. *)
Theorem locateOnSave_locate (text : jsstring) :
  locateOnSave text
  = zip_with atLineZero (List.filter nonBlank (split_nl text)) <$> locate text
  /\ (forall found : list Diagnostic,
         locate text = Some found ->
         Forall2 (fun l d => diagnose l = Some d)
           (List.filter nonBlank (split_nl text)) found)
  /\ (Forall (fun l => proseOnly l = false) (split_nl text) ->
      locateOnSave text = locate text).
Proof.
  rewrite locateOnSave_parse, locate_parse. split; [|split].
  - apply (pushDiagnostics_onSave (split_nl text) []).
  - intros found H.
    destruct (pushDiagnostics_Forall2 _ _ _ _ H) as (found' & -> & Hall).
    exact Hall.
  - intros H. apply pushDiagnostics_ext.
    eapply List.Forall_impl; [|exact H]. apply diagnoseOnSave_same.
Qed.

Lemma locateOnSave_locate_witness :
  locateOnSave (str "[3:5] unexpected token" ++ LF :: str "boom")
  = locate (str "[3:5] unexpected token" ++ LF :: str "boom").
Proof.
  apply (proj2 (proj2 (locateOnSave_locate
                         (str "[3:5] unexpected token" ++ LF :: str "boom")))).
  vm_compute. repeat constructor.
Defined.

End TwoHandlers.

(** ** Line ends *)

Section LineEnds.

Lemma span_snoc_stop (p : char -> bool) (a : jsstring) (x : char) :
  p x = false -> span p (a ++ [x]) = (takeWhile p a, dropWhile p a ++ [x]).
Proof.
  intros Hx. unfold takeWhile, dropWhile.
  induction a as [|c a IH]; simpl; [now rewrite Hx|].
  destruct (p c); [|reflexivity].
  rewrite IH. now destruct (span p a).
Qed.

Lemma span_snoc_go (p : char -> bool) (a : jsstring) (x : char) :
  p x = true ->
  span p (a ++ [x])
  = match dropWhile p a with
    | [] => (a ++ [x], [])
    | _ :: _ => (takeWhile p a, dropWhile p a ++ [x])
    end.
Proof.
  intros Hx. unfold takeWhile, dropWhile.
  induction a as [|c a IH]; simpl; [now rewrite Hx|].
  destruct (p c); [|reflexivity].
  rewrite IH. destruct (span p a) as [u [|v vs]]; reflexivity.
Qed.

Lemma dropWhile_snoc_CR (r : jsstring) :
  dropWhile isWs (r ++ [CR])
  = match dropWhile isWs r with
    | [] => []
    | _ :: _ => dropWhile isWs r ++ [CR]
    end.
Proof.
  unfold dropWhile at 1. rewrite span_snoc_go by reflexivity.
  now destruct (dropWhile isWs r).
Qed.

Lemma trim_snoc_CR (l : jsstring) : trim (l ++ [CR]) = trim l.
Proof.
  unfold trim. rewrite dropWhile_snoc_CR.
  destruct (dropWhile isWs l) as [|c d]; [reflexivity|].
  rewrite rev_app_distr.
  change (rev [CR] ++ rev (c :: d)) with (CR :: rev (c :: d)).
  unfold dropWhile.
  change (span isWs (CR :: rev (c :: d)))
    with (let '(a, b) := span isWs (rev (c :: d)) in (CR :: a, b)).
  now destruct (span isWs (rev (c :: d))).
Qed.

Lemma message_snoc_CR (r : jsstring) :
  takeWhile notLineTerminator (dropWhile isWs (r ++ [CR]))
  = takeWhile notLineTerminator (dropWhile isWs r).
Proof.
  rewrite dropWhile_snoc_CR.
  destruct (dropWhile isWs r) as [|c d]; [reflexivity|].
  unfold takeWhile at 1. now rewrite span_snoc_stop by reflexivity.
Qed.

Lemma matchBracketAt_snoc_CR (s : jsstring) :
  matchBracketAt (s ++ [CR]) = matchBracketAt s.
Proof.
  destruct s as [|c r]; [reflexivity|]. cbn [app matchBracketAt].
  destruct (c =? code "[")%N; [|reflexivity].
  rewrite span_snoc_stop, (span_fst_snd isDigit r) by reflexivity.
  destruct (takeWhile isDigit r) as [|x d1],
           (dropWhile isDigit r) as [|c1 r1]; try reflexivity.
  cbn [app]. destruct (c1 =? code ":")%N; [|reflexivity].
  rewrite span_snoc_stop, (span_fst_snd isDigit r1) by reflexivity.
  destruct (takeWhile isDigit r1) as [|y d2],
           (dropWhile isDigit r1) as [|c2 r2]; try reflexivity.
  cbn [app]. destruct (c2 =? code "]")%N; [|reflexivity].
  now rewrite message_snoc_CR.
Qed.

Lemma bracketMatch_snoc_CR (s : jsstring) :
  bracketMatch (s ++ [CR]) = bracketMatch s.
Proof.
  induction s as [|c r IH]; [reflexivity|]. cbn [app bracketMatch].
  rewrite (matchBracketAt_snoc_CR (c :: r)
           : matchBracketAt (c :: r ++ [CR]) = _).
  now rewrite IH.
Qed.

Lemma matchLineAt_snoc_CR (s : jsstring) :
  matchLineAt (s ++ [CR]) = matchLineAt s.
Proof.
  destruct s as [|c1 [|c2 [|c3 [|c4 r]]]]; try reflexivity.
  - cbn [app matchLineAt].
    destruct (eqCaseInsensitive (code "l") c1),
             (eqCaseInsensitive (code "i") c2),
             (eqCaseInsensitive (code "n") c3); reflexivity.
  - cbn [app matchLineAt].
    destruct (eqCaseInsensitive (code "l") c1
              && eqCaseInsensitive (code "i") c2
              && eqCaseInsensitive (code "n") c3
              && eqCaseInsensitive (code "e") c4); [|reflexivity].
    rewrite span_snoc_go, (span_fst_snd isWs r) by reflexivity.
    destruct (dropWhile isWs r) as [|x r1].
    + destruct r as [|c r]; [reflexivity|].
      cbn [app]. now destruct (takeWhile isWs (c :: r)).
    + destruct (takeWhile isWs r) as [|w ws]; [reflexivity|].
      rewrite span_snoc_stop, (span_fst_snd isDigit (x :: r1)) by reflexivity.
      now destruct (takeWhile isDigit (x :: r1)).
Qed.

Lemma lineMatch_snoc_CR (s : jsstring) : lineMatch (s ++ [CR]) = lineMatch s.
Proof.
  induction s as [|c r IH]; [reflexivity|]. cbn [app lineMatch].
  rewrite (matchLineAt_snoc_CR (c :: r) : matchLineAt (c :: r ++ [CR]) = _).
  now rewrite IH.
Qed.

Lemma diagnose_snoc_CR (l : jsstring) :
  nonBlank (l ++ [CR]) = nonBlank l /\ diagnose (l ++ [CR]) = diagnose l.
Proof.
  unfold nonBlank, isBlank, diagnose.
  now rewrite bracketMatch_snoc_CR, lineMatch_snoc_CR, trim_snoc_CR.
Qed.

Lemma split_nl_crlf (s : jsstring) :
  Forall2 (fun l l' => l' = l \/ l' = l ++ [CR]) (split_nl s) (split_nl (crlf s)).
Proof.
  induction s as [|c r IH]; [repeat constructor|].
  cbn [split_nl crlf]. change 10%N with LF. destruct (c =? LF)%N eqn:Hc.
  - change (split_nl (CR :: LF :: crlf r)) with ([CR] :: split_nl (crlf r)).
    constructor; [now right|exact IH].
  - cbn [split_nl]. change 10%N with LF. rewrite Hc.
    destruct IH as [|l l' ls ls' Hl Hls]; [repeat constructor|].
    constructor; [|exact Hls]. destruct Hl as [->| ->]; auto.
Qed.

(** X11. The diagnostics do not depend on the line ends of the error text:
    the text with carriage return and line feed at the end of its lines
    gives the same diagnostics as the text with line feed only. *)
Theorem locate_crlf (text : jsstring) : locate (crlf text) = locate text.
Proof.
  rewrite !locate_parse. generalize (@nil Diagnostic).
  induction (split_nl_crlf text) as [|l l' ls ls' Hl _ IH]; intros acc;
    [reflexivity|].
  cbn [pushDiagnostics].
  assert (E : nonBlank l' = nonBlank l /\ diagnose l' = diagnose l)
    by (destruct Hl as [->| ->]; [now split|apply diagnose_snoc_CR]).
  destruct E as [Hnb ->]. unfold nonBlank in Hnb.
  apply (f_equal negb) in Hnb. rewrite !negb_involutive in Hnb. rewrite Hnb.
  destruct (isBlank l); [apply IH|].
  destruct (diagnose l); [apply IH|reflexivity].
Qed.

End LineEnds.

(** * The outline of a document with carriage returns *)

Section CarriageReturns.

Lemma stripPrefix_snoc (kw d : jsstring) (x : char) :
  ~ In x kw ->
  stripPrefix kw (d ++ [x]) = (fun r => r ++ [x]) <$> stripPrefix kw d.
Proof.
  revert d. induction kw as [|a kw IH]; intros d Hx; [reflexivity|].
  destruct d as [|c d]; cbn [app stripPrefix].
  - destruct (N.eqb_spec x a) as [->|_]; [|reflexivity].
    exfalso. apply Hx. now left.
  - destruct (c =? a)%N; [|reflexivity].
    apply IH. intros H. apply Hx. now right.
Qed.

Lemma matchKeywordIdent_snoc_CR (kw : jsstring) (first : char -> bool)
    (l : jsstring) :
  ~ In CR kw ->
  matchKeywordIdent kw first (l ++ [CR])
  = (fun m => (fst m, snd m ++ [CR])) <$> matchKeywordIdent kw first l.
Proof.
  intros Hkw. unfold matchKeywordIdent. rewrite dropWhile_snoc_CR.
  destruct (dropWhile isWs l) as [|c d] eqn:E; [destruct kw; reflexivity|].
  rewrite stripPrefix_snoc by exact Hkw.
  destruct (stripPrefix kw (c :: d)) as [s|]; [|reflexivity].
  cbn [fmap option_fmap option_map].
  rewrite span_snoc_go, (span_fst_snd isWs s) by reflexivity.
  destruct (dropWhile isWs s) as [|x r].
  - destruct s as [|y s]; [reflexivity|].
    cbn [app]. now destruct (takeWhile isWs (y :: s)).
  - destruct (takeWhile isWs s) as [|w ws]; [reflexivity|].
    cbn [app]. destruct (first x); [|reflexivity].
    rewrite span_snoc_stop, (span_fst_snd isWord r) by reflexivity.
    reflexivity.
Qed.

Lemma capture_snoc_CR (kw : jsstring) (first : char -> bool) (l : jsstring) :
  ~ In CR kw ->
  fst <$> matchKeywordIdent kw first (l ++ [CR])
  = fst <$> matchKeywordIdent kw first l.
Proof.
  intros H. rewrite matchKeywordIdent_snoc_CR by exact H.
  now destruct (matchKeywordIdent kw first l) as [[w r]|].
Qed.

Ltac no_CR := let H := fresh in intro H; vm_compute in H; intuition discriminate.

Lemma reConst_snoc_CR (l : jsstring) : reConst (l ++ [CR]) = reConst l.
Proof.
  unfold reConst. rewrite matchKeywordIdent_snoc_CR by no_CR.
  destruct (matchKeywordIdent _ _ l) as [[w rest]|]; [|reflexivity].
  cbn [fmap option_fmap option_map fst snd]. rewrite dropWhile_snoc_CR.
  now destruct (dropWhile isWs rest).
Qed.

Lemma firstMatch_snoc_CR (l : jsstring) :
  firstMatch patterns (l ++ [CR]) = firstMatch patterns l.
Proof.
  unfold patterns, firstMatch, reDef, reClass, reStruct, reEnum.
  now rewrite !capture_snoc_CR, reConst_snoc_CR by no_CR.
Qed.

Lemma startsWith_app_long (p s t : jsstring) :
  (length p <= length s)%nat -> startsWith p (s ++ t) = startsWith p s.
Proof.
  unfold startsWith. revert s.
  induction p as [|a p IH]; intros s H; [reflexivity|].
  destruct s as [|c s]; [cbn in H; lia|]. cbn [app stripPrefix].
  destruct (c =? a)%N; [|reflexivity]. apply IH. cbn in H. lia.
Qed.

Lemma indexOfFrom_app (p a b t : jsstring) (i : Z) :
  indexOfFrom p ((a ++ p ++ b) ++ t) i = indexOfFrom p (a ++ p ++ b) i.
Proof.
  revert i. induction a as [|c a IH]; intros i.
  - cbn [app]. rewrite !indexOfFrom_head; [reflexivity|apply startsWith_app|].
    rewrite <- app_assoc. apply startsWith_app.
  - pose proof (startsWith_app_long p (c :: a ++ p ++ b) t) as E.
    cbn [app indexOfFrom] in *. rewrite E by (cbn [length]; rewrite !length_app; lia).
    destruct (startsWith p (c :: a ++ p ++ b)); [reflexivity|apply IH].
Qed.

Lemma firstMatch_lineEnd (last i : Z) (l : jsstring) :
  firstMatch patterns (lineEnd last i l) = firstMatch patterns l.
Proof.
  unfold lineEnd. destruct (i <? last); [apply firstMatch_snoc_CR|reflexivity].
Qed.

Lemma trim_lineEnd (last i : Z) (l : jsstring) : trim (lineEnd last i l) = trim l.
Proof.
  unfold lineEnd. destruct (i <? last); [apply trim_snoc_CR|reflexivity].
Qed.

Lemma strlen_lineEnd (last i : Z) (l : jsstring) :
  strlen (lineEnd last i l) = strlen l + (if i <? last then 1 else 0).
Proof.
  unfold lineEnd, strlen. destruct (i <? last); [|lia].
  rewrite length_app. cbn [length]. lia.
Qed.

Lemma indexOf_lineEnd (last i : Z) (l : jsstring) (k : SymbolKind)
    (nm : jsstring) :
  firstMatch patterns l = Some (k, nm) ->
  indexOf (lineEnd last i l) nm = indexOf l nm.
Proof.
  intros H. destruct (firstMatch_in_line l k nm H) as (_ & a & b & ->).
  unfold lineEnd, indexOf. destruct (i <? last); [|reflexivity].
  apply indexOfFrom_app.
Qed.

Lemma widenRange_line (last i n : Z) (a : Position) :
  widenRange last (mkRange a (mkPosition i n))
  = mkRange a (mkPosition i (n + (if i <? last then 1 else 0))).
Proof.
  unfold widenRange. cbn [rend rstart line character].
  destruct (i <? last); [reflexivity|]. now rewrite Z.add_0_r.
Qed.

Lemma rstart_widenRange (last : Z) (r : Range) :
  rstart (widenRange last r) = rstart r.
Proof. unfold widenRange. now destruct (_ <? last). Qed.

Lemma widenSymbol_pushChild (last : Z) (c : nat) (s : DocumentSymbol) :
  widenSymbol last (pushChild c s) = pushChild c (widenSymbol last s).
Proof. reflexivity. Qed.

Lemma map_alter_commute {A B : Type} (f : A -> B) (g : A -> A) (h : B -> B)
    (i : nat) (l : list A) :
  Forall (fun x => f (g x) = h (f x)) l ->
  map f (alter g i l) = alter h i (map f l).
Proof.
  revert i. induction l as [|x l IH]; intros i H; [reflexivity|].
  inversion H as [|? ? Hx Hl]; subst.
  destruct i as [|i]; cbn; [now rewrite Hx|]. f_equal. now apply IH.
Qed.

Lemma defineSymbol_lineEnd (last i : Z) (l : jsstring) (st : ScanState) :
  defineSymbol i (lineEnd last i l) (widenState last st)
  = widenState last (defineSymbol i l st).
Proof.
  unfold defineSymbol. rewrite firstMatch_lineEnd.
  destruct (firstMatch patterns l) as [[k nm]|] eqn:E; [|reflexivity].
  rewrite (indexOf_lineEnd last i l k nm E), strlen_lineEnd.
  destruct (provisional_range i l k nm E) as [Hidx Hprov].
  unfold provisional in Hprov. cbv zeta. rewrite Hprov.
  assert (Hnew : newRange (mkPosition i (indexOf l nm))
                   (mkPosition i (strlen l + (if i <? last then 1 else 0)))
                 = widenRange last
                     (mkRange (mkPosition i (indexOf l nm))
                        (mkPosition i (strlen l)))).
  { rewrite widenRange_line. unfold newRange, isBefore.
    cbn [line character]. rewrite Z.ltb_irrefl, Z.eqb_refl. cbn [orb andb].
    destruct (Z.ltb_spec (indexOf l nm)
                (strlen l + (if i <? last then 1 else 0))); [reflexivity|].
    destruct (i <? last); lia. }
  rewrite Hnew. unfold widenState. cbn [store symbols blockStack depth].
  rewrite length_map.
  set (sym := mkDocumentSymbol nm [] k
                (mkRange (mkPosition i (indexOf l nm)) (mkPosition i (strlen l)))
                (mkRange (mkPosition i (indexOf l nm)) (mkPosition i (strlen l)))
                []).
  assert (Hsym : map (widenSymbol last) (store st)
                 ++ [mkDocumentSymbol nm [] k
                       (widenRange last
                          (mkRange (mkPosition i (indexOf l nm))
                             (mkPosition i (strlen l))))
                       (widenRange last
                          (mkRange (mkPosition i (indexOf l nm))
                             (mkPosition i (strlen l)))) []]
                 = map (widenSymbol last) (store st ++ [sym]))
    by now rewrite map_app.
  rewrite Hsym.
  destruct (blockStack st) as [|parent rest];
    [|destruct (isFunctionOrEnum k)];
    destruct (pushesFrame k); cbn [store symbols blockStack depth];
    rewrite ?length_map; try reflexivity;
    now rewrite (map_alter_commute (widenSymbol last)
                   (pushChild (length (store st)))
                   (pushChild (length (store st))))
      by (apply List.Forall_forall; reflexivity).
Qed.

Lemma trackOpen_widenState (last : Z) (t : jsstring) (st : ScanState) :
  trackOpen t (widenState last st) = widenState last (trackOpen t st).
Proof. unfold trackOpen. now destruct (opensBlock t). Qed.

Lemma trackClose_lineEnd (last i : Z) (l t : jsstring) (st : ScanState) :
  Forall (fun s => line (rstart (range s)) < i) (store st) ->
  trackClose i (lineEnd last i l) t (widenState last st)
  = widenState last (trackClose i l t st).
Proof.
  intros H. unfold trackClose. destruct (closesBlock t); [|reflexivity].
  cbn [widenState blockStack depth store symbols].
  destruct (blockStack st) as [|top rest]; [reflexivity|].
  destruct (depth st - 1 <=? fdepth top); [|reflexivity].
  unfold widenState. cbn [store symbols blockStack depth]. f_equal.
  symmetry. apply map_alter_commute.
  eapply List.Forall_impl; [|exact H]. cbn beta. intros s Hs.
  unfold widenSymbol, setRange.
  cbn [name detail kind range selectionRange children].
  f_equal. rewrite rstart_widenRange, strlen_lineEnd.
  destruct (rstart (range s)) as [la ca]. cbn [line] in Hs.
  unfold newRange, isBefore. cbn [line character].
  destruct (Z.ltb_spec la i); [|lia]. cbn [orb].
  now rewrite widenRange_line.
Qed.

Lemma scanLine_lineEnd (last i : Z) (l : jsstring) (st : ScanState) :
  Forall (fun s => line (rstart (range s)) < i) (store st) ->
  scanLine i (lineEnd last i l) (widenState last st)
  = widenState last (scanLine i l st).
Proof.
  intros H. unfold scanLine. rewrite trim_lineEnd.
  destruct (closesBlock (trim l)) eqn:Hc.
  - pose proof (closes_defines_nothing l Hc) as Hn.
    unfold defineSymbol. rewrite firstMatch_lineEnd, Hn.
    unfold trackOpen. rewrite (closes_not_opens _ Hc).
    now apply trackClose_lineEnd.
  - rewrite defineSymbol_lineEnd, trackOpen_widenState.
    unfold trackClose. now rewrite Hc.
Qed.

Lemma origin_start_line (pre : list jsstring) (s : DocumentSymbol) :
  origin pre s -> line (rstart (range s)) < Z.of_nat (length pre).
Proof.
  intros (li & l & Hl & _ & Hsel & Hstart & _).
  apply lookup_lt_Some in Hl. rewrite Hstart, Hsel.
  unfold provisional. rewrite newRange_same_line. lia.
Qed.

Lemma withCR_cons (last i : Z) (l : jsstring) (rest : list jsstring) :
  last = i + Z.of_nat (length rest) ->
  withCR (l :: rest) = lineEnd last i l :: withCR rest.
Proof.
  intros ->. unfold lineEnd. destruct rest as [|l2 rest].
  - cbn [length withCR]. destruct (Z.ltb_spec i (i + Z.of_nat 0)); [lia|].
    reflexivity.
  - cbn [length]. destruct (Z.ltb_spec i (i + Z.of_nat (S (length rest))));
      [reflexivity|lia].
Qed.

Lemma scanFrom_withCR (last : Z) (rest : list jsstring) :
  forall (pre : list jsstring) (st : ScanState),
    last = Z.of_nat (length pre) + Z.of_nat (length rest) - 1 ->
    Forall (origin pre) (store st) ->
    scanFrom (Z.of_nat (length pre)) (withCR rest) (widenState last st)
    = widenState last (scanFrom (Z.of_nat (length pre)) rest st).
Proof.
  induction rest as [|l rest IH]; intros pre st Hlast Ho; [reflexivity|].
  rewrite (withCR_cons last (Z.of_nat (length pre)))
    by (cbn [length] in Hlast; lia).
  cbn [scanFrom]. rewrite scanLine_lineEnd
    by (eapply List.Forall_impl; [|exact Ho]; apply origin_start_line).
  replace (Z.of_nat (length pre) + 1) with (Z.of_nat (length (pre ++ [l])))
    by (rewrite length_app; cbn [length]; lia).
  apply IH.
  - rewrite length_app. cbn [length] in *. lia.
  - now apply origin_scanLine.
Qed.

Lemma split_nl_nonempty (s : jsstring) : split_nl s <> [].
Proof.
  destruct s as [|c s]; [discriminate|]. cbn [split_nl].
  destruct (c =? 10)%N; [discriminate|]. now destruct (split_nl s).
Qed.

Lemma split_nl_withCR (s : jsstring) : split_nl (crlf s) = withCR (split_nl s).
Proof.
  induction s as [|c r IH]; [reflexivity|].
  cbn [split_nl crlf]. change 10%N with LF. destruct (c =? LF)%N eqn:Hc.
  - change (split_nl (CR :: LF :: crlf r)) with ([CR] :: split_nl (crlf r)).
    rewrite IH. pose proof (split_nl_nonempty r) as Hne.
    now destruct (split_nl r).
  - cbn [split_nl]. change 10%N with LF. rewrite Hc, IH.
    destruct (split_nl r) as [|l [|l2 ls]]; reflexivity.
Qed.

Lemma omap_map {A B C : Type} (f : A -> option B) (f' : A -> option C)
    (g : B -> C) (l : list A) :
  (forall a, f' a = g <$> f a) -> omap f' l = map g (omap f l).
Proof.
  intros H. induction l as [|a l IH]; [reflexivity|]. cbn.
  rewrite H. destruct (f a); cbn; [f_equal|]; exact IH.
Qed.

Lemma lookup_map {A B : Type} (f : A -> B) (l : list A) (i : nat) :
  map f l !! i = f <$> l !! i.
Proof. apply list_lookup_fmap. Qed.

Lemma graphsFrom_widen (last : Z) (objs : list DocumentSymbol) :
  forall base,
    graphsFrom base (map (widenSymbol last) objs)
    = map (widen last) (graphsFrom base objs).
Proof.
  induction objs as [|s objs IH]; intros base; [reflexivity|].
  cbn [map graphsFrom widen]. rewrite IH. f_equal.
  cbn [widenSymbol name kind range selectionRange children]. f_equal.
  apply omap_map. intros c.
  destruct (decide (base < c)%nat); [apply lookup_map|reflexivity].
Qed.

Lemma forest_widenState (last : Z) (st : ScanState) :
  forest (widenState last st) = map (widen last) (forest st).
Proof.
  unfold forest. cbn [widenState store symbols]. rewrite graphsFrom_widen.
  apply omap_map. intros id. apply lookup_map.
Qed.

(** X12. The outline of a document whose lines end with carriage return and
    line feed is the outline of the document with line feed only, with the
    same names, kinds, nesting, lines and start columns; only the end
    columns differ: the carriage return is counted in the length of each
    line but the last, so a range that ends before the last line ends one
    column further. *)
Theorem outline_crlf (text : jsstring) :
  provideDocumentSymbols (crlf text)
  = map (widen (Z.of_nat (length (split_nl text)) - 1))
      (provideDocumentSymbols text).
Proof.
  unfold provideDocumentSymbols. rewrite split_nl_withCR.
  rewrite <- forest_widenState. f_equal.
  apply (scanFrom_withCR _ (split_nl text) [] initial); [|constructor].
  cbn [length]. lia.
Qed.

End CarriageReturns.


(** * The diagnostics of the open documents *)

Section Collection.

Import Session.

Lemma wasChecked_grow (active : option TextDocument) (events : list Event)
    (e : Event) (d : TextDocument) :
  wasChecked active events d -> wasChecked active (events ++ [e]) d.
Proof.
  intros [H|(c & [H|H])]; [now left|right; exists c; left|right; exists c; right];
    apply in_or_app; now left.
Qed.

Lemma provenance_grow (active : option TextDocument) (events : list Event)
    (e : Event) (st : State) :
  provenance active events st -> provenance active (events ++ [e]) st.
Proof.
  intros [Hrun Hcoll]. split.
  - eapply List.Forall_impl; [|exact Hrun]. cbn beta.
    intros x [Hv Hc]. split; [exact Hv|now apply wasChecked_grow].
  - intros u ds Hu.
    destruct (Hcoll u ds Hu) as (d & error & stderr & H1 & H2 & H3 & H4 & n & H5).
    exists d, error, stderr. repeat split; auto using wasChecked_grow.
    exists n. apply in_or_app. now left.
Qed.

Lemma provenance_delete (active : option TextDocument) (events : list Event)
    (st : State) (u : jsstring) :
  provenance active events st ->
  provenance active events
    (mkState (delete u (diagnosticCollection st)) (running st)).
Proof.
  intros [Hrun Hcoll]. split; [exact Hrun|].
  cbn [diagnosticCollection]. intros u' ds Hu.
  apply stdpp.fin_maps.lookup_delete_Some in Hu as [_ Hu]. now apply Hcoll.
Qed.

Lemma provenance_runDiagnostics (active : option TextDocument)
    (events : list Event) (config : Configuration) (d : TextDocument)
    (st : State) :
  wasChecked active events d -> provenance active events st ->
  provenance active events (runDiagnostics config d st).
Proof.
  intros Hd H. unfold runDiagnostics.
  destruct (isVibe d) eqn:Hv; cbn [negb]; [|exact H].
  destruct (enableDiagnostics config); cbn [negb];
    [|now apply provenance_delete].
  destruct H as [Hrun Hcoll]. split; [|exact Hcoll].
  cbn [running]. apply Forall_app. split; [exact Hrun|].
  constructor; [|constructor]. now split.
Qed.

Lemma provenance_handle (active : option TextDocument) (events : list Event)
    (e : Event) (st : State) :
  provenance active events st ->
  provenance active (events ++ [e]) (handle st e).
Proof.
  intros H. pose proof (provenance_grow active events e st H) as Hg.
  destruct e as [config d|config d|d|n error stderr]; cbn [handle].
  - unfold onSave. destruct (isVibe d); [|exact Hg].
    apply provenance_runDiagnostics; [|exact Hg].
    right. exists config. left. apply in_or_app. right. now left.
  - unfold onOpen. destruct (isVibe d); [|exact Hg].
    apply provenance_runDiagnostics; [|exact Hg].
    right. exists config. right. apply in_or_app. right. now left.
  - now apply provenance_delete.
  - destruct (running st !! n) as [x|] eqn:Hx; [|exact Hg].
    destruct Hg as [Hrun Hcoll]. unfold execCallback.
    destruct (onExit error stderr) as [found|] eqn:Hfound;
      cbn [running diagnosticCollection];
      (split; [now apply Forall_delete|]); [|exact Hcoll].
    intros u ds Hu. cbn [diagnosticCollection] in Hu.
    apply stdpp.fin_maps.lookup_insert_Some in Hu as [[<- <-]|[_ Hu]];
      [|now apply Hcoll].
    destruct (Forall_lookup_1 _ _ _ _ Hrun Hx) as [Hv Hc].
    exists (document x), error, stderr. repeat split; auto.
    exists n. apply in_or_app. right. now left.
Qed.

Lemma provenance_run (config : Configuration) (active : option TextDocument)
    (events : list Event) :
  provenance active events (run config active events).
Proof.
  unfold run. induction events as [|e events IH] using rev_ind.
  - cbn [fold_left]. unfold activate.
    assert (H0 : provenance active [] (mkState ∅ [])).
    { split; [constructor|]. cbn [diagnosticCollection]. intros u ds Hu.
      now rewrite stdpp.fin_maps.lookup_empty in Hu. }
    destruct active as [d|]; [|exact H0].
    apply provenance_runDiagnostics; [now left|exact H0].
  - rewrite fold_left_app. cbn [fold_left]. now apply provenance_handle.
Qed.

(** X13. Whatever documents are saved, opened and closed after the
    activation, in whatever order the interpreters end, the collection holds
    diagnostics only for documents of the language "vibe" that were in the
    active editor at the activation or were saved or opened since, and what
    it holds for one is what the callback of an interpreter that ended
    computed from its error text, without an exception. *)
Theorem diagnostics_provenance (config : Configuration)
    (active : option TextDocument) (events : list Event) (u : jsstring)
    (ds : list Diagnostic) :
  diagnosticCollection (run config active events) !! u = Some ds ->
  exists d error stderr,
    uri d = u /\ languageId d = str "vibe"
    /\ wasChecked active events d
    /\ onExit error stderr = Some ds
    /\ exists n, In (Exit n error stderr) events.
Proof.
  intros H.
  destruct (proj2 (provenance_run config active events) u ds H)
    as (d & error & stderr & H1 & H2 & H3 & H4 & H5).
  exists d, error, stderr. repeat split; auto.
  unfold isVibe in H2. now apply bool_decide_eq_true in H2.
Qed.

Lemma diagnostics_provenance_witness :
  let d := mkTextDocument (str "file:///a.vibe") (str "vibe") (str "/a.vibe") in
  let config := mkConfiguration true (str "vibe") in
  exists d' error stderr,
    uri d' = str "file:///a.vibe" /\ languageId d' = str "vibe"
    /\ wasChecked None [DidSave config d; Exit 0 true (str "[3:5] boom")] d'
    /\ onExit error stderr = Some [diagnosticAt 2 4 (str "boom")]
    /\ exists n,
         In (Exit n error stderr)
           [DidSave config d; Exit 0 true (str "[3:5] boom")].
Proof.
  apply (diagnostics_provenance
           (mkConfiguration true (str "vibe")) None
           [DidSave (mkConfiguration true (str "vibe"))
              (mkTextDocument (str "file:///a.vibe") (str "vibe") (str "/a.vibe"));
            Exit 0 true (str "[3:5] boom")]).
  vm_compute. reflexivity.
Defined.

Lemma quiet_handle (u : jsstring) (n : nat) (x : Exec) (e : Event)
    (st : State) :
  isExit e = false ->
  diagnosticCollection st !! u = None -> running st !! n = Some x ->
  diagnosticCollection (handle st e) !! u = None
  /\ running (handle st e) !! n = Some x.
Proof.
  intros He Hu Hx.
  assert (Hrun : forall config d,
             diagnosticCollection (runDiagnostics config d st) !! u = None
             /\ running (runDiagnostics config d st) !! n = Some x).
  { intros config d. unfold runDiagnostics.
    destruct (isVibe d); cbn [negb]; [|now split].
    destruct (enableDiagnostics config); cbn [negb diagnosticCollection running].
    - split; [exact Hu|]. now apply lookup_app_l_Some.
    - split; [|exact Hx]. apply stdpp.fin_maps.lookup_delete_None. now right. }
  destruct e as [config d|config d|d|m error stderr]; cbn [handle];
    [unfold onSave|unfold onOpen| |discriminate].
  - destruct (isVibe d); [apply Hrun|now split].
  - destruct (isVibe d); [apply Hrun|now split].
  - cbn [onClose diagnosticCollection running]. split; [|exact Hx].
    apply stdpp.fin_maps.lookup_delete_None. now right.
Qed.

Lemma quiet_events (u : jsstring) (n : nat) (x : Exec) (events : list Event) :
  forall st : State,
    forallb (fun e => negb (isExit e)) events = true ->
    diagnosticCollection st !! u = None -> running st !! n = Some x ->
    diagnosticCollection (fold_left handle events st) !! u = None
    /\ running (fold_left handle events st) !! n = Some x.
Proof.
  induction events as [|e events IH]; intros st He Hu Hx; [now split|].
  cbn [forallb] in He. apply andb_true_iff in He as [He Hes].
  apply negb_true_iff in He.
  destruct (quiet_handle u n x e st He Hu Hx) as [Hu' Hx'].
  cbn [fold_left]. now apply IH.
Qed.

(** X14. Closing a document does not stop the interpreter that is checking
    it. After the close, and whatever documents are saved, opened or closed
    next, the collection has no entry for the document as long as no
    interpreter ends; when the interpreter that was checking it ends, its
    callback stores for the closed document what it computed, or nothing
    when it ends with an exception. *)
Theorem diagnostics_after_close (st : State) (d : TextDocument) (n : nat)
    (x : Exec) (events : list Event) (error : bool) (stderr : jsstring) :
  running st !! n = Some x -> uri (document x) = uri d ->
  forallb (fun e => negb (isExit e)) events = true ->
  let closed := fold_left handle events (handle st (DidClose d)) in
  diagnosticCollection closed !! uri d = None
  /\ diagnosticCollection (handle closed (Exit n error stderr)) !! uri d
     = onExit error stderr.
Proof.
  intros Hx Hu Hquiet closed.
  assert (H0 : diagnosticCollection (handle st (DidClose d)) !! uri d = None)
    by apply stdpp.fin_maps.lookup_delete_eq.
  destruct (quiet_events (uri d) n x events _ Hquiet H0 Hx) as [Hnone Hrun].
  fold closed in Hnone, Hrun. split; [exact Hnone|].
  cbn [handle]. rewrite Hrun. unfold execCallback.
  destruct (onExit error stderr) as [found|];
    cbn [diagnosticCollection]; [|exact Hnone].
  rewrite Hu. apply stdpp.fin_maps.lookup_insert_eq.
Qed.

Lemma diagnostics_after_close_witness :
  let d := mkTextDocument (str "file:///a.vibe") (str "vibe") (str "/a.vibe") in
  let other := mkTextDocument (str "file:///b.vibe") (str "vibe") (str "/b.vibe") in
  let config := mkConfiguration true (str "vibe") in
  let closed := fold_left handle [DidSave config other; DidClose other]
                  (handle (run config (Some d) []) (DidClose d)) in
  diagnosticCollection closed !! uri d = None
  /\ diagnosticCollection (handle closed (Exit 0 true (str "[3:5] boom")))
       !! uri d
     = onExit true (str "[3:5] boom").
Proof.
  apply (diagnostics_after_close
           (run (mkConfiguration true (str "vibe"))
              (Some (mkTextDocument (str "file:///a.vibe") (str "vibe")
                       (str "/a.vibe"))) [])
           (mkTextDocument (str "file:///a.vibe") (str "vibe") (str "/a.vibe"))
           0%nat
           (mkExec (str "vibe") [str "/a.vibe"]
              (mkTextDocument (str "file:///a.vibe") (str "vibe")
                 (str "/a.vibe")))
           [DidSave (mkConfiguration true (str "vibe"))
              (mkTextDocument (str "file:///b.vibe") (str "vibe")
                 (str "/b.vibe"));
            DidClose (mkTextDocument (str "file:///b.vibe") (str "vibe")
                        (str "/b.vibe"))]).
  - reflexivity.
  - reflexivity.
  - reflexivity.
Defined.

End Collection.

(** * What the host requires of a symbol *)

Section WellFormed.

(** X15. Every node of the outline, at any level, has a selection range that
    is contained in its range, as the host requires of a symbol. *)
Theorem outline_selection_in_range (text : jsstring) (n : SymbolNode) :
  In n (allNodes (provideDocumentSymbols text)) ->
  containsRange (nodeRange n) (nodeSelectionRange n) = true.
Proof.
  intros H.
  destruct (outline_node_symbol text n H) as (j & s & Hs & _ & Hn & _).
  pose proof (Forall_lookup_1 _ _ _ _ (scan_origin text) Hs)
    as (li & l & Hl & Hfm & Hsel & Hstart & Hend).
  destruct (provisional_range (Z.of_nat li) l _ _ Hfm) as [Hidx Hprov].
  rewrite Hn. cbn [nodeRange nodeSelectionRange].
  rewrite Hsel, Hprov in *.
  destruct (range s) as [a b]. cbn [rstart rend] in *. subst a.
  unfold containsRange, containsPosition, isBefore.
  cbn [rstart rend line character].
  destruct Hend as [E|(lj & lc & Hlt & _ & _ & ->)].
  - inversion E; subst b. cbn [line character].
    rewrite !Z.ltb_irrefl, !Z.eqb_refl. cbn [orb andb negb].
    destruct (Z.ltb_spec (strlen l) (indexOf l (name s))); [lia|reflexivity].
  - cbn [line character]. rewrite !Z.ltb_irrefl, !Z.eqb_refl.
    destruct (Z.ltb_spec (Z.of_nat lj) (Z.of_nat li)); [lia|].
    destruct (Z.eqb_spec (Z.of_nat lj) (Z.of_nat li)); [lia|].
    cbn [orb andb negb].
    destruct (Z.ltb_spec (strlen l) (indexOf l (name s))); [lia|reflexivity].
Qed.

Lemma outline_selection_in_range_witness :
  containsRange (mkRange (mkPosition 1 6) (mkPosition 2 5))
    (mkRange (mkPosition 1 6) (mkPosition 1 7)) = true.
Proof.
  apply (outline_selection_in_range
           (str "class A" ++ LF :: str "  def g" ++ LF :: str "  end" ++ LF
            :: str "end")
           (Node (str "g") Function
              (mkRange (mkPosition 1 6) (mkPosition 2 5))
              (mkRange (mkPosition 1 6) (mkPosition 1 7)) [])).
  vm_compute. right. left. reflexivity.
Defined.

End WellFormed.

(** * Texts put together *)

Section Composition.

Lemma split_nl_app (a b : jsstring) :
  split_nl (a ++ LF :: b) = split_nl a ++ split_nl b.
Proof.
  induction a as [|c a IH]; [reflexivity|].
  cbn [app split_nl]. rewrite IH. destruct (c =? 10)%N; [reflexivity|].
  pose proof (split_nl_nonempty a) as Hne.
  now destruct (split_nl a).
Qed.

Lemma isBefore_shift (dl : Z) (a b : Position) :
  isBefore (shiftPosition dl a) (shiftPosition dl b) = isBefore a b.
Proof.
  unfold isBefore, shiftPosition. cbn [line character].
  destruct (Z.ltb_spec (line a + dl) (line b + dl)),
           (Z.ltb_spec (line a) (line b)); lia.
Qed.

Lemma newRange_shift (dl : Z) (a b : Position) :
  newRange (shiftPosition dl a) (shiftPosition dl b)
  = shiftRange dl (newRange a b).
Proof.
  unfold newRange. rewrite isBefore_shift. now destruct (isBefore a b).
Qed.

Lemma defineSymbol_continued (before : ScanState) (dl j : Z) (l : jsstring)
    (st : ScanState) :
  defineSymbol (j + dl) l (continued before dl st)
  = continued before dl (defineSymbol j l st).
Proof.
  unfold defineSymbol.
  destruct (firstMatch patterns l) as [[k nm]|]; [|reflexivity].
  cbv zeta.
  change (newRange (mkPosition (j + dl) (indexOf l nm))
            (mkPosition (j + dl) (strlen l)))
    with (newRange (shiftPosition dl (mkPosition j (indexOf l nm)))
            (shiftPosition dl (mkPosition j (strlen l)))).
  rewrite newRange_shift.
  set (rg := newRange (mkPosition j (indexOf l nm)) (mkPosition j (strlen l))).
  set (n0 := length (store before)).
  assert (Hlen : length (store (continued before dl st))
                 = (n0 + length (store st))%nat)
    by (cbn [continued store]; now rewrite length_app, length_map).
  rewrite Hlen.
  assert (Hstore : store (continued before dl st)
                   ++ [mkDocumentSymbol nm [] k (shiftRange dl rg)
                         (shiftRange dl rg) []]
                   = store before
                     ++ map (moveSymbol dl n0)
                          (store st ++ [mkDocumentSymbol nm [] k rg rg []]))
    by (cbn [continued store]; now rewrite map_app, <- app_assoc).
  rewrite Hstore.
  assert (Hsyms : symbols (continued before dl st)
                  ++ [(n0 + length (store st))%nat]
                  = symbols before
                    ++ map (Nat.add n0) (symbols st ++ [length (store st)]))
    by (cbn [continued symbols]; now rewrite map_app, <- app_assoc).
  rewrite Hsyms.
  unfold continued. cbn [store symbols blockStack depth]. subst n0.
  destruct (blockStack st) as [|parent rest]; cbn [map];
    [|destruct (isFunctionOrEnum k)];
    destruct (pushesFrame k);
    cbn [store symbols blockStack depth map moveFrame symbol];
    try reflexivity;
    rewrite alter_app_r;
    rewrite (map_alter_commute (moveSymbol dl (length (store before)))
               (pushChild (length (store st)))
               (pushChild (length (store before) + length (store st))))
      by (apply List.Forall_forall; intros x _; unfold moveSymbol, pushChild;
          cbn [name detail kind range selectionRange children];
          now rewrite map_app);
    reflexivity.
Qed.

Lemma trackOpen_continued (before : ScanState) (dl : Z) (t : jsstring)
    (st : ScanState) :
  trackOpen t (continued before dl st) = continued before dl (trackOpen t st).
Proof. unfold trackOpen. now destruct (opensBlock t). Qed.

Lemma trackClose_continued (before : ScanState) (dl j : Z) (l t : jsstring)
    (st : ScanState) :
  trackClose (j + dl) l t (continued before dl st)
  = continued before dl (trackClose j l t st).
Proof.
  unfold trackClose. destruct (closesBlock t); [|reflexivity].
  cbn [continued blockStack depth store symbols].
  destruct (blockStack st) as [|top rest]; [reflexivity|].
  cbn [map moveFrame fdepth symbol].
  destruct (depth st - 1 <=? fdepth top); [|reflexivity].
  unfold continued. cbn [store symbols blockStack depth]. f_equal.
  rewrite alter_app_r. f_equal. symmetry. apply map_alter_commute.
  apply List.Forall_forall. intros s _. unfold moveSymbol, setRange.
  cbn [name detail kind range selectionRange children]. f_equal.
  symmetry. apply (newRange_shift dl (rstart (range s)) (mkPosition j (strlen l))).
Qed.

Lemma scanLine_continued (before : ScanState) (dl j : Z) (l : jsstring)
    (st : ScanState) :
  scanLine (j + dl) l (continued before dl st)
  = continued before dl (scanLine j l st).
Proof.
  unfold scanLine.
  now rewrite defineSymbol_continued, trackOpen_continued,
    trackClose_continued.
Qed.

Lemma scanFrom_continued (before : ScanState) (dl : Z) (lines : list jsstring) :
  forall (j : Z) (st : ScanState),
    scanFrom (j + dl) lines (continued before dl st)
    = continued before dl (scanFrom j lines st).
Proof.
  induction lines as [|l lines IH]; intros j st; [reflexivity|].
  cbn [scanFrom]. rewrite scanLine_continued.
  replace (j + dl + 1) with (j + 1 + dl) by lia. apply IH.
Qed.

Lemma graphsFrom_app (objs later : list DocumentSymbol) :
  forall base,
    (forall j s c, objs !! j = Some s -> In c (children s) ->
                   (c < base + length objs)%nat) ->
    graphsFrom base (objs ++ later)
    = graphsFrom base objs ++ graphsFrom (base + length objs) later.
Proof.
  induction objs as [|s objs IH]; intros base H.
  - cbn [app graphsFrom length]. now rewrite Nat.add_0_r.
  - cbn [app graphsFrom length].
    rewrite IH
      by (intros j s' c Hj Hc; specialize (H (S j) s' c Hj Hc);
          cbn [length] in H; lia).
    replace (S base + length objs)%nat with (base + S (length objs))%nat by lia.
    f_equal. f_equal. apply omap_ext_In. intros c Hc.
    destruct (decide (base < c)%nat); [|reflexivity].
    apply lookup_app_l. rewrite length_graphsFrom.
    specialize (H 0%nat s c eq_refl Hc). cbn [length] in H. lia.
Qed.

Lemma omap_map_shift {A B C : Type} (f : A -> option B) (f' : A -> option C)
    (h : A -> A) (g : B -> C) (l : list A) :
  (forall a, f' (h a) = g <$> f a) -> omap f' (map h l) = map g (omap f l).
Proof.
  intros H. induction l as [|a l IH]; [reflexivity|]. cbn.
  rewrite H. destruct (f a); cbn; [f_equal|]; exact IH.
Qed.

Lemma graphsFrom_moveSymbol (dl : Z) (k : nat) (objs : list DocumentSymbol) :
  forall base,
    graphsFrom (k + base) (map (moveSymbol dl k) objs)
    = map (shiftLines dl) (graphsFrom base objs).
Proof.
  induction objs as [|s objs IH]; intros base; [reflexivity|].
  cbn [map graphsFrom shiftLines].
  replace (S (k + base)) with (k + S base)%nat by lia. rewrite IH. f_equal.
  cbn [moveSymbol name kind range selectionRange children]. f_equal.
  apply omap_map_shift. intros c.
  destruct (decide (k + base < k + c)%nat), (decide (base < c)%nat);
    try lia; [|reflexivity].
  replace (k + c - (k + S base))%nat with (c - S base)%nat by lia.
  apply lookup_map.
Qed.

Lemma forest_continued (before : ScanState) (dl : Z) (st : ScanState) :
  linked (length (store before)) (store before) ->
  Forall (fun id => (id < length (store before))%nat) (symbols before) ->
  forest (continued before dl st)
  = forest before ++ map (shiftLines dl) (forest st).
Proof.
  intros Hlinked Hsyms. unfold forest. cbn [continued store symbols].
  rewrite graphsFrom_app
    by (intros j s c Hj Hc; destruct (Hlinked j s c Hj Hc); lia).
  replace (0 + length (store before))%nat with (length (store before) + 0)%nat
    by lia.
  rewrite (graphsFrom_moveSymbol dl (length (store before)) (store st) 0).
  rewrite omap_app. f_equal.
  - apply omap_ext_In. intros id Hid. apply lookup_app_l.
    rewrite length_graphsFrom.
    apply List.Forall_forall with (x := id) in Hsyms; auto.
  - apply omap_map_shift. intros id.
    rewrite lookup_app_r by (rewrite length_graphsFrom; lia).
    rewrite length_graphsFrom.
    replace (length (store before) + id - length (store before))%nat with id
      by lia.
    apply lookup_map.
Qed.

Lemma continued_initial (before : ScanState) (dl : Z) :
  blockStack before = [] -> depth before = 0 ->
  continued before dl initial = before.
Proof.
  destruct before as [objs syms stack d]. cbn [blockStack depth].
  intros -> ->. unfold continued. cbn. now rewrite !app_nil_r.
Qed.

(** X16. A text whose blocks are balanced does not change what follows it:
    the outline of the text followed by a line feed and a second text is the
    outline of the first text followed by the outline of the second, moved
    down by the number of lines of the first. *)
Theorem outline_after_balanced (a b : jsstring) :
  balanced a = true ->
  provideDocumentSymbols (a ++ LF :: b)
  = provideDocumentSymbols a
    ++ map (shiftLines (Z.of_nat (length (split_nl a))))
         (provideDocumentSymbols b).
Proof.
  intros Hbal. unfold provideDocumentSymbols.
  rewrite split_nl_app, scanFrom_app. fold (finalState a).
  destruct (scan_openFrames a) as (Hdepth & _).
  apply andb_prop in Hbal as Hbal'. destruct Hbal' as [_ Hzero].
  apply Z.eqb_eq in Hzero. rewrite Hzero in Hdepth.
  pose proof (balanced_stack_empty a Hbal) as Hstack.
  rewrite <- (continued_initial (finalState a)
                (Z.of_nat (length (split_nl a))) Hstack Hdepth) at 1.
  rewrite (scanFrom_continued (finalState a) _ (split_nl b) 0 initial).
  destruct (scan_inLineOrder a) as [[Hlinked _] (_ & _ & _ & Hsyms & _)].
  now apply forest_continued.
Qed.

Lemma outline_after_balanced_witness :
  provideDocumentSymbols
    ((str "class A" ++ LF :: str "end") ++ LF :: str "def g" ++ LF :: str "end")
  = provideDocumentSymbols (str "class A" ++ LF :: str "end")
    ++ map (shiftLines
              (Z.of_nat (length (split_nl (str "class A" ++ LF :: str "end")))))
         (provideDocumentSymbols (str "def g" ++ LF :: str "end")).
Proof.
  apply outline_after_balanced. vm_compute. reflexivity.
Defined.

(** X17. The diagnostics of an error text are those of its parts: the text
    [a], a line feed and the text [b] give the diagnostics of [a] followed
    by those of [b], and end with an exception when one of the two does. *)
Theorem locate_app (a b : jsstring) :
  locate (a ++ LF :: b)
  = match locate a, locate b with
    | Some found1, Some found2 => Some (found1 ++ found2)
    | _, _ => None
    end.
Proof.
  rewrite !locate_parse, split_nl_app, pushDiagnostics_app.
  destruct (pushDiagnostics diagnose (split_nl a) []) as [found1|];
    [|reflexivity].
  rewrite pushDiagnostics_acc.
  now destruct (pushDiagnostics diagnose (split_nl b) []).
Qed.

Lemma split_nl_line (l : jsstring) : ~ In LF l -> split_nl l = [l].
Proof.
  induction l as [|c l IH]; intros H; [reflexivity|]. cbn [split_nl].
  destruct (N.eqb_spec c 10) as [->|_]; [exfalso; apply H; now left|].
  rewrite IH; [reflexivity|]. intros Hin. apply H. now right.
Qed.

Lemma split_nl_joinLines (l : jsstring) (ls : list jsstring) :
  Forall (fun l => ~ In LF l) (l :: ls) ->
  split_nl (joinLines (l :: ls)) = l :: ls.
Proof.
  revert l. induction ls as [|l2 ls IH]; intros l H;
    inversion H as [|? ? Hl Hls]; subst.
  - now apply split_nl_line.
  - change (joinLines (l :: l2 :: ls)) with (l ++ LF :: joinLines (l2 :: ls)).
    now rewrite split_nl_app, split_nl_line, IH.
Qed.

(** X18. When the callback does not end with an exception, it gives exactly
    one diagnostic for each line of the error text that is not blank, in
    the order of the lines, and none for a blank line: for the text made of
    any lines, the diagnostics are those constructed for the lines that are
    not blank, one for one. A text of white space only gives no diagnostic
    and no exception. *)
Theorem locate_one_per_line :
  (forall (lines : list jsstring) (found : list Diagnostic),
      Forall (fun l => ~ In LF l) lines ->
      locate (joinLines lines) = Some found ->
      Forall2 (fun l d => diagnose l = Some d)
        (List.filter nonBlank lines) found)
  /\ (forall text : jsstring, forallb isWs text = true -> locate text = Some []).
Proof.
  split.
  - intros lines found Hlines H. rewrite locate_parse in H.
    destruct lines as [|l ls].
    + cbn in H. inversion H. constructor.
    + rewrite split_nl_joinLines in H by exact Hlines.
      destruct (pushDiagnostics_Forall2 _ _ _ _ H) as (found' & -> & Hall).
      exact Hall.
  - intros text Hws. rewrite locate_parse.
    pose proof (split_nl_forallb isWs text Hws) as Hall.
    induction Hall as [|l ls Hl Hls IH]; [reflexivity|].
    cbn [pushDiagnostics]. now rewrite isBlank_forallb, Hl.
Qed.

Lemma locate_one_per_line_witness :
  Forall2 (fun l d => diagnose l = Some d)
    (List.filter nonBlank [str "boom"; str "  "; str "[3:5] x"])
    [diagnosticAt 0 0 (str "boom"); diagnosticAt 2 4 (str "x")].
Proof.
  apply (proj1 locate_one_per_line [str "boom"; str "  "; str "[3:5] x"]).
  - repeat constructor; vm_compute; intuition discriminate.
  - reflexivity.
Defined.

End Composition.
